(** * Kafka-style log (Maelstrom challenge #5): model and properties

    Three programs of the repository implement the log service:
    - [Distributed] is src/unnamed/part_004, the variant built on the
      linearizable key-value service (lin-kv);
    - [SingleNode] is src/unnamed/part_002, the in-memory variant whose
      four handlers run under one mutex;
    - [SingleNodeDraft] is src/unnamed/part_003, the earlier in-memory
      program with [send] and [poll] only.

    The file of the distributed variant also holds the transaction store
    of challenge #6, a key-value map behind one [txn] handler ([Txn]).

    Go's [int] is the 64-bit two's complement integer; it is modelled as
    [Z] with the wrap-around of [+] and [*] written out ([GoInt]). *)

From Stdlib Require Import ZArith Lia List Sorted Permutation Ascii.
From stdpp Require Import base option list sorting gmap strings pretty.

Local Open Scope Z_scope.

(** ** Go integers *)

Module GoInt.

Definition int_min : Z := - 2 ^ 63.
Definition int_max : Z := 2 ^ 63 - 1.

Definition in_range (z : Z) : Prop := int_min <= z <= int_max.

(** Two's complement reduction of a mathematical integer. *)
Definition wrap (z : Z) : Z := (z + 2 ^ 63) mod 2 ^ 64 - 2 ^ 63.

Definition add (a b : Z) : Z := wrap (a + b).
Definition mul (a b : Z) : Z := wrap (a * b).

End GoInt.

(** ** Go slices

    A slice variable declared with [var] is nil until something is
    appended; a composite literal gives a non-nil slice.  The two differ
    when the reply is serialised (null against an empty array). *)

Inductive slice (A : Type) : Type :=
| NilSlice
| Slice (elements : list A).
Arguments NilSlice {A}.
Arguments Slice {A} elements.

Definition elems {A} (s : slice A) : list A :=
  match s with
  | NilSlice => []
  | Slice l => l
  end.

Definition append {A} (s : slice A) (x : A) : slice A := Slice (elems s ++ [x]).

(** ** Errors returned by the Maelstrom client *)

(** Modelled from the spec: the error values of the Maelstrom client
    library, which is outside the repository.  An error is an RPC error
    with a code or something else; section 7 of the specification names
    not-found, conflict and unavailable. *)
Inductive error : Type :=
| RPCError (code : Z)
| OtherError.

(** Modelled from the spec: the codes of the Maelstrom protocol for the
    three errors of section 7; only their being distinct matters. *)
Definition KeyDoesNotExist : Z := 20.
Definition PreconditionFailed : Z := 22.
Definition TemporarilyUnavailable : Z := 11.

(** The test [errors.As(err, &rpcErr) && rpcErr.Code == maelstrom.KeyDoesNotExist]. *)
Definition isKeyDoesNotExist (e : error) : bool :=
  match e with
  | RPCError code => code =? KeyDoesNotExist
  | OtherError => false
  end.

(** ** Requests

    The decoded bodies of the four requests (SendRequestBody,
    PollRequestBody, CommitOffsetsRequestBody and
    ListCommittedOffsetsRequestBody); a map of the body is the list of
    its pairs in the order in which [range] visits them. *)
Inductive request : Type :=
| Send (key : string) (msg : Z)
| Poll (offsets : list (string * Z))
| CommitOffsets (offsets : list (string * Z))
| ListCommittedOffsets (keys : list string).

(** ** The key-value substrate *)

Module LinKV.

(** Modelled from the spec: the linearizable key-value service and its
    Go client (maelstrom.KV) are outside the repository.  The store maps
    keys to integers, the only values the log service writes. *)
Abbreviation store := (gmap string Z).

(** Modelled from the spec: [read(key) -> value], failing with NotFound
    when the key is absent (section 6). *)
Definition ReadInt (kv : store) (key : string) : error + Z :=
  match kv !! key with
  | Some v => inr v
  | None => inl (RPCError KeyDoesNotExist)
  end.

(** Modelled from the spec: [write(key, value)] (section 6). *)
Definition Write (kv : store) (key : string) (value : Z) : option error * store :=
  (None, <[key := value]> kv).

(** Modelled from the spec: [compareAndSwap(key, expectedOld, new,
    createIfAbsent) -> success | Conflict] (section 6): atomic, stores
    [new] when the key holds [expectedOld], creates the key when it is
    absent and creation is asked for, and changes nothing otherwise. *)
Definition CompareAndSwap (kv : store) (key : string) (from to : Z)
    (createIfNotExists : bool) : option error * store :=
  match kv !! key with
  | Some v =>
      if decide (v = from) then (None, <[key := to]> kv)
      else (Some (RPCError PreconditionFailed), kv)
  | None =>
      if createIfNotExists then (None, <[key := to]> kv)
      else (Some (RPCError KeyDoesNotExist), kv)
  end.

(** Modelled from the spec: what the environment does with one call.
    The service answers it, or the call fails with an error (section 7,
    substrate-unavailable or other) and leaves the store as it was. *)
Inductive outcome : Type :=
| Served
| Fails (e : error).

Definition callReadInt (o : outcome) (kv : store) (key : string) : error + Z :=
  match o with
  | Served => ReadInt kv key
  | Fails e => inl e
  end.

Definition callWrite (o : outcome) (kv : store) (key : string) (value : Z)
    : option error * store :=
  match o with
  | Served => Write kv key value
  | Fails e => (Some e, kv)
  end.

Definition callCompareAndSwap (o : outcome) (kv : store) (key : string)
    (from to : Z) (createIfNotExists : bool) : option error * store :=
  match o with
  | Served => CompareAndSwap kv key from to createIfNotExists
  | Fails e => (Some e, kv)
  end.

End LinKV.

(** Runs a handler written as a step function: one step per substrate
    call, each with the outcome the environment chose for it. *)
Fixpoint exec {PC St : Type} (step : LinKV.outcome -> PC -> St -> PC * St)
    (outcomes : list LinKV.outcome) (pc : PC) (st : St) : PC * St :=
  match outcomes with
  | [] => (pc, st)
  | o :: rest => let '(pc', st') := step o pc st in exec step rest pc' st'
  end.

(** ** The distributed variant (src/unnamed/part_004)

    A handler is modelled from the point where its request body has been
    decoded; a body that does not decode makes the handler return the
    error before it touches the store. *)

Module Distributed.
Import LinKV.

(** [fmt.Sprintf] with the three key formats of the program. *)
Definition offsetKey (key : string) : string := key +:+ "/highest_offset".
Definition logEntryKey (key : string) (offset : Z) : string :=
  key +:+ "/data/" +:+ pretty offset.
Definition committedOffsetKey (key : string) : string := key +:+ "/committed_offset".

(** *** send

    The handler is a loop around two substrate calls followed by a
    third; its control points are the calls and the two kinds of exit. *)
Inductive send_pc : Type :=
| SendRead                              (* before kv.ReadInt *)
| SendCas (oldOffset : Z)               (* before kv.CompareAndSwap *)
| SendWrite (offset : Z)                (* before kv.Write *)
| SendOk (offset : Z)                   (* replied send_ok{offset} *)
| SendReadErr (e : error)               (* returned err from the read *)
| SendWriteErr (offset : Z) (e : error) (* returned err from the write *).

Definition send_step (key : string) (msg : Z) (o : outcome)
    (pc : send_pc) (kv : store) : send_pc * store :=
  match pc with
  | SendRead =>
      match callReadInt o kv (offsetKey key) with
      | inr oldOffset => (SendCas oldOffset, kv)
      | inl err =>
          if isKeyDoesNotExist err then (SendCas (-1), kv)
          else (SendReadErr err, kv)
      end
  | SendCas oldOffset =>
      match callCompareAndSwap o kv (offsetKey key) oldOffset
              (GoInt.add oldOffset 1) true with
      | (None, kv') => (SendWrite (GoInt.add oldOffset 1), kv')
      | (Some _, kv') => (SendRead, kv')
      end
  | SendWrite offset =>
      match callWrite o kv (logEntryKey key offset) msg with
      | (None, kv') => (SendOk offset, kv')
      | (Some err, kv') => (SendWriteErr offset err, kv')
      end
  | SendOk _ | SendReadErr _ | SendWriteErr _ _ => (pc, kv)
  end.

(** One client, nothing failing: the three calls in a row. *)
Definition send (key : string) (msg : Z) (kv : store) : send_pc * store :=
  exec (send_step key msg) [Served; Served; Served] SendRead kv.

(** A client that sends [msgs] one after the other. *)
Fixpoint sends (key : string) (msgs : list Z) (kv : store)
    : list send_pc * store :=
  match msgs with
  | [] => ([], kv)
  | msg :: rest =>
      let '(pc, kv') := send key msg kv in
      let '(pcs, kv'') := sends key rest kv' in
      (pc :: pcs, kv'')
  end.

(** *** commit_offsets

    The request's map is given as the list of its pairs in the order in
    which [range] visits them. *)
Inductive commit_pc : Type :=
| CommitRead (key : string) (newOffset : Z) (rest : list (string * Z))
| CommitCas (key : string) (newOffset oldCommittedOffset : Z)
    (rest : list (string * Z))
| CommitOk                              (* replied commit_offsets_ok *)
| CommitErr (e : error)                 (* returned err from the read *).

(** Entering the next iteration of the loop over the request's pairs. *)
Definition commit_next (todo : list (string * Z)) : commit_pc :=
  match todo with
  | [] => CommitOk
  | (key, newOffset) :: rest => CommitRead key newOffset rest
  end.

Definition commit_step (o : outcome) (pc : commit_pc) (kv : store)
    : commit_pc * store :=
  match pc with
  | CommitRead key newOffset rest =>
      match callReadInt o kv (committedOffsetKey key) with
      | inr oldCommittedOffset => (CommitCas key newOffset oldCommittedOffset rest, kv)
      | inl err =>
          if isKeyDoesNotExist err then (CommitCas key newOffset 0 rest, kv)
          else (CommitErr err, kv)
      end
  | CommitCas key newOffset oldCommittedOffset rest =>
      match callCompareAndSwap o kv (committedOffsetKey key) oldCommittedOffset
              (Z.max oldCommittedOffset newOffset) true with
      | (None, kv') => (commit_next rest, kv')
      | (Some _, kv') => (CommitRead key newOffset rest, kv')
      end
  | CommitOk | CommitErr _ => (pc, kv)
  end.

(** One client, nothing failing: a read and a swap for each pair. *)
Definition commit_offsets (offsets : list (string * Z)) (kv : store)
    : commit_pc * store :=
  exec commit_step (repeat Served (2 * length offsets)) (commit_next offsets) kv.

(** A client that issues the requests [reqs] one after the other. *)
Fixpoint commits (reqs : list (list (string * Z))) (kv : store)
    : list commit_pc * store :=
  match reqs with
  | [] => ([], kv)
  | req :: rest =>
      let '(pc, kv') := commit_offsets req kv in
      let '(pcs, kv'') := commits rest kv' in
      (pc :: pcs, kv'')
  end.

(** *** poll

    [read] is what the substrate answers for a key during this request;
    the request's map is the list of its pairs in the order of [range].
    An entry is read with [kv.Read] and kept when it is an [int], which
    every value of the store is.  The inner loop counts [i] upwards with
    Go's [i++]; [fuel] bounds the number of iterations the model follows. *)
Fixpoint poll_scan (fuel : nat) (read : string -> error + Z) (key : string)
    (i highestOffset count : Z) (logMessages : list (list Z))
    : option (list (list Z)) :=
  match fuel with
  | O => None
  | S fuel' =>
      if i <=? highestOffset then
        match read (logEntryKey key i) with
        | inr msg =>
            if count + 1 =? 3 then Some (logMessages ++ [[i; msg]])
            else poll_scan fuel' read key (GoInt.add i 1) highestOffset
                   (count + 1) (logMessages ++ [[i; msg]])
        | inl _ =>
            poll_scan fuel' read key (GoInt.add i 1) highestOffset count logMessages
        end
      else Some logMessages
  end.

Definition poll_key (fuel : nat) (read : string -> error + Z) (key : string)
    (startOffset : Z) : option (list (list Z)) :=
  match read (offsetKey key) with
  | inr highestOffset => poll_scan fuel read key startOffset highestOffset 0 []
  | inl _ => Some []
  end.

Fixpoint poll_loop (fuel : nat) (read : string -> error + Z)
    (offsets : list (string * Z)) (messages : gmap string (list (list Z)))
    : option (gmap string (list (list Z))) :=
  match offsets with
  | [] => Some messages
  | (key, startOffset) :: rest =>
      match poll_key fuel read key startOffset with
      | Some logMessages => poll_loop fuel read rest (<[key := logMessages]> messages)
      | None => None
      end
  end.

(** The [msgs] field of the poll_ok reply. *)
Definition poll (fuel : nat) (kv : store) (offsets : list (string * Z))
    : option (gmap string (list (list Z))) :=
  poll_loop fuel (ReadInt kv) offsets ∅.

(** *** list_committed_offsets *)
Fixpoint list_loop (read : string -> error + Z) (keys : list string)
    (offsets : gmap string Z) : gmap string Z :=
  match keys with
  | [] => offsets
  | key :: rest =>
      match read (committedOffsetKey key) with
      | inr committedOffset => list_loop read rest (<[key := committedOffset]> offsets)
      | inl _ => list_loop read rest offsets
      end
  end.

(** The [offsets] field of the list_committed_offsets_ok reply. *)
Definition list_committed_offsets (kv : store) (keys : list string) : gmap string Z :=
  list_loop (ReadInt kv) keys ∅.

(** *** Concurrent requests

    Each request is handled as its own task; the substrate calls of
    different tasks interleave in any order.  A task is a request at one
    of its control points; the tasks of poll and list requests only read
    and are left where they are.  An event names the task that makes its
    next call and what the environment does with it. *)
Inductive task : Type :=
| SendTask (key : string) (msg : Z) (pc : send_pc)
| CommitTask (offsets : list (string * Z)) (pc : commit_pc)
| ReadTask (r : request).

Definition spawn (r : request) : task :=
  match r with
  | Send key msg => SendTask key msg SendRead
  | CommitOffsets offsets => CommitTask offsets (commit_next offsets)
  | Poll _ | ListCommittedOffsets _ => ReadTask r
  end.

Definition task_step (o : outcome) (t : task) (kv : store) : task * store :=
  match t with
  | SendTask key msg pc =>
      let '(pc', kv') := send_step key msg o pc kv in (SendTask key msg pc', kv')
  | CommitTask offsets pc =>
      let '(pc', kv') := commit_step o pc kv in (CommitTask offsets pc', kv')
  | ReadTask _ => (t, kv)
  end.

Definition sys_step (ev : nat * outcome) (sys : store * list task)
    : store * list task :=
  match sys.2 !! ev.1 with
  | Some t =>
      let '(t', kv') := task_step ev.2 t sys.1 in (kv', <[ev.1 := t']> sys.2)
  | None => sys
  end.

Definition run (evs : list (nat * outcome)) (sys : store * list task)
    : store * list task :=
  fold_left (λ s ev, sys_step ev s) evs sys.

(** The control point of a task that sends to [key]. *)
Definition send_pc_on (key : string) (t : task) : option send_pc :=
  match t with
  | SendTask key' _ pc => if decide (key' = key) then Some pc else None
  | _ => None
  end.

(** Offsets of [key] sent back to callers, and offsets taken from its
    marker. *)
Definition replied_of (key : string) (t : task) : option Z :=
  match send_pc_on key t with
  | Some (SendOk offset) => Some offset
  | _ => None
  end.

Definition claimed_of (key : string) (t : task) : option Z :=
  match send_pc_on key t with
  | Some (SendWrite offset) | Some (SendOk offset)
  | Some (SendWriteErr offset _) => Some offset
  | _ => None
  end.

Definition replied (key : string) (ts : list task) : list Z := omap (replied_of key) ts.
Definition claimed (key : string) (ts : list task) : list Z := omap (claimed_of key) ts.

(** The number of sends to [key] among the tasks. *)
Definition sends_to (key : string) (ts : list task) : nat :=
  length (omap (send_pc_on key) ts).

(** Every send to [key] has replied send_ok; every task has ended. *)
Definition sends_ok (key : string) (ts : list task) : bool :=
  forallb (λ t, match send_pc_on key t with
                | Some (SendOk _) | None => true
                | _ => false
                end) ts.

Definition finished (t : task) : bool :=
  match t with
  | SendTask _ _ (SendOk _) | SendTask _ _ (SendReadErr _)
  | SendTask _ _ (SendWriteErr _ _) => true
  | CommitTask _ CommitOk | CommitTask _ (CommitErr _) => true
  | ReadTask _ => true
  | _ => false
  end.

Definition all_finished (ts : list task) : bool := forallb finished ts.




End Distributed.

(** ** The in-memory variant (src/unnamed/part_002)

    Every handler holds the mutex from its first line to its return, so
    a handler is one atomic transition of the map of logs. *)

Module SingleNode.

Record LogEntry : Type := { Offset : Z; Message : Z }.

Record Log : Type := { CommittedOffset : Z; LogEntries : list LogEntry }.

Abbreviation logs := (gmap string Log).

(** [None] is the run-time panic of indexing an empty slice. *)
Definition send (key : string) (msg : Z) (st : logs) : option (Z * logs) :=
  match st !! key with
  | Some log =>
      match last (LogEntries log) with
      | Some prev =>
          let offset := GoInt.add (Offset prev) 1 in
          Some (offset,
                <[key := {| CommittedOffset := CommittedOffset log;
                            LogEntries := LogEntries log ++
                              [{| Offset := offset; Message := msg |}] |}]> st)
      | None => None
      end
  | None =>
      let offset := GoInt.mul (GoInt.add (Z.of_nat (size st)) 1) 1000 in
      Some (offset,
            <[key := {| CommittedOffset := offset;
                        LogEntries := [{| Offset := offset; Message := msg |}] |}]> st)
  end.

Fixpoint sends (key : string) (msgs : list Z) (st : logs)
    : option (list Z * logs) :=
  match msgs with
  | [] => Some ([], st)
  | msg :: rest =>
      match send key msg st with
      | Some (offset, st') =>
          match sends key rest st' with
          | Some (offsets, st'') => Some (offset :: offsets, st'')
          | None => None
          end
      | None => None
      end
  end.

Fixpoint poll_entries (entries : list LogEntry) (offset count : Z)
    (logMessages : list (list Z)) : list (list Z) :=
  match entries with
  | [] => logMessages
  | entry :: rest =>
      if Offset entry >=? offset then
        if count + 1 =? 3 then logMessages ++ [[Offset entry; Message entry]]
        else poll_entries rest offset (count + 1)
               (logMessages ++ [[Offset entry; Message entry]])
      else poll_entries rest offset count logMessages
  end.

Definition poll_key (st : logs) (key : string) (offset : Z) : list (list Z) :=
  match st !! key with
  | Some log => poll_entries (LogEntries log) offset 0 []
  | None => []
  end.

Fixpoint poll_loop (st : logs) (offsets : list (string * Z))
    (messages : gmap string (list (list Z))) : gmap string (list (list Z)) :=
  match offsets with
  | [] => messages
  | (key, offset) :: rest =>
      poll_loop st rest (<[key := poll_key st key offset]> messages)
  end.

Definition poll (st : logs) (offsets : list (string * Z))
    : gmap string (list (list Z)) :=
  poll_loop st offsets ∅.

Fixpoint commit_offsets (offsets : list (string * Z)) (st : logs) : logs :=
  match offsets with
  | [] => st
  | (key, offset) :: rest =>
      match st !! key with
      | Some log =>
          commit_offsets rest
            (<[key := {| CommittedOffset := Z.max (CommittedOffset log) offset;
                         LogEntries := LogEntries log |}]> st)
      | None => commit_offsets rest st
      end
  end.

Fixpoint list_loop (st : logs) (keys : list string) (offsets : gmap string Z)
    : gmap string Z :=
  match keys with
  | [] => offsets
  | key :: rest =>
      match st !! key with
      | Some log => list_loop st rest (<[key := CommittedOffset log]> offsets)
      | None => list_loop st rest offsets
      end
  end.

Definition list_committed_offsets (st : logs) (keys : list string) : gmap string Z :=
  list_loop st keys ∅.

Definition commits (reqs : list (list (string * Z))) (st : logs) : logs :=
  fold_left (λ st' req, commit_offsets req st') reqs st.

End SingleNode.

(** ** The first in-memory program (src/unnamed/part_003)

    No mutex and no commits.  [send] appends to a local copy of the slice
    header, so the map keeps the log it had; [poll] stops at two entries
    and starts from a nil slice. *)

Module SingleNodeDraft.

Record LogEntry : Type := { Offset : Z; Message : Z }.

Abbreviation logs := (gmap string (list LogEntry)).

Definition send (key : string) (msg : Z) (st : logs) : option (Z * logs) :=
  match st !! key with
  | Some entries =>
      match last entries with
      | Some prev => Some (GoInt.add (Offset prev) 1, st)
      | None => None
      end
  | None =>
      let offset := GoInt.mul (GoInt.add (Z.of_nat (size st)) 1) 1000 in
      Some (offset, <[key := [{| Offset := offset; Message := msg |}]]> st)
  end.

Fixpoint poll_entries (entries : list LogEntry) (offset count : Z)
    (logMessages : slice (list Z)) : slice (list Z) :=
  match entries with
  | [] => logMessages
  | entry :: rest =>
      if Offset entry >=? offset then
        if count + 1 =? 2 then append logMessages [Offset entry; Message entry]
        else poll_entries rest offset (count + 1)
               (append logMessages [Offset entry; Message entry])
      else poll_entries rest offset count logMessages
  end.

Definition poll_key (st : logs) (key : string) (offset : Z) : slice (list Z) :=
  match st !! key with
  | Some entries => poll_entries entries offset 0 NilSlice
  | None => NilSlice
  end.

Fixpoint poll_loop (st : logs) (offsets : list (string * Z))
    (messages : gmap string (slice (list Z))) : gmap string (slice (list Z)) :=
  match offsets with
  | [] => messages
  | (key, offset) :: rest =>
      poll_loop st rest (<[key := poll_key st key offset]> messages)
  end.

Definition poll (st : logs) (offsets : list (string * Z))
    : gmap string (slice (list Z)) :=
  poll_loop st offsets ∅.

End SingleNodeDraft.

(** ** Vocabulary of the properties *)

(** The offset of a reply entry [[offset, message]]. *)
Definition entry_offset (entry : list Z) : Z := hd 0 entry.

(** Entries are listed in ascending offset order. *)
Definition ascending (entries : list (list Z)) : Prop :=
  StronglySorted Z.lt (entry_offset <$> entries).

(** Every offset between two offsets of the list is in the list. *)
Definition gap_free (offsets : list Z) : Prop :=
  ∀ a b o, a ∈ offsets → b ∈ offsets → a <= o <= b → o ∈ offsets.

(** The entries that the substrate holds for the offsets [first], ...,
    [first + n - 1] of a log, in that order. *)
Definition entry_at (read : string → error + Z) (key : string) (offset : Z)
    : option (list Z) :=
  match read (Distributed.logEntryKey key offset) with
  | inr msg => Some [offset; msg]
  | inl _ => None
  end.

Definition entries_from (read : string → error + Z) (key : string)
    (first n : Z) : list (list Z) :=
  omap (entry_at read key) (seqZ first n).

(** The entries of an in-memory log at or above [offset], as reply pairs. *)
Definition entries_above (entries : list SingleNode.LogEntry) (offset : Z)
    : list (list Z) :=
  (λ e, [SingleNode.Offset e; SingleNode.Message e]) <$>
    filter (λ e, offset <= SingleNode.Offset e) entries.

(** The offsets of an in-memory log go up strictly. *)
Definition sorted_log (log : SingleNode.Log) : Prop :=
  StronglySorted Z.lt (SingleNode.Offset <$> SingleNode.LogEntries log).

(** The value the allocation loop of [send] reads for a key: the marker,
    or -1 when there is none. *)
Definition highest (key : string) (kv : gmap string Z) : Z :=
  default (-1) (kv !! Distributed.offsetKey key).

(** The offsets that a sequence of commit requests carries for [key]. *)
Definition offsets_for (key : string) (req : list (string * Z)) : list Z :=
  omap (λ p, if decide (p.1 = key) then Some p.2 else None) req.


(** What one pair of a commit request does to the store when nothing
    interferes. *)
Definition commit_apply (kv : gmap string Z) (p : string * Z) : gmap string Z :=
  <[Distributed.committedOffsetKey p.1 :=
      Z.max (default 0 (kv !! Distributed.committedOffsetKey p.1)) p.2]> kv.

(** ** Histories of requests *)

(** The store of the distributed variant after a request whose substrate
    calls had the outcomes [os] (the request need not have finished).
    Polling and listing only read. *)
Definition store_after (r : request) (os : list LinKV.outcome)
    (kv : gmap string Z) : gmap string Z :=
  match r with
  | Send key msg => (exec (Distributed.send_step key msg) os Distributed.SendRead kv).2
  | CommitOffsets offsets =>
      (exec Distributed.commit_step os (Distributed.commit_next offsets) kv).2
  | Poll _ | ListCommittedOffsets _ => kv
  end.

Definition store_after_all (history : list (request * list LinKV.outcome))
    (kv : gmap string Z) : gmap string Z :=
  fold_left (λ kv' ro, store_after ro.1 ro.2 kv') history kv.

(** Requests of a client of the in-memory variant and the map of logs
    after them; a send that panics leaves the map as it was. *)
Definition logs_after (r : request) (st : gmap string SingleNode.Log)
    : gmap string SingleNode.Log :=
  match r with
  | Send key msg => default st (snd <$> SingleNode.send key msg st)
  | CommitOffsets offsets => SingleNode.commit_offsets offsets st
  | Poll _ | ListCommittedOffsets _ => st
  end.

Definition logs_after_all (history : list request)
    (st : gmap string SingleNode.Log) : gmap string SingleNode.Log :=
  fold_left (λ st' r, logs_after r st') history st.

(** The request commits an offset for [key]. *)
Definition commits_key (key : string) (r : request) : Prop :=
  match r with
  | CommitOffsets offsets => key ∈ offsets.*1
  | _ => False
  end.

Definition sends_key (key : string) (r : request) : Prop :=
  match r with
  | Send key' _ => key' = key
  | _ => False
  end.

(** The offsets that the commit requests of a history carry for [key]. *)
Definition committed_by (key : string) (r : request) : list Z :=
  match r with
  | CommitOffsets offsets => offsets_for key offsets
  | _ => []
  end.

Definition committed_in (key : string) (history : list request) : list Z :=
  concat (committed_by key <$> history).


(** ** Invariants *)

(** The invariant of the sends on [key] among concurrent requests that
    started when the marker read [base]: the offsets taken so far are
    exactly those from [base + 1] up to the marker, each taken by one
    task, and a task that is about to swap while there is no marker has
    read not-found. *)
Definition send_inv (key : string) (base : Z)
    (sys : gmap string Z * list Distributed.task) : Prop :=
  Distributed.claimed key sys.2 ≡ₚ seqZ (base + 1) (highest key sys.1 - base)
  ∧ base <= highest key sys.1
  ∧ (sys.1 !! Distributed.offsetKey key = None →
     ∀ t oldOffset,
       t ∈ sys.2 →
       Distributed.send_pc_on key t = Some (Distributed.SendCas oldOffset) →
       oldOffset = -1).

(** The pairs a commit request still has to go through at a control point. *)
Definition commit_todo (pc : Distributed.commit_pc) : list (string * Z) :=
  match pc with
  | Distributed.CommitRead key newOffset rest
  | Distributed.CommitCas key newOffset _ rest => (key, newOffset) :: rest
  | _ => []
  end.





(** The entry written for [offset] of [key] is in the store and the
    marker of [key] has not gone below [offset] nor above [bound]. *)
Definition entry_kept (key : string) (offset msg bound : Z)
    (kv : gmap string Z) : Prop :=
  kv !! Distributed.logEntryKey key offset = Some msg
  ∧ ∃ h, kv !! Distributed.offsetKey key = Some h ∧ offset <= h <= bound.

(** The same while a send for [key'] is under way: once that send has
    taken an offset, the marker may be one higher, and the offset taken
    is a later one if the send is for [key]. *)
Definition entry_kept_at (key : string) (offset msg bound : Z) (key' : string)
    (pc : Distributed.send_pc) (kv : gmap string Z) : Prop :=
  kv !! Distributed.logEntryKey key offset = Some msg
  ∧ ∃ h, kv !! Distributed.offsetKey key = Some h ∧ offset <= h
         ∧ match pc with
           | Distributed.SendWrite off | Distributed.SendOk off
           | Distributed.SendWriteErr off _ =>
               h <= bound + 1 ∧ (key' = key → offset < off)
           | _ => h <= bound
           end.

(** A swap that would create the marker was prepared by a read that did
    not find it. *)
Definition commit_pc_ok (pc : Distributed.commit_pc) (kv : gmap string Z) : Prop :=
  match pc with
  | Distributed.CommitCas key _ oldCommittedOffset _ =>
      kv !! Distributed.committedOffsetKey key = None → oldCommittedOffset = 0
  | _ => True
  end.

(** The keys a commit request still has to go through at a control point. *)
Definition commit_keys (pc : Distributed.commit_pc) : list string :=
  match pc with
  | Distributed.CommitRead key _ rest | Distributed.CommitCas key _ _ rest =>
      key :: rest.*1
  | _ => []
  end.

(** A decimal digit. *)
Definition is_digit (c : Ascii.ascii) : bool :=
  ((48 <=? Ascii.nat_of_ascii c) && (Ascii.nat_of_ascii c <=? 57))%nat.

(** ** One request on its own *)

(** What a send that started in the store [kv] has made of it when it is
    at the control point [pc], no other request having run meanwhile: a
    send that has not swapped yet has changed nothing, one that has
    swapped has raised the marker by one, and one that has replied has
    also written its entry. *)
Definition send_effect (key : string) (msg : Z) (kv : gmap string Z)
    (pc : Distributed.send_pc) (kv' : gmap string Z) : Prop :=
  match pc with
  | Distributed.SendRead | Distributed.SendReadErr _ => kv' = kv
  | Distributed.SendCas oldOffset =>
      kv' = kv ∧ (kv !! Distributed.offsetKey key = None → oldOffset = -1)
  | Distributed.SendWrite offset | Distributed.SendWriteErr offset _ =>
      offset = GoInt.add (highest key kv) 1
      ∧ kv' = <[Distributed.offsetKey key := offset]> kv
  | Distributed.SendOk offset =>
      offset = GoInt.add (highest key kv) 1
      ∧ kv' = <[Distributed.logEntryKey key offset := msg]>
                (<[Distributed.offsetKey key := offset]> kv)
  end.

(** The same for a commit request of the pairs [offsets]: the pairs
    before those it still has to go through are merged, one after the
    other; a request that returned the error of a read stopped at a pair
    and left the pairs from that one on unmerged. *)
Definition commit_effect (offsets : list (string * Z)) (kv : gmap string Z)
    (pc : Distributed.commit_pc) (kv' : gmap string Z) : Prop :=
  match pc with
  | Distributed.CommitErr e =>
      isKeyDoesNotExist e = false
      ∧ ∃ done key newOffset rest,
          offsets = done ++ (key, newOffset) :: rest
          ∧ kv' = fold_left commit_apply done kv
  | _ =>
      (∃ done,
         offsets = done ++ commit_todo pc
         ∧ kv' = fold_left commit_apply done kv)
      ∧ commit_pc_ok pc kv'
  end.

(** Every entry of the store lies at an offset from 0 up to the marker of
    its key, and no marker has reached [bound]. *)
Definition entries_below_marker (bound : Z) (kv : gmap string Z) : Prop :=
  (∀ key offset msg,
     kv !! Distributed.logEntryKey key offset = Some msg →
     ∃ h, kv !! Distributed.offsetKey key = Some h ∧ 0 <= offset <= h)
  ∧ ∀ key h, kv !! Distributed.offsetKey key = Some h → 0 <= h < bound.

(** The offsets of a log of the in-memory variant go up by one in Go's
    integers from entry to entry, and the committed offset of the log is
    not below the offset of its first entry. *)
Definition log_consecutive (log : SingleNode.Log) : Prop :=
  (∀ i e e',
     SingleNode.LogEntries log !! i = Some e →
     SingleNode.LogEntries log !! S i = Some e' →
     SingleNode.Offset e' = GoInt.add (SingleNode.Offset e) 1)
  ∧ ∃ e0, head (SingleNode.LogEntries log) = Some e0
          ∧ SingleNode.Offset e0 <= SingleNode.CommittedOffset log.

(** ** Requests whose calls fail *)

(** The control points at which the sends to [key] of a history ended,
    in the order of the history; each request starts in the store that
    the requests before it left. *)
Fixpoint send_exits (key : string) (history : list (request * list LinKV.outcome))
    (kv : gmap string Z) : list Distributed.send_pc :=
  match history with
  | [] => []
  | (r, os) :: rest =>
      match r with
      | Send key' msg =>
          if decide (key' = key)
          then [(exec (Distributed.send_step key' msg) os Distributed.SendRead kv).1]
          else []
      | _ => []
      end ++ send_exits key rest (store_after r os kv)
  end.

(** The offset that a send replied, and the offset that it took from the
    marker, whether or not it went on to reply. *)
Definition exit_replied (pc : Distributed.send_pc) : option Z :=
  match pc with
  | Distributed.SendOk offset => Some offset
  | _ => None
  end.

Definition exit_taken (pc : Distributed.send_pc) : option Z :=
  match pc with
  | Distributed.SendWrite offset | Distributed.SendOk offset
  | Distributed.SendWriteErr offset _ => Some offset
  | _ => None
  end.

(** The poll handler of the distributed variant when the environment
    answers or fails its reads: [env] gives the outcome of the read of
    each key of the store, which a poll reads once. *)
Definition poll_calls (fuel : nat) (env : string → LinKV.outcome)
    (kv : gmap string Z) (offsets : list (string * Z))
    : option (gmap string (list (list Z))) :=
  Distributed.poll_loop fuel (λ k, LinKV.callReadInt (env k) kv k) offsets ∅.

(** The loop of the list_committed_offsets handler of the distributed
    variant over the requested keys, each with the outcome of its read. *)
Fixpoint list_calls (kv : gmap string Z) (calls : list (string * LinKV.outcome))
    (offsets : gmap string Z) : gmap string Z :=
  match calls with
  | [] => offsets
  | (key, o) :: rest =>
      match LinKV.callReadInt o kv (Distributed.committedOffsetKey key) with
      | inr committedOffset => list_calls kv rest (<[key := committedOffset]> offsets)
      | inl _ => list_calls kv rest offsets
      end
  end.

(** One of the reads of [key] among the calls of a list request was
    answered. *)
Definition answered (key : string) (calls : list (string * LinKV.outcome)) : bool :=
  existsb (λ c : string * LinKV.outcome,
             bool_decide (c.1 = key)
             && match c.2 with
                | LinKV.Served => true
                | LinKV.Fails _ => false
                end) calls.

(** The logs of the in-memory variant after at most [n] requests from
    the empty map: at most [n] logs, each in ascending order with offsets
    from 0 to [1001 * n]. *)
Definition logs_bounded (n : Z) (st : gmap string SingleNode.Log) : Prop :=
  Z.of_nat (size st) <= n
  ∧ ∀ key log,
      st !! key = Some log →
      sorted_log log
      ∧ ∀ e, e ∈ SingleNode.LogEntries log → 0 <= SingleNode.Offset e <= 1001 * n.

(** ** Clients of the in-memory programs *)

(** A client of the first in-memory program (src/unnamed/part_003) that
    sends the pairs [reqs], key and message, one after the other; a send
    that panics ends the program. *)
Fixpoint draft_sends (reqs : list (string * Z))
    (st : gmap string (list SingleNodeDraft.LogEntry))
    : option (list Z * gmap string (list SingleNodeDraft.LogEntry)) :=
  match reqs with
  | [] => Some ([], st)
  | (key, msg) :: rest =>
      match SingleNodeDraft.send key msg st with
      | Some (offset, st') =>
          match draft_sends rest st' with
          | Some (offsets, st'') => Some (offset :: offsets, st'')
          | None => None
          end
      | None => None
      end
  end.

(** The message of the first pair of [reqs] for [key]. *)
Definition first_msg (key : string) (reqs : list (string * Z)) : option Z :=
  head (omap (λ r : string * Z, if decide (r.1 = key) then Some r.2 else None) reqs).

(** The keys that the requests of a history send to. *)
Definition sent_keys (history : list request) : gset string :=
  list_to_set (omap (λ r, match r with
                          | Send key _ => Some key
                          | _ => None
                          end) history).

(** No log of the map is empty. *)
Definition logs_nonempty (st : gmap string SingleNode.Log) : Prop :=
  ∀ key log, st !! key = Some log → SingleNode.LogEntries log ≠ [].

(** ** The transaction store (src/unnamed/part_004, second program)

    The handler of [txn] requests holds the mutex from its first line to
    its return, so it is one atomic transition of the map [store.kv].
    [encoding/json] decodes the operations into [[][]any]: every JSON
    number becomes a [float64].  The handler only converts these numbers
    with [int(f)]; the type and the conversion are parameters of the
    model. *)

Module Txn.

(** The dynamic values of [any]: what the decoder produces, and the
    [int] that the handler stores into an operation. *)
#[local] Unset Elimination Schemes.
Inductive any (float64 : Type) : Type :=
| ANil
| ABool (b : bool)
| AFloat64 (f : float64)
| AString (s : string)
| AArray (l : list (any float64))
| AObject (m : list (string * any float64))
| AInt (i : Z).
#[local] Set Elimination Schemes.
Arguments ANil {float64}.
Arguments ABool {float64} b.
Arguments AFloat64 {float64} f.
Arguments AString {float64} s.
Arguments AArray {float64} l.
Arguments AObject {float64} m.
Arguments AInt {float64} i.

Section Handler.
Context {float64 : Type} (int : float64 → Z).

(** The comparison [txn[0] == "r"] of an interface value with a string. *)
Definition is_string (a : any float64) (s : string) : bool :=
  match a with
  | AString s' => bool_decide (s' = s)
  | _ => false
  end.

(** One iteration of the loop over [body.Transaction].  The outer
    [None] is the run-time panic of an index out of range; the inner
    option is the operation appended to [transactionResult], if any. *)
Definition txn_op (txn : list (any float64)) (kv : gmap Z Z)
    : option (option (list (any float64)) * gmap Z Z) :=
  match txn !! 1%nat with
  | None => None
  | Some (AFloat64 f) =>
      let lookupKey := int f in
      match txn !! 0%nat with
      | None => None
      | Some op =>
          if is_string op "r" then
            match kv !! lookupKey with
            | Some val =>
                match txn !! 2%nat with
                | Some _ => Some (Some (<[2%nat := AInt val]> txn), kv)
                | None => None
                end
            | None => Some (Some txn, kv)
            end
          else if is_string op "w" then
            match txn !! 2%nat with
            | Some (AFloat64 f') => Some (Some txn, <[lookupKey := int f']> kv)
            | Some _ => Some (Some txn, kv)
            | None => None
            end
          else Some (Some txn, kv)
      end
  | Some _ => Some (None, kv)
  end.

Fixpoint txn_loop (Transaction : list (list (any float64)))
    (transactionResult : list (list (any float64))) (kv : gmap Z Z)
    : option (list (list (any float64)) * gmap Z Z) :=
  match Transaction with
  | [] => Some (transactionResult, kv)
  | txn :: rest =>
      match txn_op txn kv with
      | Some (Some txn', kv') => txn_loop rest (transactionResult ++ [txn']) kv'
      | Some (None, kv') => txn_loop rest transactionResult kv'
      | None => None
      end
  end.

(** The [txn] field of the txn_ok reply and the store after the
    request. *)
Definition txn (Transaction : list (list (any float64))) (kv : gmap Z Z)
    : option (list (list (any float64)) * gmap Z Z) :=
  txn_loop Transaction [] kv.

(** The operation has a number where its key is expected. *)
Definition keyed (txn : list (any float64)) : bool :=
  match txn !! 1%nat with
  | Some (AFloat64 _) => true
  | _ => false
  end.

(** The key and the value that an operation writes, if it is a write of
    a number under a number. *)
Definition write_of (txn : list (any float64)) : option (Z * Z) :=
  match txn with
  | op :: AFloat64 f :: AFloat64 f' :: _ =>
      if is_string op "w" then Some (int f, int f') else None
  | _ => None
  end.

Definition writes (Transaction : list (list (any float64))) : list (Z * Z) :=
  omap write_of Transaction.

(** The store after the writes [ws], the later ones over the earlier. *)
Definition apply_writes (ws : list (Z * Z)) (kv : gmap Z Z) : gmap Z Z :=
  fold_left (λ m (w : Z * Z), <[w.1 := w.2]> m) ws kv.

End Handler.

End Txn.

(** * Properties *)

(** ** Go integers *)

Lemma wrap_in_range z : GoInt.in_range z → GoInt.wrap z = z.
Proof.
  unfold GoInt.in_range, GoInt.int_min, GoInt.int_max, GoInt.wrap. intros H.
  rewrite Z.mod_small; lia.
Qed.

Lemma add_1_no_overflow z :
  GoInt.int_min - 1 <= z < GoInt.int_max → GoInt.add z 1 = z + 1.
Proof.
  intros H. unfold GoInt.add. apply wrap_in_range.
  unfold GoInt.in_range in *. lia.
Qed.

(** ** Keys of the substrate *)

Lemma string_app_inv_head (p a b : string) : p +:+ a = p +:+ b → a = b.
Proof. induction p as [|c p IH]; simpl; [done|]. intros [= H]. auto. Qed.

Lemma list_ascii_of_string_app (a b : string) :
  String.list_ascii_of_string (a +:+ b) =
    String.list_ascii_of_string a ++ String.list_ascii_of_string b.
Proof. induction a as [|c a IH]; simpl; [done | by f_equal]. Qed.

Lemma string_app_inv_tail (a b s : string) : a +:+ s = b +:+ s → a = b.
Proof.
  intros H. apply (f_equal String.list_ascii_of_string) in H.
  rewrite !list_ascii_of_string_app in H. apply app_inv_tail in H.
  apply (f_equal String.string_of_list_ascii) in H.
  by rewrite !String.string_of_list_ascii_of_string in H.
Qed.

Lemma committedOffsetKey_inj k k' :
  Distributed.committedOffsetKey k = Distributed.committedOffsetKey k' → k = k'.
Proof. apply string_app_inv_tail. Qed.

Lemma offsetKey_inj k k' :
  Distributed.offsetKey k = Distributed.offsetKey k' → k = k'.
Proof. apply string_app_inv_tail. Qed.

Lemma offsetKey_ne_logEntryKey key offset :
  Distributed.offsetKey key ≠ Distributed.logEntryKey key offset.
Proof.
  unfold Distributed.offsetKey, Distributed.logEntryKey. intros H.
  apply string_app_inv_head in H. discriminate H.
Qed.

Lemma logEntryKey_inj key i j :
  Distributed.logEntryKey key i = Distributed.logEntryKey key j → i = j.
Proof.
  unfold Distributed.logEntryKey. intros H.
  apply string_app_inv_head in H. simpl in H.
  apply (string_app_inv_head "/data/") in H.
  by apply (inj pretty) in H.
Qed.

(** The three kinds of keys never meet: the two markers differ in their
    suffix, and an entry key ends in a digit. *)
Lemma offsetKey_ne_committedOffsetKey k k' :
  Distributed.offsetKey k ≠ Distributed.committedOffsetKey k'.
Proof.
  unfold Distributed.offsetKey, Distributed.committedOffsetKey. intros H.
  apply (f_equal String.list_ascii_of_string) in H.
  rewrite !list_ascii_of_string_app in H.
  apply (f_equal (@List.rev _)) in H. rewrite !List.rev_app_distr in H.
  cbn in H. discriminate H.
Qed.

Lemma pretty_N_char_digit x : is_digit (pretty_N_char x) = true.
Proof. unfold pretty_N_char. by repeat case_match. Qed.

Lemma pretty_N_go_last x : ∀ s d,
  last (String.list_ascii_of_string s) = Some d →
  is_digit d = true →
  ∃ d', last (String.list_ascii_of_string (pretty_N_go x s)) = Some d'
        ∧ is_digit d' = true.
Proof.
  induction (N.lt_wf_0 x) as [x _ IH]; intros s d Hs Hd.
  destruct (decide (x = 0)%N) as [->|Hx].
  - rewrite pretty_N_go_0. by exists d.
  - rewrite pretty_N_go_step by lia.
    apply (IH (x `div` 10)%N) with d; [apply N.div_lt; lia | | done].
    cbn [String.list_ascii_of_string].
    destruct (String.list_ascii_of_string s); [done|]. done.
Qed.

Lemma pretty_N_last (x : N) :
  ∃ d, last (String.list_ascii_of_string (pretty x)) = Some d ∧ is_digit d = true.
Proof.
  unfold pretty, pretty_N. case_decide as Hx; [by eexists|].
  rewrite pretty_N_go_step by lia.
  apply pretty_N_go_last with (pretty_N_char (x `mod` 10)); [done|].
  apply pretty_N_char_digit.
Qed.

Lemma pretty_Z_last (z : Z) :
  ∃ d, last (String.list_ascii_of_string (pretty z)) = Some d ∧ is_digit d = true.
Proof.
  destruct z as [|p|p].
  - by eexists.
  - apply (pretty_N_last (N.pos p)).
  - destruct (pretty_N_last (N.pos p)) as (d & Hlast & Hd). exists d. split; [|done].
    change (pretty (Z.neg p)) with ("-" +:+ pretty (N.pos p)).
    by rewrite list_ascii_of_string_app, last_app, Hlast.
Qed.

Lemma logEntryKey_last key offset :
  ∃ d, last (String.list_ascii_of_string (Distributed.logEntryKey key offset)) = Some d
       ∧ is_digit d = true.
Proof.
  destruct (pretty_Z_last offset) as (d & Hlast & Hd). exists d. split; [|done].
  unfold Distributed.logEntryKey. rewrite !list_ascii_of_string_app, !last_app.
  by rewrite Hlast.
Qed.

Lemma logEntryKey_ne_committedOffsetKey k offset k' :
  Distributed.logEntryKey k offset ≠ Distributed.committedOffsetKey k'.
Proof.
  intros H. destruct (logEntryKey_last k offset) as (d & Hlast & Hd).
  rewrite H in Hlast. unfold Distributed.committedOffsetKey in Hlast.
  rewrite list_ascii_of_string_app, last_app in Hlast. cbn in Hlast.
  injection Hlast as <-. discriminate Hd.
Qed.

Lemma logEntryKey_ne_offsetKey k offset k' :
  Distributed.logEntryKey k offset ≠ Distributed.offsetKey k'.
Proof.
  intros H. destruct (logEntryKey_last k offset) as (d & Hlast & Hd).
  rewrite H in Hlast. unfold Distributed.offsetKey in Hlast.
  rewrite list_ascii_of_string_app, last_app in Hlast. cbn in Hlast.
  injection Hlast as <-. discriminate Hd.
Qed.

(** Entry keys of different logs or offsets differ: the decimal form of
    an offset has no slash, so the last slash of an entry key separates
    the log's part from the offset. *)
Lemma pretty_N_char_no_slash x : pretty_N_char x ≠ "/"%char.
Proof. unfold pretty_N_char. by repeat case_match. Qed.

Lemma pretty_N_go_no_slash x : ∀ s,
  "/"%char ∉ String.list_ascii_of_string s →
  "/"%char ∉ String.list_ascii_of_string (pretty_N_go x s).
Proof.
  induction (N.lt_wf_0 x) as [x _ IH]; intros s Hs.
  destruct (decide (x = 0)%N) as [->|Hx]; [by rewrite pretty_N_go_0|].
  rewrite pretty_N_go_step by lia. apply IH; [apply N.div_lt; lia|].
  cbn [String.list_ascii_of_string]. apply not_elem_of_cons. split; [|done].
  apply not_eq_sym, pretty_N_char_no_slash.
Qed.

Lemma pretty_Z_no_slash (z : Z) : "/"%char ∉ String.list_ascii_of_string (pretty z).
Proof.
  assert (HN : ∀ x : N, "/"%char ∉ String.list_ascii_of_string (pretty x)).
  { intros x. unfold pretty, pretty_N. case_decide as Hx.
    - cbn. intros H. apply list_elem_of_singleton in H. discriminate H.
    - apply pretty_N_go_no_slash. cbn. apply not_elem_of_nil. }
  destruct z as [|p|p].
  - cbn. intros H. apply list_elem_of_singleton in H. discriminate H.
  - apply (HN (N.pos p)).
  - change (pretty (Z.neg p)) with ("-" +:+ pretty (N.pos p)).
    rewrite list_ascii_of_string_app. cbn. apply not_elem_of_cons. split; [done|].
    apply (HN (N.pos p)).
Qed.

Lemma app_sep_inj {A} (c : A) (x : list A) : ∀ x' y y',
  c ∉ x → c ∉ x' → x ++ c :: y = x' ++ c :: y' → x = x' ∧ y = y'.
Proof.
  induction x as [|a x IH]; intros [|a' x'] y y' Hx Hx' Heq; cbn in Heq.
  - by injection Heq as ->.
  - injection Heq as <- _. exfalso. apply Hx'. apply list_elem_of_here.
  - injection Heq as -> _. exfalso. apply Hx. apply list_elem_of_here.
  - injection Heq as -> Heq.
    apply not_elem_of_cons in Hx as [_ Hx]. apply not_elem_of_cons in Hx' as [_ Hx'].
    destruct (IH x' y y' Hx Hx' Heq) as [-> ->]. done.
Qed.

Lemma logEntryKey_inj2 k offset k' offset' :
  Distributed.logEntryKey k offset = Distributed.logEntryKey k' offset' →
  k = k' ∧ offset = offset'.
Proof.
  unfold Distributed.logEntryKey. intros H.
  apply (f_equal String.list_ascii_of_string) in H.
  rewrite !list_ascii_of_string_app in H.
  apply (f_equal (@List.rev _)) in H. rewrite !List.rev_app_distr in H.
  cbn [String.list_ascii_of_string List.rev app] in H.
  rewrite <- !app_assoc in H. cbn [app] in H.
  apply app_sep_inj in H as [Hp Hk].
  - apply (f_equal (@List.rev _)) in Hp. rewrite !List.rev_involutive in Hp.
    apply (f_equal String.string_of_list_ascii) in Hp.
    rewrite !String.string_of_list_ascii_of_string in Hp.
    apply (inj pretty) in Hp.
    injection Hk as Hk.
    apply (f_equal (@List.rev _)) in Hk. rewrite !List.rev_involutive in Hk.
    apply (f_equal String.string_of_list_ascii) in Hk.
    rewrite !String.string_of_list_ascii_of_string in Hk. done.
  - rewrite list_elem_of_In, <- List.in_rev, <- list_elem_of_In. apply pretty_Z_no_slash.
  - rewrite list_elem_of_In, <- List.in_rev, <- list_elem_of_In. apply pretty_Z_no_slash.
Qed.

(** ** The distributed variant, one client at a time *)

Section DistributedSequential.
Import LinKV Distributed.

Lemma send_alone key msg (kv : store) :
  GoInt.int_min - 1 <= highest key kv < GoInt.int_max →
  send key msg kv =
    (SendOk (highest key kv + 1),
     <[logEntryKey key (highest key kv + 1) := msg]>
       (<[offsetKey key := highest key kv + 1]> kv)).
Proof.
  unfold highest, send. intros Hb. cbn [exec].
  destruct (kv !! offsetKey key) as [v|] eqn:E; cbn [default] in Hb |- *.
  - unfold send_step at 1. cbn. unfold ReadInt. rewrite E.
    unfold send_step at 1. cbn. unfold CompareAndSwap. rewrite E.
    rewrite decide_True; [|done]. rewrite add_1_no_overflow; done.
  - unfold send_step at 1. cbn. unfold ReadInt. rewrite E. cbn.
    unfold send_step at 1. cbn. unfold CompareAndSwap. rewrite E. cbn.
    done.
Qed.

Lemma highest_after_send key msg (kv : store) :
  GoInt.int_min - 1 <= highest key kv < GoInt.int_max →
  highest key (send key msg kv).2 = highest key kv + 1.
Proof.
  intros Hb. rewrite send_alone; [|done]. cbn [snd]. unfold highest at 1.
  rewrite lookup_insert_ne; [|apply not_eq_sym, offsetKey_ne_logEntryKey].
  by rewrite lookup_insert_eq.
Qed.

Lemma sends_alone key msgs : ∀ kv : store,
  GoInt.int_min - 1 <= highest key kv →
  highest key kv + Z.of_nat (length msgs) <= GoInt.int_max →
  (sends key msgs kv).1 = SendOk <$> seqZ (highest key kv + 1) (Z.of_nat (length msgs))
  ∧ highest key (sends key msgs kv).2 = highest key kv + Z.of_nat (length msgs).
Proof.
  induction msgs as [|msg msgs IH]; intros kv Hlo Hhi.
  - cbn. split; [done | lia].
  - cbn [sends length] in *.
    assert (Hb : GoInt.int_min - 1 <= highest key kv < GoInt.int_max) by lia.
    pose proof (highest_after_send key msg kv Hb) as Hnext.
    pose proof (send_alone key msg kv Hb) as Hsend.
    destruct (send key msg kv) as [pc kv'] eqn:Es. cbn [snd] in Hnext.
    destruct (IH kv') as [IH1 IH2]; [lia | lia |].
    destruct (sends key msgs kv') as [pcs kv''] eqn:Ess. cbn [fst snd] in *.
    inversion Hsend; subst pc. split.
    + rewrite IH1, Hnext.
      replace (Z.of_nat (S (length msgs))) with (Z.succ (Z.of_nat (length msgs))) by lia.
      rewrite (seqZ_cons (highest key kv + 1) (Z.succ _)); [|lia].
      rewrite Z.pred_succ. cbn. repeat f_equal; lia.
    + rewrite IH2, Hnext. lia.
Qed.

End DistributedSequential.

(** ** The in-memory variant *)

Section SingleNodeSends.
Import SingleNode.

Lemma first_offset_no_overflow (n : nat) :
  (Z.of_nat n + 1) * 1000 <= GoInt.int_max →
  GoInt.mul (GoInt.add (Z.of_nat n) 1) 1000 = (Z.of_nat n + 1) * 1000.
Proof.
  intros H. unfold GoInt.mul, GoInt.add.
  rewrite (wrap_in_range (Z.of_nat n + 1)).
  - apply wrap_in_range. unfold GoInt.in_range, GoInt.int_min in *. lia.
  - unfold GoInt.in_range, GoInt.int_min in *. lia.
Qed.

Lemma send_fresh key msg (st : logs) :
  st !! key = None →
  send key msg st =
    let offset := GoInt.mul (GoInt.add (Z.of_nat (size st)) 1) 1000 in
    Some (offset,
          <[key := {| CommittedOffset := offset;
                      LogEntries := [{| Offset := offset; Message := msg |}] |}]> st).
Proof. intros H. unfold send. by rewrite H. Qed.

Lemma send_existing key msg (st : logs) log prev :
  st !! key = Some log →
  last (LogEntries log) = Some prev →
  send key msg st =
    Some (GoInt.add (Offset prev) 1,
          <[key := {| CommittedOffset := CommittedOffset log;
                      LogEntries := LogEntries log ++
                        [{| Offset := GoInt.add (Offset prev) 1; Message := msg |}] |}]> st).
Proof. intros H1 H2. unfold send. by rewrite H1, H2. Qed.

(** Sending appends one entry per message and leaves the committed
    offset of the log alone. *)
Lemma sends_existing key msgs : ∀ (st : logs) log prev,
  st !! key = Some log →
  last (LogEntries log) = Some prev →
  ∃ offsets st' log',
    sends key msgs st = Some (offsets, st') ∧
    length offsets = length msgs ∧
    st' !! key = Some log' ∧
    CommittedOffset log' = CommittedOffset log ∧
    (GoInt.int_min - 1 <= Offset prev →
     Offset prev + Z.of_nat (length msgs) <= GoInt.int_max →
     offsets = seqZ (Offset prev + 1) (Z.of_nat (length msgs)) ∧
     LogEntries log' =
       LogEntries log ++
         zip_with (λ o m, {| Offset := o; Message := m |}) offsets msgs).
Proof.
  induction msgs as [|msg msgs IH]; intros st log prev Hlog Hlast.
  - exists [], st, log. cbn. split_and!; try done.
    intros _ _. by rewrite app_nil_r.
  - cbn [sends]. rewrite (send_existing key msg st log prev Hlog Hlast).
    set (o := GoInt.add (Offset prev) 1).
    set (e := {| Offset := o; Message := msg |}).
    set (log1 := {| CommittedOffset := CommittedOffset log;
                    LogEntries := LogEntries log ++ [e] |}).
    destruct (IH (<[key := log1]> st) log1 e) as (os & st' & log' & Hs & Hlen & Hk & Hc & Hrange).
    { apply lookup_insert_eq. }
    { cbn. apply last_snoc. }
    exists (o :: os), st', log'. rewrite Hs. split_and!; try done.
    { cbn. by rewrite Hlen. }
    intros Hlo Hhi. cbn [length] in Hhi.
    assert (Ho : o = Offset prev + 1).
    { subst o. apply add_1_no_overflow. lia. }
    destruct Hrange as [Hos Hent]; cbn [Offset e]; [lia | lia |].
    split.
    + replace (Z.of_nat (length (msg :: msgs)))
        with (Z.succ (Z.of_nat (length msgs))) by (cbn [length]; lia).
      rewrite seqZ_cons; [|clear; lia]. rewrite Z.pred_succ, Hos. cbn [Offset e].
      rewrite Ho. clear. repeat f_equal; lia.
    + rewrite Hent. cbn [log1 LogEntries zip_with]. by rewrite <- app_assoc.
Qed.

Lemma sends_fresh key msg msgs (st : logs) :
  st !! key = None →
  let first := GoInt.mul (GoInt.add (Z.of_nat (size st)) 1) 1000 in
  ∃ offsets st' log',
    sends key (msg :: msgs) st = Some (first :: offsets, st') ∧
    st' !! key = Some log' ∧
    CommittedOffset log' = first ∧
    ((Z.of_nat (size st) + 1) * 1000 + Z.of_nat (length msgs) <= GoInt.int_max →
     first :: offsets =
       seqZ ((Z.of_nat (size st) + 1) * 1000) (Z.of_nat (length (msg :: msgs)))).
Proof.
  intros Hfresh first. cbn [sends]. rewrite (send_fresh key msg st Hfresh). cbn zeta.
  fold first.
  set (e := {| Offset := first; Message := msg |}).
  set (log1 := {| CommittedOffset := first; LogEntries := [e] |}).
  destruct (sends_existing key msgs (<[key := log1]> st) log1 e)
    as (os & st' & log' & Hs & Hlen & Hk & Hc & Hrange).
  { apply lookup_insert_eq. }
  { done. }
  exists os, st', log'. rewrite Hs. split_and!; try done.
  intros Hhi.
  assert (Hfirst : first = (Z.of_nat (size st) + 1) * 1000).
  { subst first. apply first_offset_no_overflow. lia. }
  destruct Hrange as [Hos _]; cbn [Offset e].
  { unfold GoInt.int_min. lia. }
  { lia. }
  replace (Z.of_nat (length (msg :: msgs)))
    with (Z.succ (Z.of_nat (length msgs))) by (cbn [length]; lia).
  rewrite seqZ_cons; [|clear; lia]. rewrite Z.pred_succ, Hos.
  clearbody first. subst first. clear. repeat f_equal; lia.
Qed.

End SingleNodeSends.

(** ** The end-to-end scenario *)

(** C6, as the code has it: the scenario of the specification is the
    behaviour of the in-memory variant; in the distributed variant the
    same calls allocate the offsets 0 and 1, so a poll from 1000 finds
    nothing and a poll from 0 returns the two entries. *)
Theorem end_to_end_scenario :
  (∃ st1 st2,
     SingleNode.send "x" 10 ∅ = Some (1000, st1) ∧
     SingleNode.send "x" 20 st1 = Some (1001, st2) ∧
     SingleNode.poll st2 [("x", 1000)] = {[ "x" := [[1000; 10]; [1001; 20]] ]} ∧
     SingleNode.list_committed_offsets
       (SingleNode.commit_offsets [("x", 1000)] st2) ["x"] = {[ "x" := 1000 ]})
  ∧ (∃ kv1 kv2 kv3 fuel,
       Distributed.send "x" 10 ∅ = (Distributed.SendOk 0, kv1) ∧
       Distributed.send "x" 20 kv1 = (Distributed.SendOk 1, kv2) ∧
       Distributed.poll fuel kv2 [("x", 1000)] = Some {[ "x" := [] ]} ∧
       Distributed.poll fuel kv2 [("x", 0)] = Some {[ "x" := [[0; 10]; [1; 20]] ]} ∧
       Distributed.commit_offsets [("x", 1000)] kv2 = (Distributed.CommitOk, kv3) ∧
       Distributed.list_committed_offsets kv3 ["x"] = {[ "x" := 1000 ]}).
Proof.
  split.
  - exists (default ∅ (snd <$> SingleNode.send "x" 10 ∅)),
      (default ∅ (snd <$> SingleNode.sends "x" [10; 20] ∅)).
    split_and!; vm_compute; reflexivity.
  - exists (Distributed.send "x" 10 ∅).2, (Distributed.sends "x" [10; 20] ∅).2,
      (Distributed.commit_offsets [("x", 1000)] (Distributed.sends "x" [10; 20] ∅).2).2,
      3%nat.
    split_and!; vm_compute; reflexivity.
Qed.

(** C6, as stated, fails on the distributed variant: the first send on an
    empty store returns offset 0, not 1000. *)
Lemma end_to_end_scenario_distributed_first_offset :
  (Distributed.send "x" 10 ∅).1 = Distributed.SendOk 0
  ∧ (Distributed.send "x" 10 ∅).1 ≠ Distributed.SendOk 1000.
Proof. split; vm_compute; [reflexivity | discriminate]. Qed.

(** ** Errors of the substrate in the retry loops *)

(** C8, as the code has it: in the allocation loop of [send] and in the
    loop of [commit_offsets], an error of the read other than not-found
    ends the request with that error, not-found is absorbed, and the
    swap is tried again after any error it returns, a conflict or not.
    An error of the entry write of [send] ends the request. *)
Theorem retry_loops_on_errors (key : string) (msg newOffset old offset : Z)
    (rest : list (string * Z)) (kv : gmap string Z) (e : error) :
  (isKeyDoesNotExist e = false →
     Distributed.send_step key msg (LinKV.Fails e) Distributed.SendRead kv =
       (Distributed.SendReadErr e, kv)
     ∧ Distributed.commit_step (LinKV.Fails e)
         (Distributed.CommitRead key newOffset rest) kv =
       (Distributed.CommitErr e, kv))
  ∧ (isKeyDoesNotExist e = true →
       Distributed.send_step key msg (LinKV.Fails e) Distributed.SendRead kv =
         (Distributed.SendCas (-1), kv)
       ∧ Distributed.commit_step (LinKV.Fails e)
           (Distributed.CommitRead key newOffset rest) kv =
         (Distributed.CommitCas key newOffset 0 rest, kv))
  ∧ Distributed.send_step key msg (LinKV.Fails e) (Distributed.SendCas old) kv =
      (Distributed.SendRead, kv)
  ∧ Distributed.commit_step (LinKV.Fails e)
      (Distributed.CommitCas key newOffset old rest) kv =
      (Distributed.CommitRead key newOffset rest, kv)
  ∧ (∀ v, kv !! Distributed.offsetKey key = Some v → v ≠ old →
       Distributed.send_step key msg LinKV.Served (Distributed.SendCas old) kv =
         (Distributed.SendRead, kv))
  ∧ (∀ v, kv !! Distributed.committedOffsetKey key = Some v → v ≠ old →
       Distributed.commit_step LinKV.Served
         (Distributed.CommitCas key newOffset old rest) kv =
         (Distributed.CommitRead key newOffset rest, kv))
  ∧ Distributed.send_step key msg (LinKV.Fails e) (Distributed.SendWrite offset) kv =
      (Distributed.SendWriteErr offset e, kv)
  ∧ (∀ o, Distributed.send_step key msg o (Distributed.SendReadErr e) kv =
            (Distributed.SendReadErr e, kv))
  ∧ (∀ o, Distributed.commit_step o (Distributed.CommitErr e) kv =
            (Distributed.CommitErr e, kv)).
Proof.
  split_and!; try done.
  - intros He. cbn. by rewrite He.
  - intros He. cbn. by rewrite He.
  - intros v Hv Hne. cbn. unfold LinKV.CompareAndSwap. rewrite Hv.
    by rewrite decide_False.
  - intros v Hv Hne. cbn. unfold LinKV.CompareAndSwap. rewrite Hv.
    by rewrite decide_False.
Qed.

Lemma retry_loops_on_errors_witness :
  Distributed.send_step "x" 10 (LinKV.Fails OtherError) Distributed.SendRead ∅ =
    (Distributed.SendReadErr OtherError, ∅)
  ∧ Distributed.send_step "x" 10 LinKV.Served (Distributed.SendCas (-1))
      {[ Distributed.offsetKey "x" := 0 ]} =
    (Distributed.SendRead, {[ Distributed.offsetKey "x" := 0 ]}).
Proof.
  destruct (retry_loops_on_errors "x" 10 0 (-1) 0 [] ∅ OtherError)
    as (Hread & _).
  destruct (retry_loops_on_errors "x" 10 0 (-1) 0 []
              {[ Distributed.offsetKey "x" := 0 ]} OtherError)
    as (_ & _ & _ & _ & Hcas & _).
  split.
  - apply Hread. reflexivity.
  - apply (Hcas 0); [reflexivity | discriminate].
Defined.

(** C8, as stated, fails: a swap that fails because the substrate is
    unavailable (neither not-found nor a conflict) is tried again in both
    loops, and the request then succeeds instead of failing. *)
Lemma unavailable_swap_is_retried :
  isKeyDoesNotExist (RPCError TemporarilyUnavailable) = false
  ∧ TemporarilyUnavailable ≠ PreconditionFailed
  ∧ Distributed.send_step "x" 10 (LinKV.Fails (RPCError TemporarilyUnavailable))
      (Distributed.SendCas (-1)) ∅ = (Distributed.SendRead, ∅)
  ∧ (exec (Distributed.send_step "x" 10)
       [LinKV.Served; LinKV.Fails (RPCError TemporarilyUnavailable);
        LinKV.Served; LinKV.Served; LinKV.Served] Distributed.SendRead ∅).1 =
      Distributed.SendOk 0
  ∧ Distributed.commit_step (LinKV.Fails (RPCError TemporarilyUnavailable))
      (Distributed.CommitCas "x" 5 0 []) ∅ = (Distributed.CommitRead "x" 5 [], ∅)
  ∧ (exec Distributed.commit_step
       [LinKV.Served; LinKV.Fails (RPCError TemporarilyUnavailable);
        LinKV.Served; LinKV.Served] (Distributed.commit_next [("x", 5)]) ∅).1 =
      Distributed.CommitOk.
Proof. split_and!; try reflexivity. discriminate. Qed.

(** ** Replies of list_committed_offsets *)

Lemma single_list_loop_lookup (st : gmap string SingleNode.Log) keys :
  ∀ (acc : gmap string Z) key,
    SingleNode.list_loop st keys acc !! key =
      if decide (key ∈ keys) then
        match st !! key with
        | Some log => Some (SingleNode.CommittedOffset log)
        | None => acc !! key
        end
      else acc !! key.
Proof.
  induction keys as [|k keys IH]; intros acc key; cbn [SingleNode.list_loop].
  - rewrite decide_False; [done | apply not_elem_of_nil].
  - destruct (decide (key = k)) as [->|Hne].
    + rewrite (decide_True (P := k ∈ k :: keys)) by apply list_elem_of_here.
      destruct (st !! k) as [log|] eqn:Ek; rewrite IH.
      * rewrite Ek. case_decide; [done | apply lookup_insert_eq].
      * rewrite Ek. by case_decide.
    + assert (Hiff : key ∈ k :: keys ↔ key ∈ keys).
      { rewrite elem_of_cons. split; [intros [?|?]; [contradiction | done] | by right]. }
      destruct (st !! k) as [log|] eqn:Ek; rewrite IH.
      * rewrite lookup_insert_ne by done.
        destruct (decide (key ∈ keys)).
        -- rewrite decide_True; [done | by apply Hiff].
        -- rewrite decide_False; [done | by rewrite Hiff].
      * destruct (decide (key ∈ keys)).
        -- rewrite decide_True; [done | by apply Hiff].
        -- rewrite decide_False; [done | by rewrite Hiff].
Qed.

Lemma single_list_lookup (st : gmap string SingleNode.Log) keys key :
  SingleNode.list_committed_offsets st keys !! key =
    if decide (key ∈ keys) then SingleNode.CommittedOffset <$> st !! key else None.
Proof.
  unfold SingleNode.list_committed_offsets. rewrite single_list_loop_lookup.
  case_decide; [|apply lookup_empty].
  destruct (st !! key); [done | apply lookup_empty].
Qed.

Lemma dist_list_loop_lookup (read : string → error + Z) keys :
  ∀ (acc : gmap string Z) key,
    Distributed.list_loop read keys acc !! key =
      if decide (key ∈ keys) then
        match read (Distributed.committedOffsetKey key) with
        | inr committed => Some committed
        | inl _ => acc !! key
        end
      else acc !! key.
Proof.
  induction keys as [|k keys IH]; intros acc key; cbn [Distributed.list_loop].
  - rewrite decide_False; [done | apply not_elem_of_nil].
  - destruct (decide (key = k)) as [->|Hne].
    + rewrite (decide_True (P := k ∈ k :: keys)) by apply list_elem_of_here.
      destruct (read (Distributed.committedOffsetKey k)) as [e|c] eqn:Ek; rewrite IH.
      * rewrite Ek. by case_decide.
      * rewrite Ek. case_decide; [done | apply lookup_insert_eq].
    + assert (Hiff : key ∈ k :: keys ↔ key ∈ keys).
      { rewrite elem_of_cons. split; [intros [?|?]; [contradiction | done] | by right]. }
      destruct (read (Distributed.committedOffsetKey k)) as [e|c] eqn:Ek; rewrite IH.
      * destruct (decide (key ∈ keys)).
        -- rewrite decide_True; [done | by apply Hiff].
        -- rewrite decide_False; [done | by rewrite Hiff].
      * rewrite lookup_insert_ne by done.
        destruct (decide (key ∈ keys)).
        -- rewrite decide_True; [done | by apply Hiff].
        -- rewrite decide_False; [done | by rewrite Hiff].
Qed.

Lemma dist_list_lookup (kv : gmap string Z) keys key :
  Distributed.list_committed_offsets kv keys !! key =
    if decide (key ∈ keys) then kv !! Distributed.committedOffsetKey key else None.
Proof.
  unfold Distributed.list_committed_offsets. rewrite dist_list_loop_lookup.
  case_decide; [|apply lookup_empty].
  unfold LinKV.ReadInt. destruct (kv !! _); [done | apply lookup_empty].
Qed.

(** ** Polling *)

Section PollDistributed.
Import Distributed.
Variable read : string → error + Z.
Variable key : string.

Lemma poll_scan_length fuel : ∀ i highestOffset count logMessages l,
  Z.of_nat (length logMessages) = count →
  count < 3 →
  poll_scan fuel read key i highestOffset count logMessages = Some l →
  (length l <= 3)%nat.
Proof.
  induction fuel as [|fuel IH]; intros i h count acc l Hlen Hc; cbn [poll_scan]; [done|].
  destruct (i <=? h); [|intros [= <-]; lia].
  destruct (read (logEntryKey key i)) as [e|msg].
  - by apply IH.
  - destruct (count + 1 =? 3) eqn:E.
    + intros [= <-]. rewrite length_app. cbn. lia.
    + apply IH; [rewrite length_app; cbn; lia | lia].
Qed.

(** More fuel does not change a result. *)
Lemma poll_scan_fuel_mono fuel : ∀ fuel' i highestOffset count logMessages l,
  (fuel <= fuel')%nat →
  poll_scan fuel read key i highestOffset count logMessages = Some l →
  poll_scan fuel' read key i highestOffset count logMessages = Some l.
Proof.
  induction fuel as [|fuel IH]; intros fuel' i h count acc l Hle; cbn [poll_scan]; [done|].
  destruct fuel' as [|fuel']; [lia|]. cbn [poll_scan].
  destruct (i <=? h); [|done].
  destruct (read (logEntryKey key i)) as [e|msg].
  - apply IH. lia.
  - destruct (count + 1 =? 3); [done|]. apply IH. lia.
Qed.

(** The scan ends when the marker is below the largest [int]: the
    counter passes the marker before [i++] can wrap around. *)
Lemma poll_scan_terminates fuel : ∀ i highestOffset count logMessages,
  GoInt.int_min <= i →
  highestOffset < GoInt.int_max →
  (Z.to_nat (highestOffset - i + 1) < fuel)%nat →
  is_Some (poll_scan fuel read key i highestOffset count logMessages).
Proof.
  induction fuel as [|fuel IH]; intros i h count acc Hi Hh Hfuel; [lia|].
  cbn [poll_scan]. destruct (i <=? h) eqn:Ei; [|done].
  apply Z.leb_le in Ei.
  assert (Hadd : GoInt.add i 1 = i + 1) by (apply add_1_no_overflow; lia).
  rewrite Hadd.
  destruct (read (logEntryKey key i)) as [e|msg].
  - apply IH; lia.
  - destruct (count + 1 =? 3); [done|]. apply IH; lia.
Qed.

Lemma poll_key_length fuel startOffset l :
  poll_key fuel read key startOffset = Some l → (length l <= 3)%nat.
Proof.
  unfold poll_key. destruct (read (offsetKey key)) as [e|h].
  - intros [= <-]. cbn. lia.
  - by apply poll_scan_length.
Qed.

Lemma poll_key_fuel_mono fuel fuel' startOffset l :
  (fuel <= fuel')%nat →
  poll_key fuel read key startOffset = Some l →
  poll_key fuel' read key startOffset = Some l.
Proof.
  unfold poll_key. intros Hle. destruct (read (offsetKey key)); [done|].
  by apply poll_scan_fuel_mono.
Qed.

Lemma poll_key_terminates startOffset :
  GoInt.int_min <= startOffset →
  (∀ h, read (offsetKey key) = inr h → h < GoInt.int_max) →
  ∃ fuel, is_Some (poll_key fuel read key startOffset).
Proof.
  intros Hs Hh. unfold poll_key.
  destruct (read (offsetKey key)) as [e|h]; [by exists O|].
  exists (S (Z.to_nat (h - startOffset + 1))).
  apply poll_scan_terminates; [done | by apply Hh | lia].
Qed.

End PollDistributed.

Section PollLoopDistributed.
Import Distributed.
Variable read : string → error + Z.

(** An entry of the reply comes from the accumulator or from the scan
    of one of the request's pairs. *)
Lemma poll_loop_lookup fuel offsets : ∀ (acc msgs : gmap string (list (list Z))) key l,
  poll_loop fuel read offsets acc = Some msgs →
  msgs !! key = Some l →
  acc !! key = Some l
  ∨ ∃ startOffset, (key, startOffset) ∈ offsets
                   ∧ poll_key fuel read key startOffset = Some l.
Proof.
  induction offsets as [|[k s] offsets IH]; intros acc msgs key l; cbn [poll_loop].
  - intros [= <-] H. by left.
  - destruct (poll_key fuel read k s) as [lm|] eqn:Ek; [|done].
    intros Hloop Hl. destruct (IH _ _ _ _ Hloop Hl) as [Hacc | (s' & Hin & Hs')].
    + destruct (decide (k = key)) as [->|Hne].
      * rewrite lookup_insert_eq in Hacc. injection Hacc as ->.
        right. exists s. split; [apply list_elem_of_here | done].
      * rewrite lookup_insert_ne in Hacc by done. by left.
    + right. exists s'. split; [by apply list_elem_of_further | done].
Qed.

(** Every key of the request is a key of the reply. *)
Lemma poll_loop_present fuel offsets : ∀ (acc msgs : gmap string (list (list Z))) key,
  poll_loop fuel read offsets acc = Some msgs →
  (is_Some (acc !! key) ∨ ∃ startOffset, (key, startOffset) ∈ offsets) →
  is_Some (msgs !! key).
Proof.
  induction offsets as [|[k s] offsets IH]; intros acc msgs key; cbn [poll_loop].
  - intros [= <-] [H | (s & Hin)]; [done|]. by apply not_elem_of_nil in Hin.
  - destruct (poll_key fuel read k s) as [lm|] eqn:Ek; [|done].
    intros Hloop Hor. apply (IH _ _ _ Hloop).
    destruct (decide (k = key)) as [->|Hne].
    + left. rewrite lookup_insert_eq. by eexists.
    + rewrite lookup_insert_ne by done.
      destruct Hor as [H | (s' & Hin)]; [by left|]. right. exists s'.
      apply elem_of_cons in Hin as [[= ? ?]|Hin]; [congruence | done].
Qed.

Lemma poll_loop_fuel_mono fuel fuel' offsets :
  ∀ (acc msgs : gmap string (list (list Z))),
    (fuel <= fuel')%nat →
    poll_loop fuel read offsets acc = Some msgs →
    poll_loop fuel' read offsets acc = Some msgs.
Proof.
  induction offsets as [|[k s] offsets IH]; intros acc msgs Hle; cbn [poll_loop]; [done|].
  destruct (poll_key fuel read k s) as [lm|] eqn:Ek; [|done].
  rewrite (poll_key_fuel_mono read k fuel fuel' s lm Hle Ek). by apply IH.
Qed.

Lemma poll_loop_terminates offsets :
  (∀ key startOffset, (key, startOffset) ∈ offsets →
     GoInt.int_min <= startOffset
     ∧ ∀ h, read (offsetKey key) = inr h → h < GoInt.int_max) →
  ∃ fuel, ∀ acc : gmap string (list (list Z)),
    is_Some (poll_loop fuel read offsets acc).
Proof.
  induction offsets as [|[k s] offsets IH]; intros Hwf.
  - exists O. intros acc. by eexists.
  - destruct IH as [fuel1 H1].
    { intros key s' Hin. apply Hwf. by apply list_elem_of_further. }
    destruct (Hwf k s (list_elem_of_here _ _)) as [Hs Hh].
    destruct (poll_key_terminates read k s Hs Hh) as [fuel2 [lm H2]].
    exists (fuel1 `max` fuel2)%nat. intros acc. cbn [poll_loop].
    rewrite (poll_key_fuel_mono read k fuel2 _ s lm (Nat.le_max_r _ _) H2).
    destruct (H1 (<[k := lm]> acc)) as [msgs Hmsgs].
    exists msgs. by apply (poll_loop_fuel_mono fuel1 _ _ _ _ (Nat.le_max_l _ _)).
Qed.

End PollLoopDistributed.

(** The loops over the request's pairs of the two in-memory programs have
    the same shape; one script proves the lookup lemma of each. *)
Ltac poll_loop_lookup_script poll_loop :=
  let offsets := fresh "offsets" in
  intros offsets;
  induction offsets as [|[? ?] offsets IH]; intros acc key l; cbn [poll_loop];
  [ intros H; by left
  | intros Hl; destruct (IH _ _ _ Hl) as [Hacc | (s' & Hin & Hs')];
    [ match type of Hacc with
      | <[?k := _]> _ !! _ = _ =>
          destruct (decide (k = key)) as [->|Hne];
          [ rewrite lookup_insert_eq in Hacc; injection Hacc as <-;
            right; eexists; split; [apply list_elem_of_here | done]
          | rewrite lookup_insert_ne in Hacc by done; by left ]
      end
    | right; exists s'; split; [by apply list_elem_of_further | done] ] ].

Ltac poll_loop_present_script poll_loop :=
  let offsets := fresh "offsets" in
  intros offsets;
  induction offsets as [|[k s] offsets IH]; intros acc key; cbn [poll_loop];
  [ intros [H | (s & Hin)]; [done | by apply not_elem_of_nil in Hin]
  | intros Hor; apply IH;
    destruct (decide (k = key)) as [->|Hne];
    [ left; rewrite lookup_insert_eq; by eexists
    | rewrite lookup_insert_ne by done;
      destruct Hor as [H | (s' & Hin)]; [by left|]; right; exists s';
      apply elem_of_cons in Hin as [[= ? ?]|Hin]; [congruence | done] ] ].

Section PollSingleNode.
Import SingleNode.

Lemma single_poll_entries_length entries : ∀ offset count logMessages,
  Z.of_nat (length logMessages) = count →
  count < 3 →
  (length (poll_entries entries offset count logMessages) <= 3)%nat.
Proof.
  induction entries as [|entry entries IH]; intros offset count acc Hlen Hc;
    cbn [poll_entries]; [lia|].
  destruct (Offset entry >=? offset); [|by apply IH].
  destruct (count + 1 =? 3) eqn:E.
  - rewrite length_app. cbn. lia.
  - apply IH; [rewrite length_app; cbn; lia | lia].
Qed.

Lemma single_poll_key_length (st : logs) key offset :
  (length (poll_key st key offset) <= 3)%nat.
Proof.
  unfold poll_key. destruct (st !! key); [|cbn; lia].
  by apply single_poll_entries_length.
Qed.

Lemma single_poll_loop_lookup (st : logs) :
  ∀ offsets (acc : gmap string (list (list Z))) key l,
    poll_loop st offsets acc !! key = Some l →
    acc !! key = Some l
    ∨ ∃ offset, (key, offset) ∈ offsets ∧ poll_key st key offset = l.
Proof. poll_loop_lookup_script poll_loop. Qed.

Lemma single_poll_loop_present (st : logs) :
  ∀ offsets (acc : gmap string (list (list Z))) key,
    (is_Some (acc !! key) ∨ ∃ offset, (key, offset) ∈ offsets) →
    is_Some (poll_loop st offsets acc !! key).
Proof. poll_loop_present_script poll_loop. Qed.

End PollSingleNode.

Section PollSingleNodeDraft.
Import SingleNodeDraft.

Lemma draft_poll_entries_length entries : ∀ offset count logMessages,
  Z.of_nat (length (elems logMessages)) = count →
  count < 2 →
  (length (elems (poll_entries entries offset count logMessages)) <= 2)%nat.
Proof.
  induction entries as [|entry entries IH]; intros offset count acc Hlen Hc;
    cbn [poll_entries]; [lia|].
  destruct (Offset entry >=? offset); [|by apply IH].
  destruct (count + 1 =? 2) eqn:E.
  - cbn. rewrite length_app. cbn. lia.
  - apply IH; [cbn; rewrite length_app; cbn; lia | lia].
Qed.

Lemma draft_poll_key_length (st : logs) key offset :
  (length (elems (poll_key st key offset)) <= 2)%nat.
Proof.
  unfold poll_key. destruct (st !! key); [|cbn; lia].
  by apply draft_poll_entries_length.
Qed.

Lemma draft_poll_loop_lookup (st : logs) :
  ∀ offsets (acc : gmap string (slice (list Z))) key l,
    poll_loop st offsets acc !! key = Some l →
    acc !! key = Some l
    ∨ ∃ offset, (key, offset) ∈ offsets ∧ poll_key st key offset = l.
Proof. poll_loop_lookup_script poll_loop. Qed.

Lemma draft_poll_loop_present (st : logs) :
  ∀ offsets (acc : gmap string (slice (list Z))) key,
    (is_Some (acc !! key) ∨ ∃ offset, (key, offset) ∈ offsets) →
    is_Some (poll_loop st offsets acc !! key).
Proof. poll_loop_present_script poll_loop. Qed.

End PollSingleNodeDraft.

Lemma poll_terminates (kv : gmap string Z) offsets :
  (∀ k s, (k, s) ∈ offsets →
     GoInt.int_min <= s
     ∧ ∀ h, kv !! Distributed.offsetKey k = Some h → h < GoInt.int_max) →
  ∃ fuel, is_Some (Distributed.poll fuel kv offsets).
Proof.
  intros Hwf.
  destruct (poll_loop_terminates (LinKV.ReadInt kv) offsets) as [fuel Hfuel].
  - intros k s Hin. destruct (Hwf k s Hin) as [Hs Hh]. split; [done|].
    intros h. unfold LinKV.ReadInt.
    destruct (kv !! Distributed.offsetKey k) as [v|] eqn:Ev; [|done].
    intros [= <-]. by apply Hh.
  - exists fuel. apply Hfuel.
Qed.

(** C4: a poll reply holds at most three entries for each key, whatever
    the log holds at or above the start offset: in the distributed variant
    for every reply the scan produces (and it produces one when the
    markers are below the largest [int]), in the in-memory variant, and in
    the first in-memory program, whose cap is two. *)
Theorem poll_returns_at_most_three_entries (offsets : list (string * Z)) (key : string) :
  (∀ fuel (kv : gmap string Z) msgs l,
     Distributed.poll fuel kv offsets = Some msgs →
     msgs !! key = Some l →
     (length l <= 3)%nat)
  ∧ (∀ kv : gmap string Z,
       (∀ k s, (k, s) ∈ offsets →
          GoInt.int_min <= s
          ∧ ∀ h, kv !! Distributed.offsetKey k = Some h → h < GoInt.int_max) →
       ∃ fuel, is_Some (Distributed.poll fuel kv offsets))
  ∧ (∀ (st : gmap string SingleNode.Log) l,
       SingleNode.poll st offsets !! key = Some l → (length l <= 3)%nat)
  ∧ (∀ (st : gmap string (list SingleNodeDraft.LogEntry)) l,
       SingleNodeDraft.poll st offsets !! key = Some l →
       (length (elems l) <= 3)%nat ∧ (length (elems l) <= 2)%nat).
Proof.
  split_and!.
  - intros fuel kv msgs l Hpoll Hl.
    destruct (poll_loop_lookup _ _ _ _ _ _ _ Hpoll Hl) as [Hacc | (s & _ & Hs)].
    + by rewrite lookup_empty in Hacc.
    + by apply poll_key_length in Hs.
  - intros kv Hwf. by apply poll_terminates.
  - intros st l Hl.
    destruct (single_poll_loop_lookup _ _ _ _ _ Hl) as [Hacc | (s & _ & <-)].
    + by rewrite lookup_empty in Hacc.
    + apply single_poll_key_length.
  - intros st l Hl.
    destruct (draft_poll_loop_lookup _ _ _ _ _ Hl) as [Hacc | (s & _ & <-)].
    + by rewrite lookup_empty in Hacc.
    + pose proof (draft_poll_key_length st key s). lia.
Qed.

Lemma poll_returns_at_most_three_entries_witness :
  (length [[0; 10]; [1; 20]; [2; 30]]%Z <= 3)%nat
  ∧ (∃ fuel,
       is_Some (Distributed.poll fuel
                  (Distributed.sends "x" [10; 20; 30; 40; 50] ∅).2 [("x", 0)]))
  ∧ (length [[1000; 10]; [1001; 20]; [1002; 30]]%Z <= 3)%nat
  ∧ (length (elems (Slice [[1000; 10]]%Z)) <= 3)%nat.
Proof.
  destruct (poll_returns_at_most_three_entries [("x", 0)] "x")
    as (Hcap & Hend & Hmem & Hdraft).
  split_and!.
  - apply (Hcap 5%nat (Distributed.sends "x" [10; 20; 30; 40; 50] ∅).2
             {[ "x" := [[0; 10]; [1; 20]; [2; 30]] ]}).
    + vm_compute. reflexivity.
    + vm_compute. reflexivity.
  - apply Hend. intros k s Hin.
    apply list_elem_of_singleton in Hin. injection Hin as -> ->. split.
    + vm_compute. discriminate.
    + intros h Hh. vm_compute in Hh. injection Hh as <-. reflexivity.
  - apply (Hmem (default ∅ (snd <$> SingleNode.sends "x" [10; 20; 30; 40] ∅))).
    vm_compute. reflexivity.
  - apply (Hdraft (default ∅ (snd <$> SingleNodeDraft.send "x" 10 ∅))).
    vm_compute. reflexivity.
Defined.

(** C9: a key of a poll request that was never appended to (no marker in
    the distributed variant, no log in the in-memory programs) is a key of
    the reply and has no entries: the empty slice in the distributed and
    in-memory variants, the nil slice in the first in-memory program. *)
Theorem poll_unknown_key_is_in_the_reply (offsets : list (string * Z))
    (key : string) (startOffset : Z) :
  (key, startOffset) ∈ offsets →
  (∀ fuel (kv : gmap string Z) msgs,
     kv !! Distributed.offsetKey key = None →
     Distributed.poll fuel kv offsets = Some msgs →
     msgs !! key = Some [])
  ∧ (∀ kv : gmap string Z,
       kv !! Distributed.offsetKey key = None →
       (∀ k s, (k, s) ∈ offsets →
          GoInt.int_min <= s
          ∧ ∀ h, kv !! Distributed.offsetKey k = Some h → h < GoInt.int_max) →
       ∃ fuel msgs,
         Distributed.poll fuel kv offsets = Some msgs ∧ msgs !! key = Some [])
  ∧ (∀ st : gmap string SingleNode.Log,
       st !! key = None → SingleNode.poll st offsets !! key = Some [])
  ∧ (∀ st : gmap string (list SingleNodeDraft.LogEntry),
       st !! key = None →
       SingleNodeDraft.poll st offsets !! key = Some NilSlice
       ∧ elems (NilSlice : slice (list Z)) = []).
Proof.
  intros Hin.
  assert (Hdist : ∀ fuel (kv : gmap string Z) msgs,
            kv !! Distributed.offsetKey key = None →
            Distributed.poll fuel kv offsets = Some msgs →
            msgs !! key = Some []).
  { intros fuel kv msgs Hfresh Hpoll.
    destruct (poll_loop_present _ fuel offsets ∅ msgs key Hpoll) as [l Hl].
    { right. by exists startOffset. }
    destruct (poll_loop_lookup _ _ _ _ _ _ _ Hpoll Hl) as [Hacc | (s & _ & Hs)].
    - by rewrite lookup_empty in Hacc.
    - unfold Distributed.poll_key, LinKV.ReadInt in Hs. rewrite Hfresh in Hs.
      by injection Hs as <-. }
  split_and!.
  - exact Hdist.
  - intros kv Hfresh Hwf.
    destruct (poll_terminates kv offsets Hwf) as [fuel [msgs Hm]].
    exists fuel, msgs. split; [done|]. by apply (Hdist fuel kv).
  - intros st Hfresh.
    destruct (single_poll_loop_present st offsets ∅ key) as [l Hl].
    { right. by exists startOffset. }
    destruct (single_poll_loop_lookup _ _ _ _ _ Hl) as [Hacc | (s & _ & Hs)].
    + by rewrite lookup_empty in Hacc.
    + unfold SingleNode.poll_key in Hs. rewrite Hfresh in Hs. by subst l.
  - intros st Hfresh. split; [|done].
    destruct (draft_poll_loop_present st offsets ∅ key) as [l Hl].
    { right. by exists startOffset. }
    destruct (draft_poll_loop_lookup _ _ _ _ _ Hl) as [Hacc | (s & _ & Hs)].
    + by rewrite lookup_empty in Hacc.
    + unfold SingleNodeDraft.poll_key in Hs. rewrite Hfresh in Hs. by subst l.
Qed.

Lemma poll_unknown_key_is_in_the_reply_witness :
  (∃ msgs, Distributed.poll 1 ∅ [("x", 0); ("y", 7)] = Some msgs
           ∧ msgs !! "y" = Some [])
  ∧ (∃ fuel msgs,
       Distributed.poll fuel (Distributed.send "x" 10 ∅).2 [("x", 0); ("y", 7)] =
         Some msgs
       ∧ msgs !! "y" = Some [])
  ∧ SingleNode.poll (default ∅ (snd <$> SingleNode.send "x" 10 ∅))
      [("x", 0); ("y", 7)] !! "y" = Some []
  ∧ SingleNodeDraft.poll (default ∅ (snd <$> SingleNodeDraft.send "x" 10 ∅))
      [("x", 0); ("y", 7)] !! "y" = Some NilSlice.
Proof.
  destruct (poll_unknown_key_is_in_the_reply [("x", 0); ("y", 7)] "y" 7)
    as (H & Hend & Hmem & Hdraft).
  - apply list_elem_of_In. right. left. reflexivity.
  - split_and!.
    + eexists. split; [vm_compute; reflexivity|].
      apply (H 1%nat ∅); reflexivity.
    + apply Hend; [vm_compute; reflexivity|].
      intros k s Hin. split.
      * apply elem_of_cons in Hin as [[= -> ->]|Hin]; [vm_compute; discriminate|].
        apply list_elem_of_singleton in Hin as [= -> ->]. vm_compute. discriminate.
      * intros h Hh.
        apply elem_of_cons in Hin as [[= -> ->]|Hin].
        -- vm_compute in Hh. injection Hh as <-. reflexivity.
        -- apply list_elem_of_singleton in Hin as [= -> ->]. vm_compute in Hh.
           discriminate Hh.
    + apply Hmem. vm_compute. reflexivity.
    + apply Hdraft. vm_compute. reflexivity.
Defined.

(** ** Committing *)

Lemma exec_app {PC St : Type} (step : LinKV.outcome → PC → St → PC * St) os1 :
  ∀ os2 pc st,
    exec step (os1 ++ os2) pc st =
      exec step os2 (exec step os1 pc st).1 (exec step os1 pc st).2.
Proof.
  induction os1 as [|o os1 IH]; intros os2 pc st; [done|].
  cbn [exec app]. destruct (step o pc st) as [pc' st']. apply IH.
Qed.

Section CommitDistributed.
Import LinKV Distributed.

Lemma commit_pair_alone key newOffset rest (kv : store) :
  exec commit_step [Served; Served] (CommitRead key newOffset rest) kv =
    (commit_next rest, commit_apply kv (key, newOffset)).
Proof.
  cbn. unfold ReadInt, commit_apply. cbn [fst snd].
  destruct (kv !! committedOffsetKey key) as [v|] eqn:E; cbn.
  - unfold CompareAndSwap. rewrite E, decide_True; done.
  - unfold CompareAndSwap. by rewrite E.
Qed.

Lemma commit_offsets_alone offsets : ∀ kv : store,
  commit_offsets offsets kv = (CommitOk, fold_left commit_apply offsets kv).
Proof.
  unfold commit_offsets.
  induction offsets as [|[key newOffset] rest IH]; intros kv; [done|].
  replace (2 * length ((key, newOffset) :: rest))%nat
    with (S (S (2 * length rest))) by (cbn [length]; lia).
  cbn [repeat commit_next].
  change (Served :: Served :: repeat Served (2 * length rest))
    with ([Served; Served] ++ repeat Served (2 * length rest)).
  rewrite exec_app, commit_pair_alone. apply IH.
Qed.




End CommitDistributed.


Lemma fold_max_ge cs : ∀ a, a <= fold_left Z.max cs a.
Proof.
  induction cs as [|c cs IH]; intros a; cbn; [lia|].
  etrans; [|apply IH]. lia.
Qed.


Section CommitSingleNode.
Import SingleNode.

(** The log of [key] after a commit request: its committed offset is
    merged with the request's offsets for the key; nothing is created. *)
Lemma single_commit_offsets_lookup key offsets : ∀ st : logs,
  commit_offsets offsets st !! key =
    (λ log, {| CommittedOffset :=
                 fold_left Z.max (offsets_for key offsets) (CommittedOffset log);
               LogEntries := LogEntries log |}) <$> st !! key.
Proof.
  induction offsets as [|[k c] rest IH]; intros st.
  - cbn. by destruct (st !! key) as [[]|].
  - cbn [commit_offsets]. unfold offsets_for. csimpl. fold (offsets_for key rest).
    destruct (st !! k) as [log|] eqn:Ek; rewrite IH.
    + destruct (decide (k = key)) as [->|Hne].
      * by rewrite lookup_insert_eq, Ek.
      * by rewrite lookup_insert_ne.
    + destruct (decide (k = key)) as [->|Hne]; [by rewrite Ek | done].
Qed.



End CommitSingleNode.

(** ** Who writes the committed-offset marker *)

Section MarkerFootprint.
Import LinKV Distributed.

Lemma send_step_committed key msg o pc (kv : store) k :
  (send_step key msg o pc kv).2 !! committedOffsetKey k = kv !! committedOffsetKey k.
Proof.
  destruct pc as [|old|offset|offset|e|offset e]; cbn [send_step]; try done.
  - unfold callReadInt. destruct o as [|e]; [|by destruct (isKeyDoesNotExist e)].
    unfold ReadInt. by destruct (kv !! offsetKey key).
  - unfold callCompareAndSwap, CompareAndSwap. destruct o as [|e]; [|done].
    destruct (kv !! offsetKey key) as [v|]; [destruct (decide (v = old)); [|done]|];
      cbn [snd]; apply lookup_insert_ne, offsetKey_ne_committedOffsetKey.
  - unfold callWrite, Write. destruct o as [|e]; [|done].
    cbn [snd]. apply lookup_insert_ne, logEntryKey_ne_committedOffsetKey.
Qed.

Lemma exec_send_committed key msg os k : ∀ pc (kv : store),
  (exec (send_step key msg) os pc kv).2 !! committedOffsetKey k =
    kv !! committedOffsetKey k.
Proof.
  induction os as [|o os IH]; intros pc kv; [done|]. cbn [exec].
  pose proof (send_step_committed key msg o pc kv k) as Hstep.
  destruct (send_step key msg o pc kv) as [pc' kv']. by rewrite IH.
Qed.

Lemma commit_keys_next rest : commit_keys (commit_next rest) = rest.*1.
Proof. by destruct rest as [|[k c] rest]. Qed.

Lemma commit_step_committed o pc (kv : store) k :
  k ∉ commit_keys pc →
  (commit_step o pc kv).2 !! committedOffsetKey k = kv !! committedOffsetKey k
  ∧ k ∉ commit_keys (commit_step o pc kv).1.
Proof.
  intros Hk. destruct pc as [key c rest|key c old rest| |e]; cbn [commit_step]; try done.
  - unfold callReadInt. destruct o as [|e].
    + unfold ReadInt. by destruct (kv !! committedOffsetKey key).
    + destruct (isKeyDoesNotExist e); [done|]. split; [done | apply not_elem_of_nil].
  - cbn [commit_keys] in Hk. apply not_elem_of_cons in Hk as [Hne Hrest].
    assert (Hkey : committedOffsetKey key ≠ committedOffsetKey k).
    { intros H. by apply committedOffsetKey_inj in H. }
    unfold callCompareAndSwap, CompareAndSwap. destruct o as [|e].
    + destruct (kv !! committedOffsetKey key) as [v|].
      * destruct (decide (v = old)); cbn [fst snd].
        -- rewrite commit_keys_next. split; [by apply lookup_insert_ne | done].
        -- split; [done|]. cbn. by apply not_elem_of_cons.
      * cbn [fst snd]. rewrite commit_keys_next.
        split; [by apply lookup_insert_ne | done].
    + cbn [fst snd]. split; [done|]. cbn. by apply not_elem_of_cons.
Qed.

Lemma exec_commit_committed os k : ∀ pc (kv : store),
  k ∉ commit_keys pc →
  (exec commit_step os pc kv).2 !! committedOffsetKey k = kv !! committedOffsetKey k.
Proof.
  induction os as [|o os IH]; intros pc kv Hk; [done|]. cbn [exec].
  destruct (commit_step_committed o pc kv k Hk) as [Hstep Hk'].
  destruct (commit_step o pc kv) as [pc' kv']. cbn [fst snd] in *.
  by rewrite IH.
Qed.

Lemma store_after_committed key r os (kv : store) :
  ¬ commits_key key r →
  store_after r os kv !! committedOffsetKey key = kv !! committedOffsetKey key.
Proof.
  intros Hr. destruct r as [k msg|offsets|offsets|keys]; cbn [store_after]; try done.
  - apply exec_send_committed.
  - apply exec_commit_committed. by rewrite commit_keys_next.
Qed.

Lemma store_after_all_committed key history : ∀ kv : store,
  (∀ ro, ro ∈ history → ¬ commits_key key ro.1) →
  store_after_all history kv !! committedOffsetKey key = kv !! committedOffsetKey key.
Proof.
  unfold store_after_all.
  induction history as [|[r os] history IH]; intros kv Hh; [done|].
  cbn [fold_left]. rewrite IH.
  - apply store_after_committed. apply (Hh (r, os)), list_elem_of_here.
  - intros ro Hin. by apply Hh, list_elem_of_further.
Qed.

End MarkerFootprint.

Section LogsFootprint.
Import SingleNode.

Lemma logs_after_none key r (st : logs) :
  ¬ sends_key key r → st !! key = None → logs_after r st !! key = None.
Proof.
  intros Hr Hnone. destruct r as [k msg|offsets|offsets|keys]; cbn [logs_after]; try done.
  - cbn in Hr. unfold send.
    destruct (st !! k) as [log|]; [destruct (last (LogEntries log))|];
      cbn; try done; by rewrite lookup_insert_ne.
  - by rewrite single_commit_offsets_lookup, Hnone.
Qed.

Lemma logs_after_some key r (st : logs) :
  is_Some (st !! key) ∨ sends_key key r → is_Some (logs_after r st !! key).
Proof.
  intros Hor. destruct r as [k msg|offsets|offsets|keys]; cbn [logs_after].
  - unfold send. destruct (decide (k = key)) as [->|Hne].
    + destruct (st !! key) as [log|] eqn:Ek.
      * destruct (last (LogEntries log)); cbn; [|by rewrite Ek].
        rewrite lookup_insert_eq. by eexists.
      * cbn. rewrite lookup_insert_eq. by eexists.
    + destruct Hor as [Hsome | Hs]; [|done].
      destruct (st !! k) as [log|]; [destruct (last (LogEntries log))|];
        cbn; try done; by rewrite lookup_insert_ne.
  - by destruct Hor.
  - destruct Hor as [[log Hlog] | Hs]; [|done].
    rewrite single_commit_offsets_lookup, Hlog. by eexists.
  - by destruct Hor.
Qed.

Lemma logs_after_all_none key history : ∀ st : logs,
  (∀ r, r ∈ history → ¬ sends_key key r) →
  st !! key = None →
  logs_after_all history st !! key = None.
Proof.
  unfold logs_after_all.
  induction history as [|r history IH]; intros st Hh Hnone; [done|].
  cbn [fold_left]. apply IH.
  - intros r' Hin. by apply Hh, list_elem_of_further.
  - apply logs_after_none; [apply Hh, list_elem_of_here | done].
Qed.

Lemma logs_after_all_some key history : ∀ st : logs,
  is_Some (st !! key) ∨ (∃ r, r ∈ history ∧ sends_key key r) →
  is_Some (logs_after_all history st !! key).
Proof.
  unfold logs_after_all.
  induction history as [|r history IH]; intros st Hor.
  - destruct Hor as [H | (r & Hin & _)]; [done | by apply not_elem_of_nil in Hin].
  - cbn [fold_left]. apply IH.
    destruct Hor as [H | (r' & Hin & Hs)].
    + left. apply logs_after_some. by left.
    + apply elem_of_cons in Hin as [->|Hin].
      * left. apply logs_after_some. by right.
      * right. by exists r'.
Qed.

End LogsFootprint.

(** *** Commits in a history of requests *)

Section CommitHistory.
Import LinKV Distributed.
Variable key : string.






Lemma offsets_for_absent (offsets : list (string * Z)) :
  key ∉ offsets.*1 → offsets_for key offsets = [].
Proof.
  unfold offsets_for. induction offsets as [|[k c] offsets IH]; [done|].
  csimpl. intros [Hne Hrest]%not_elem_of_cons.
  rewrite decide_False by done. by apply IH.
Qed.



End CommitHistory.


Lemma logs_after_committed key r (st : gmap string SingleNode.Log) log :
  st !! key = Some log →
  ∃ log',
    logs_after r st !! key = Some log'
    ∧ SingleNode.CommittedOffset log' =
        fold_left Z.max (committed_by key r) (SingleNode.CommittedOffset log).
Proof.
  intros Hlog. destruct r as [k msg|offsets|offsets|keys]; cbn [logs_after committed_by].
  - unfold SingleNode.send. destruct (decide (k = key)) as [->|Hne].
    + rewrite Hlog. destruct (last (SingleNode.LogEntries log)) as [prev|]; cbn.
      * eexists. rewrite lookup_insert_eq. done.
      * by exists log.
    + exists log. split; [|done].
      destruct (st !! k) as [log0|]; [destruct (last (SingleNode.LogEntries log0))|];
        cbn; try done; by rewrite lookup_insert_ne.
  - by exists log.
  - eexists. rewrite single_commit_offsets_lookup, Hlog. done.
  - by exists log.
Qed.

Lemma logs_after_all_committed key history :
  ∀ (st : gmap string SingleNode.Log) log,
    st !! key = Some log →
    ∃ log',
      logs_after_all history st !! key = Some log'
      ∧ SingleNode.CommittedOffset log' =
          fold_left Z.max (committed_in key history) (SingleNode.CommittedOffset log).
Proof.
  unfold logs_after_all, committed_in.
  induction history as [|r history IH]; intros st log Hlog.
  - by exists log.
  - cbn [fold_left fmap list_fmap concat].
    destruct (logs_after_committed key r st log Hlog) as (log1 & Hlog1 & Hc1).
    destruct (IH _ log1 Hlog1) as (log2 & Hlog2 & Hc2).
    exists log2. split; [done|]. by rewrite fold_left_app, Hc2, Hc1.
Qed.

(** ** Keys that list_committed_offsets leaves out *)

(** C7, as the code has it: the distributed variant leaves out exactly
    the requested keys without committed-offset marker, and a key has no
    marker as long as no commit request named it, whatever else was sent,
    polled or committed and whichever calls failed; the in-memory variant
    leaves out exactly the requested keys without log, that is the keys
    never sent to, and so reports a key that was sent to and never
    committed, with the committed offset its log was created with. *)
Theorem list_committed_offsets_omits (key : string) (keys : list string) :
  (∀ kv : gmap string Z,
     kv !! Distributed.committedOffsetKey key = None →
     Distributed.list_committed_offsets kv keys !! key = None)
  ∧ (∀ (kv : gmap string Z) committed,
       key ∈ keys →
       kv !! Distributed.committedOffsetKey key = Some committed →
       Distributed.list_committed_offsets kv keys !! key = Some committed)
  ∧ (∀ history : list (request * list LinKV.outcome),
       (∀ ro, ro ∈ history → ¬ commits_key key ro.1) →
       Distributed.list_committed_offsets (store_after_all history ∅) keys !! key = None)
  ∧ (∀ st : gmap string SingleNode.Log,
       st !! key = None →
       SingleNode.list_committed_offsets st keys !! key = None)
  ∧ (∀ (st : gmap string SingleNode.Log) log,
       key ∈ keys →
       st !! key = Some log →
       SingleNode.list_committed_offsets st keys !! key =
         Some (SingleNode.CommittedOffset log))
  ∧ (∀ history : list request,
       (∀ r, r ∈ history → ¬ sends_key key r) →
       SingleNode.list_committed_offsets (logs_after_all history ∅) keys !! key = None)
  ∧ (∀ history : list request,
       key ∈ keys →
       (∃ r, r ∈ history ∧ sends_key key r) →
       is_Some (SingleNode.list_committed_offsets (logs_after_all history ∅) keys !! key)).
Proof.
  split_and!.
  - intros kv H. rewrite dist_list_lookup. by case_decide.
  - intros kv c Hin H. by rewrite dist_list_lookup, decide_True.
  - intros history Hh. rewrite dist_list_lookup.
    case_decide; [|done]. by rewrite store_after_all_committed.
  - intros st H. rewrite single_list_lookup, H. by case_decide.
  - intros st log Hin H. by rewrite single_list_lookup, decide_True, H.
  - intros history Hh. rewrite single_list_lookup.
    case_decide; [|done]. by rewrite logs_after_all_none.
  - intros history Hin Hs. rewrite single_list_lookup, decide_True by done.
    destruct (logs_after_all_some key history ∅) as [log Hlog]; [by right|].
    rewrite Hlog. by eexists.
Qed.

Lemma list_committed_offsets_omits_witness :
  Distributed.list_committed_offsets
    (Distributed.send "x" 10 ∅).2 ["x"; "y"] !! "x" = None
  ∧ Distributed.list_committed_offsets
      (Distributed.commit_offsets [("x", 4)] ∅).2 ["x"; "y"] !! "x" = Some 4
  ∧ Distributed.list_committed_offsets
      (store_after_all
         [(Send "x" 10, [LinKV.Served; LinKV.Served; LinKV.Served]);
          (CommitOffsets [("y", 4)], [LinKV.Served; LinKV.Served])] ∅)
      ["x"; "y"] !! "x" = None
  ∧ SingleNode.list_committed_offsets ∅ ["x"; "y"] !! "x" = None
  ∧ SingleNode.list_committed_offsets
      {[ "x" := {| SingleNode.CommittedOffset := 1000;
                   SingleNode.LogEntries :=
                     [{| SingleNode.Offset := 1000; SingleNode.Message := 10 |}] |} ]}
      ["x"; "y"] !! "x" = Some 1000
  ∧ SingleNode.list_committed_offsets
      (logs_after_all [Send "y" 10; CommitOffsets [("x", 4)]] ∅) ["x"; "y"] !! "x" = None
  ∧ is_Some (SingleNode.list_committed_offsets
               (logs_after_all [Send "x" 10] ∅) ["x"; "y"] !! "x").
Proof.
  destruct (list_committed_offsets_omits "x" ["x"; "y"])
    as (H & Hsome & Hh & Hm & Hmsome & Hmh & Hmsent).
  assert (Hin : "x" ∈ ["x"; "y"]) by apply list_elem_of_here.
  split_and!.
  - apply H. vm_compute. reflexivity.
  - apply Hsome; [exact Hin | vm_compute; reflexivity].
  - apply Hh. intros ro Hro.
    apply elem_of_cons in Hro as [->|Hro]; [by intros []|].
    apply list_elem_of_singleton in Hro as ->. cbn.
    intros Hx. apply list_elem_of_singleton in Hx. discriminate Hx.
  - apply Hm. reflexivity.
  - apply (Hmsome _ {| SingleNode.CommittedOffset := 1000;
                       SingleNode.LogEntries :=
                         [{| SingleNode.Offset := 1000; SingleNode.Message := 10 |}] |});
      [exact Hin | vm_compute; reflexivity].
  - apply Hmh. intros r Hr.
    apply elem_of_cons in Hr as [->|Hr]; [cbn; discriminate|].
    apply list_elem_of_singleton in Hr as ->. by intros [].
  - apply Hmsent; [exact Hin|]. exists (Send "x" 10). split; [apply list_elem_of_here | done].
Defined.

(** C7, as stated, fails on the in-memory variant: after one send and no
    commit, the key is reported with offset 1000. *)
Lemma never_committed_key_is_listed_in_memory :
  ∃ st,
    SingleNode.send "x" 10 ∅ = Some (1000, st)
    ∧ SingleNode.list_committed_offsets st ["x"] = {[ "x" := 1000 ]}
    ∧ SingleNode.list_committed_offsets st ["x"] !! "x" ≠ None.
Proof.
  eexists. split_and!; [vm_compute; reflexivity | vm_compute; reflexivity |].
  vm_compute. discriminate.
Qed.

(** ** Committed offset of a log created by send (in-memory variant) *)

Lemma committed_in_none key (history : list request) :
  (∀ r, r ∈ history → ¬ commits_key key r) → committed_in key history = [].
Proof.
  unfold committed_in. induction history as [|r history IH]; intros Hh; [done|].
  cbn [fmap list_fmap concat]. rewrite IH.
  - rewrite app_nil_r. specialize (Hh r (list_elem_of_here _ _)).
    destruct r as [k msg|offsets|offsets|keys]; try done.
    cbn in Hh |- *. by apply offsets_for_absent.
  - intros r' Hin. by apply Hh, list_elem_of_further.
Qed.

(** C10: in the in-memory variant the first send for a key without log
    sets the committed offset of the new log to the offset it allocates;
    further sends and any requests that do not commit for the key leave
    it alone, so list_committed_offsets reports the key with its first
    allocated offset although nothing was committed. *)
Theorem first_send_initialises_committed_offset (key : string) (msg : Z)
    (msgs : list Z) (keys : list string) (st : gmap string SingleNode.Log) :
  st !! key = None →
  key ∈ keys →
  ∃ first offsets st' log',
    first = GoInt.mul (GoInt.add (Z.of_nat (size st)) 1) 1000 ∧
    SingleNode.sends key (msg :: msgs) st = Some (first :: offsets, st') ∧
    st' !! key = Some log' ∧
    SingleNode.CommittedOffset log' = first ∧
    SingleNode.list_committed_offsets st' keys !! key = Some first ∧
    ∀ history : list request,
      (∀ r, r ∈ history → ¬ commits_key key r) →
      SingleNode.list_committed_offsets (logs_after_all history st') keys !! key =
        Some first.
Proof.
  intros Hfresh Hin.
  destruct (sends_fresh key msg msgs st Hfresh) as (os & st' & log' & Hs & Hk & Hc & _).
  exists (GoInt.mul (GoInt.add (Z.of_nat (size st)) 1) 1000), os, st', log'.
  split_and!; try done.
  - rewrite single_list_lookup, decide_True by done. rewrite Hk. cbn. by rewrite Hc.
  - intros history Hh. rewrite single_list_lookup, decide_True by done.
    destruct (logs_after_all_committed key history st' log' Hk) as (log'' & -> & Hc'').
    cbn. rewrite Hc'', committed_in_none by done. cbn. by rewrite Hc.
Qed.

Lemma first_send_initialises_committed_offset_witness :
  ∃ first offsets st' log',
    first = GoInt.mul (GoInt.add (Z.of_nat (size (∅ : gmap string SingleNode.Log))) 1) 1000 ∧
    SingleNode.sends "x" [10; 20] ∅ = Some (first :: offsets, st') ∧
    st' !! "x" = Some log' ∧
    SingleNode.CommittedOffset log' = first ∧
    SingleNode.list_committed_offsets st' ["y"; "x"] !! "x" = Some first ∧
    ∀ history : list request,
      (∀ r, r ∈ history → ¬ commits_key "x" r) →
      SingleNode.list_committed_offsets (logs_after_all history st') ["y"; "x"] !! "x" =
        Some first.
Proof.
  apply (first_send_initialises_committed_offset "x" 10 [20] ["y"; "x"] ∅).
  - reflexivity.
  - apply list_elem_of_In. right. left. reflexivity.
Defined.

(** ** Entries stay where they were written *)

Section EntryKept.
Import LinKV Distributed.
Variable key : string.
Variables offset msg : Z.
Hypothesis Hoffset : GoInt.int_min - 1 <= offset.

Lemma commit_step_other o pc (kv : store) k :
  (∀ k', k ≠ committedOffsetKey k') →
  (commit_step o pc kv).2 !! k = kv !! k.
Proof.
  intros Hk. destruct pc as [key' c rest|key' c old rest| |e]; cbn [commit_step]; try done.
  - unfold callReadInt. destruct o as [|e]; [|by destruct (isKeyDoesNotExist e)].
    unfold ReadInt. by destruct (kv !! committedOffsetKey key').
  - unfold callCompareAndSwap, CompareAndSwap. destruct o as [|e]; [|done].
    destruct (kv !! committedOffsetKey key') as [v|];
      [destruct (decide (v = old)); [|done]|];
      cbn [snd]; apply lookup_insert_ne, not_eq_sym, Hk.
Qed.

Lemma exec_commit_other os k : ∀ pc (kv : store),
  (∀ k', k ≠ committedOffsetKey k') →
  (exec commit_step os pc kv).2 !! k = kv !! k.
Proof.
  induction os as [|o os IH]; intros pc kv Hk; [done|]. cbn [exec].
  pose proof (commit_step_other o pc kv k Hk) as Hstep.
  destruct (commit_step o pc kv) as [pc' kv']. cbn [snd] in Hstep.
  by rewrite IH.
Qed.

Lemma send_step_kept bound key' msg' o pc (kv : store) :
  bound < GoInt.int_max →
  entry_kept_at key offset msg bound key' pc kv →
  entry_kept_at key offset msg bound key'
    (send_step key' msg' o pc kv).1 (send_step key' msg' o pc kv).2.
Proof.
  intros Hbound (Hentry & h & Hmarker & Hle & Hpc).
  destruct pc as [|old|off|off|e|off e]; cbn [send_step].
  - (* the read *)
    unfold callReadInt. destruct o as [|e].
    + unfold ReadInt. destruct (kv !! offsetKey key'); cbn [fst snd];
        (split; [done|]; by exists h).
    + destruct (isKeyDoesNotExist e); cbn [fst snd]; (split; [done|]; by exists h).
  - (* the swap *)
    unfold callCompareAndSwap, CompareAndSwap.
    destruct o as [|e]; [|cbn [fst snd]; split; [done|]; by exists h].
    destruct (decide (key' = key)) as [->|Hne].
    + rewrite Hmarker. destruct (decide (h = old)) as [->|Hold]; cbn [fst snd].
      * rewrite add_1_no_overflow by lia. split.
        -- rewrite lookup_insert_ne; [done|]. apply not_eq_sym, logEntryKey_ne_offsetKey.
        -- exists (old + 1). rewrite lookup_insert_eq. split_and!; [done | lia | lia | lia].
      * split; [done|]. by exists h.
    + assert (Hk : offsetKey key' ≠ offsetKey key).
      { intros H. by apply offsetKey_inj in H. }
      assert (Hkept : ∀ v, entry_kept_at key offset msg bound key'
                (SendWrite (GoInt.add old 1)) (<[offsetKey key' := v]> kv)).
      { intros v. split.
        - rewrite lookup_insert_ne; [done|]. apply not_eq_sym, logEntryKey_ne_offsetKey.
        - exists h. rewrite lookup_insert_ne by done. split_and!; [done | done | lia | done]. }
      destruct (kv !! offsetKey key') as [v|]; [destruct (decide (v = old))|];
        cbn [fst snd]; try apply Hkept.
      split; [done|]. by exists h.
  - (* the write *)
    unfold callWrite, Write. destruct o as [|e]; cbn [fst snd].
    + destruct Hpc as [Hb Hlater]. split.
      * rewrite lookup_insert_ne; [done|]. intros H.
        apply logEntryKey_inj2 in H as [-> ->]. specialize (Hlater eq_refl). lia.
      * exists h. rewrite lookup_insert_ne by apply logEntryKey_ne_offsetKey.
        done.
    + split; [done|]. by exists h.
  - split; [done|]. by exists h.
  - split; [done|]. by exists h.
  - split; [done|]. by exists h.
Qed.

Lemma exec_send_kept bound key' msg' os : ∀ pc (kv : store),
  bound < GoInt.int_max →
  entry_kept_at key offset msg bound key' pc kv →
  entry_kept_at key offset msg bound key'
    (exec (send_step key' msg') os pc kv).1 (exec (send_step key' msg') os pc kv).2.
Proof.
  induction os as [|o os IH]; intros pc kv Hbound Hkept; [done|]. cbn [exec].
  pose proof (send_step_kept bound key' msg' o pc kv Hbound Hkept) as Hstep.
  destruct (send_step key' msg' o pc kv) as [pc' kv']. by apply IH.
Qed.

Lemma store_after_kept bound r os (kv : store) :
  bound < GoInt.int_max →
  entry_kept key offset msg bound kv →
  entry_kept key offset msg (bound + 1) (store_after r os kv).
Proof.
  intros Hbound (Hentry & h & Hmarker & Hle).
  destruct r as [key' msg'|offsets|offsets|keys]; cbn [store_after].
  - destruct (exec_send_kept bound key' msg' os SendRead kv Hbound)
      as (Hentry' & h' & Hmarker' & Hle' & Hpc).
    { split; [done|]. exists h. split_and!; [done | lia | lia]. }
    split; [done|]. exists h'. split; [done|].
    destruct (exec (send_step key' msg') os SendRead kv).1; lia.
  - split; [done|]. exists h. split; [done | lia].
  - split.
    + rewrite exec_commit_other; [done|].
      intros k'. apply logEntryKey_ne_committedOffsetKey.
    + exists h. rewrite exec_commit_other; [split; [done | lia]|].
      intros k'. apply offsetKey_ne_committedOffsetKey.
  - split; [done|]. exists h. split; [done | lia].
Qed.

Lemma store_after_all_kept history : ∀ bound (kv : store),
  bound + Z.of_nat (length history) <= GoInt.int_max →
  entry_kept key offset msg bound kv →
  entry_kept key offset msg (bound + Z.of_nat (length history))
    (store_after_all history kv).
Proof.
  unfold store_after_all.
  induction history as [|[r os] history IH]; intros bound kv Hbound Hkept.
  - cbn. by rewrite Z.add_0_r.
  - cbn [fold_left length] in *.
    replace (bound + Z.of_nat (S (length history)))
      with (bound + 1 + Z.of_nat (length history)) by lia.
    apply IH; [lia|]. apply store_after_kept; [lia | done].
Qed.

End EntryKept.

(** ** What a poll returns *)

Section PollContents.
Import Distributed.
Variable read : string → error + Z.
Variable key : string.

(** The scan collects the entries present from [i] to the marker, in
    order, until it has three. *)
Lemma poll_scan_entries fuel : ∀ i highestOffset count logMessages,
  GoInt.int_min <= i →
  highestOffset < GoInt.int_max →
  0 <= count < 3 →
  (Z.to_nat (highestOffset - i + 1) < fuel)%nat →
  poll_scan fuel read key i highestOffset count logMessages =
    Some (logMessages ++
            take (Z.to_nat (3 - count))
              (entries_from read key i (highestOffset - i + 1))).
Proof.
  induction fuel as [|fuel IH]; intros i h count acc Hi Hh Hc Hfuel; [lia|].
  cbn [poll_scan]. destruct (i <=? h) eqn:Ei.
  - apply Z.leb_le in Ei.
    assert (Hadd : GoInt.add i 1 = i + 1) by (apply add_1_no_overflow; lia).
    rewrite Hadd. unfold entries_from.
    rewrite (seqZ_cons i) by lia. csimpl. unfold entry_at at 1.
    replace (Z.pred (h - i + 1)) with (h - (i + 1) + 1) by lia.
    replace (Z.succ i) with (i + 1) by lia.
    fold (entries_from read key (i + 1) (h - (i + 1) + 1)).
    destruct (read (logEntryKey key i)) as [e|msg].
    + apply IH; lia.
    + destruct (count + 1 =? 3) eqn:E3.
      * apply Z.eqb_eq in E3. replace (Z.to_nat (3 - count)) with 1%nat by lia.
        cbn [take]. by rewrite take_0.
      * apply Z.eqb_neq in E3. rewrite IH by lia.
        replace (Z.to_nat (3 - count)) with (S (Z.to_nat (3 - (count + 1)))) by lia.
        cbn [take]. by rewrite <- app_assoc.
  - apply Z.leb_gt in Ei. unfold entries_from.
    rewrite seqZ_nil by lia. csimpl. by rewrite take_nil, app_nil_r.
Qed.

Lemma poll_key_entries startOffset highestOffset :
  read (offsetKey key) = inr highestOffset →
  GoInt.int_min <= startOffset →
  highestOffset < GoInt.int_max →
  poll_key (S (Z.to_nat (highestOffset - startOffset + 1))) read key startOffset =
    Some (take 3 (entries_from read key startOffset (highestOffset - startOffset + 1))).
Proof.
  intros Hread Hs Hh. unfold poll_key. rewrite Hread.
  rewrite poll_scan_entries by lia. done.
Qed.

Lemma entries_from_offsets first n :
  entry_offset <$> entries_from read key first n =
    filter (λ j, is_Some (entry_at read key j)) (seqZ first n).
Proof.
  unfold entries_from. induction (seqZ first n) as [|j js IH]; [done|].
  csimpl. rewrite filter_cons.
  destruct (entry_at read key j) as [entry|] eqn:Ej; csimpl.
  - rewrite IH. f_equal.
    unfold entry_at in Ej. destruct (read (logEntryKey key j)); [done|].
    by injection Ej as <-.
  - done.
Qed.

Lemma entries_from_bounds first n entry :
  entry ∈ entries_from read key first n →
  first <= entry_offset entry < first + n.
Proof.
  intros Hin. apply (list_elem_of_fmap_2 entry_offset) in Hin.
  rewrite entries_from_offsets in Hin.
  apply list_elem_of_filter in Hin as [_ Hin].
  apply elem_of_seqZ in Hin. lia.
Qed.

End PollContents.

Lemma seqZ_sorted first n : StronglySorted Z.lt (seqZ first n).
Proof.
  destruct (decide (n <= 0)) as [Hn|Hn]; [rewrite seqZ_nil by done; constructor|].
  rewrite <- (Z2Nat.id n) by lia. generalize (Z.to_nat n) as k. clear. intros k.
  revert first. induction k as [|k IH]; intros first; [constructor|].
  rewrite Nat2Z.inj_succ, seqZ_cons by lia. rewrite Z.pred_succ. constructor; [apply IH|].
  apply Forall_forall. intros j Hj. apply elem_of_seqZ in Hj. lia.
Qed.

Lemma StronglySorted_filter {A} (R : A → A → Prop) (P : A → Prop)
    `{∀ x, Decision (P x)} l :
  StronglySorted R l → StronglySorted R (filter P l).
Proof.
  induction 1 as [|x l Hl IH Hx]; [constructor|].
  rewrite filter_cons. case_decide; [|done]. constructor; [done|].
  apply Forall_forall. intros y Hy. apply list_elem_of_filter in Hy as [_ Hy].
  by apply (proj1 (Forall_forall _ _) Hx).
Qed.

Lemma StronglySorted_take {A} (R : A → A → Prop) n l :
  StronglySorted R l → StronglySorted R (take n l).
Proof.
  intros Hl. revert n. induction Hl as [|x l Hl IH Hx]; intros [|n]; cbn; try constructor.
  - apply IH.
  - apply Forall_forall. intros y Hy. apply elem_of_take in Hy as (i & Hy & _).
    apply list_elem_of_lookup_2 in Hy. by apply (proj1 (Forall_forall _ _) Hx).
Qed.

Lemma elem_of_take_middle {A} (l k : list A) (x : A) (n : nat) :
  (length l < n)%nat → x ∈ take n (l ++ x :: k).
Proof.
  intros Hlen. apply elem_of_take. exists (length l). split; [|done].
  by rewrite list_lookup_middle.
Qed.

Section PollContentsSingleNode.
Import SingleNode.

Lemma single_poll_entries_take entries : ∀ offset count logMessages,
  0 <= count < 3 →
  poll_entries entries offset count logMessages =
    logMessages ++ take (Z.to_nat (3 - count)) (entries_above entries offset).
Proof.
  unfold entries_above.
  induction entries as [|entry entries IH]; intros offset count acc Hc.
  - cbn. by rewrite take_nil, app_nil_r.
  - cbn [poll_entries]. rewrite filter_cons, Z.geb_leb.
    destruct (offset <=? Offset entry) eqn:E.
    + apply Z.leb_le in E. rewrite decide_True by done. csimpl.
      destruct (count + 1 =? 3) eqn:E3.
      * apply Z.eqb_eq in E3. replace (Z.to_nat (3 - count)) with 1%nat by lia.
        cbn [take]. by rewrite take_0.
      * apply Z.eqb_neq in E3. rewrite IH by lia.
        replace (Z.to_nat (3 - count)) with (S (Z.to_nat (3 - (count + 1)))) by lia.
        cbn [take]. by rewrite <- app_assoc.
    + apply Z.leb_gt in E. rewrite decide_False by lia. by apply IH.
Qed.

Lemma entries_above_offsets entries offset :
  entry_offset <$> entries_above entries offset =
    filter (λ z, offset <= z) (Offset <$> entries).
Proof.
  unfold entries_above. induction entries as [|entry entries IH]; [done|].
  csimpl. rewrite !filter_cons. case_decide; csimpl; by rewrite IH.
Qed.

Lemma entries_above_snoc entries offset entry :
  offset <= Offset entry →
  entries_above (entries ++ [entry]) offset =
    entries_above entries offset ++ [[Offset entry; Message entry]].
Proof.
  intros Hle. unfold entries_above. rewrite filter_app, fmap_app. f_equal.
  rewrite filter_cons, decide_True by done. done.
Qed.

Lemma sorted_last_max (l : list Z) p :
  StronglySorted Z.lt l → last l = Some p → ∀ z, z ∈ l → z <= p.
Proof.
  intros Hs Hlast z Hz. apply last_Some in Hlast as [l' ->].
  apply elem_of_app in Hz as [Hz | Hz].
  - apply Z.lt_le_incl. apply (StronglySorted_app_1_elem_of _ _ _ _ _ Hs Hz).
    apply list_elem_of_here.
  - apply list_elem_of_singleton in Hz. lia.
Qed.

(** A send keeps the log of its key sorted as long as the new offset does
    not wrap around. *)
Lemma send_keeps_sorted key msg (st st' : logs) offset :
  (∀ log, st !! key = Some log →
     sorted_log log
     ∧ ∀ prev, last (LogEntries log) = Some prev →
               GoInt.int_min - 1 <= Offset prev < GoInt.int_max) →
  send key msg st = Some (offset, st') →
  ∃ log', st' !! key = Some log' ∧ sorted_log log'
          ∧ last (LogEntries log') = Some {| Offset := offset; Message := msg |}
          ∧ LogEntries log' =
              default [] (LogEntries <$> st !! key) ++
                [{| Offset := offset; Message := msg |}].
Proof.
  intros Hwf. unfold send. destruct (st !! key) as [log|] eqn:Ek.
  - destruct (Hwf log eq_refl) as [Hsorted Hlast].
    destruct (last (LogEntries log)) as [prev|] eqn:El; [|done].
    intros [= <- <-]. eexists. rewrite lookup_insert_eq. split; [done|].
    cbn [LogEntries]. split_and!; [|apply last_snoc|done].
    unfold sorted_log. cbn [LogEntries]. rewrite fmap_app.
    apply StronglySorted_app_2; [|done|repeat constructor].
    intros x1 x2 Hx1 Hx2. apply list_elem_of_singleton in Hx2 as ->. cbn.
    rewrite add_1_no_overflow by (by apply Hlast).
    pose proof (sorted_last_max _ (Offset prev) Hsorted) as Hmax.
    rewrite fmap_last, El in Hmax. specialize (Hmax eq_refl x1 Hx1). lia.
  - intros [= <- <-]. eexists. rewrite lookup_insert_eq. split; [done|].
    split_and!; [|done|done].
    unfold sorted_log. cbn. repeat constructor.
Qed.

End PollContentsSingleNode.

Lemma logs_after_extends key r (st : gmap string SingleNode.Log) log :
  st !! key = Some log →
  ∃ log' extra,
    logs_after r st !! key = Some log'
    ∧ SingleNode.LogEntries log' = SingleNode.LogEntries log ++ extra.
Proof.
  intros Hlog. destruct r as [k msg|offsets|offsets|keys]; cbn [logs_after].
  - unfold SingleNode.send. destruct (decide (k = key)) as [->|Hne].
    + rewrite Hlog. destruct (last (SingleNode.LogEntries log)) as [prev|]; cbn.
      * eexists _, _. rewrite lookup_insert_eq. split; [done|]. done.
      * exists log, []. by rewrite app_nil_r.
    + exists log, []. rewrite app_nil_r. split; [|done].
      destruct (st !! k) as [log0|]; [destruct (last (SingleNode.LogEntries log0))|];
        cbn; try done; by rewrite lookup_insert_ne.
  - exists log, []. by rewrite app_nil_r.
  - eexists _, []. rewrite single_commit_offsets_lookup, Hlog, app_nil_r. done.
  - exists log, []. by rewrite app_nil_r.
Qed.

Lemma logs_after_all_extends key history : ∀ (st : gmap string SingleNode.Log) log,
  st !! key = Some log →
  ∃ log' extra,
    logs_after_all history st !! key = Some log'
    ∧ SingleNode.LogEntries log' = SingleNode.LogEntries log ++ extra.
Proof.
  unfold logs_after_all.
  induction history as [|r history IH]; intros st log Hlog.
  - exists log, []. by rewrite app_nil_r.
  - cbn [fold_left].
    destruct (logs_after_extends key r st log Hlog) as (log1 & extra1 & Hlog1 & Hent1).
    destruct (IH _ log1 Hlog1) as (log2 & extra2 & Hlog2 & Hent2).
    exists log2, (extra1 ++ extra2). split; [done|].
    by rewrite Hent2, Hent1, app_assoc.
Qed.

Lemma send_appends key msg (st st' : gmap string SingleNode.Log) offset :
  SingleNode.send key msg st = Some (offset, st') →
  ∃ log', st' !! key = Some log'
          ∧ SingleNode.LogEntries log' =
              default [] (SingleNode.LogEntries <$> st !! key) ++
                [{| SingleNode.Offset := offset; SingleNode.Message := msg |}].
Proof.
  unfold SingleNode.send. destruct (st !! key) as [log|] eqn:Ek.
  - destruct (last (SingleNode.LogEntries log)) as [prev|]; [|done].
    intros [= <- <-]. eexists. by rewrite lookup_insert_eq.
  - intros [= <- <-]. eexists. by rewrite lookup_insert_eq.
Qed.

(** ** Offsets of sequential sends *)

Section HighestFootprint.
Import LinKV Distributed.
Variable key : string.

Lemma send_step_marker key' msg o pc (kv : store) :
  key' ≠ key →
  (send_step key' msg o pc kv).2 !! offsetKey key = kv !! offsetKey key.
Proof.
  intros Hne.
  assert (Hk : offsetKey key' ≠ offsetKey key).
  { intros H. by apply offsetKey_inj in H. }
  destruct pc as [|old|offset|offset|e|offset e]; cbn [send_step]; try done.
  - unfold callReadInt. destruct o as [|e]; [|by destruct (isKeyDoesNotExist e)].
    unfold ReadInt. by destruct (kv !! offsetKey key').
  - unfold callCompareAndSwap, CompareAndSwap. destruct o as [|e]; [|done].
    destruct (kv !! offsetKey key') as [v|]; [destruct (decide (v = old)); [|done]|];
      cbn [snd]; by apply lookup_insert_ne.
  - unfold callWrite, Write. destruct o as [|e]; [|done].
    cbn [snd]. apply lookup_insert_ne, logEntryKey_ne_offsetKey.
Qed.

Lemma exec_send_marker key' msg os : ∀ pc (kv : store),
  key' ≠ key →
  (exec (send_step key' msg) os pc kv).2 !! offsetKey key = kv !! offsetKey key.
Proof.
  induction os as [|o os IH]; intros pc kv Hne; [done|]. cbn [exec].
  pose proof (send_step_marker key' msg o pc kv Hne) as Hstep.
  destruct (send_step key' msg o pc kv) as [pc' kv']. cbn [snd] in Hstep.
  by rewrite IH.
Qed.

Lemma store_after_all_highest history : ∀ kv : store,
  (∀ ro, ro ∈ history → ¬ sends_key key ro.1) →
  highest key (store_after_all history kv) = highest key kv.
Proof.
  unfold store_after_all, highest.
  induction history as [|[r os] history IH]; intros kv Hh; [done|].
  cbn [fold_left fst snd]. rewrite IH.
  - specialize (Hh (r, os) (list_elem_of_here _ _)). cbn [fst] in Hh.
    destruct r as [k msg|offsets|offsets|keys]; cbn [store_after]; try done.
    + rewrite exec_send_marker; [done|]. intros ->. by apply Hh.
    + rewrite exec_commit_other; [done|]. intros k'.
      apply offsetKey_ne_committedOffsetKey.
  - intros ro Hin. by apply Hh, list_elem_of_further.
Qed.

End HighestFootprint.

Lemma logs_after_all_entries key history :
  ∀ (st : gmap string SingleNode.Log) log,
    (∀ r, r ∈ history → ¬ sends_key key r) →
    st !! key = Some log →
    ∃ log',
      logs_after_all history st !! key = Some log'
      ∧ SingleNode.LogEntries log' = SingleNode.LogEntries log.
Proof.
  unfold logs_after_all.
  induction history as [|r history IH]; intros st log Hh Hlog; [by exists log|].
  cbn [fold_left].
  assert (Hr : ∃ log1, logs_after r st !! key = Some log1
                       ∧ SingleNode.LogEntries log1 = SingleNode.LogEntries log).
  { specialize (Hh r (list_elem_of_here _ _)).
    destruct r as [k msg|offsets|offsets|keys]; cbn [logs_after].
    - cbn in Hh. exists log. split; [|done]. unfold SingleNode.send.
      destruct (st !! k) as [log0|]; [destruct (last (SingleNode.LogEntries log0))|];
        cbn; try done; by rewrite lookup_insert_ne.
    - by exists log.
    - eexists. rewrite single_commit_offsets_lookup, Hlog. done.
    - by exists log. }
  destruct Hr as (log1 & Hlog1 & Hent1).
  destruct (IH (logs_after r st) log1) as (log2 & Hlog2 & Hent2); [|done|].
  - intros r' Hin. by apply Hh, list_elem_of_further.
  - exists log2. split; [done|]. by rewrite Hent2.
Qed.

(** ** Concurrent requests *)

Section OmapInsert.
Context {A B : Type} (f : A → option B).

Lemma omap_length_le (l : list A) : (length (omap f l) <= length l)%nat.
Proof. induction l as [|x l IH]; csimpl; [lia|]. destruct (f x); cbn; lia. Qed.

Lemma omap_insert_same (l : list A) i t t' :
  l !! i = Some t → f t' = f t → omap f (<[i := t']> l) = omap f l.
Proof.
  revert i. induction l as [|x l IH]; intros [|i] Hi Hf; try done; csimpl.
  - injection Hi as ->. by rewrite Hf.
  - by rewrite (IH i Hi Hf).
Qed.

Lemma omap_insert_new (l : list A) i t t' y :
  l !! i = Some t → f t = None → f t' = Some y →
  omap f (<[i := t']> l) ≡ₚ y :: omap f l.
Proof.
  revert i. induction l as [|x l IH]; intros [|i] Hi Hf Hf'; try done; csimpl.
  - injection Hi as ->. by rewrite Hf, Hf'.
  - destruct (f x) as [z|]; [|by apply (IH i)].
    rewrite (IH i Hi Hf Hf'). apply Permutation_swap.
Qed.

Lemma omap_insert_length (l : list A) i t t' :
  l !! i = Some t → (is_Some (f t') ↔ is_Some (f t)) →
  length (omap f (<[i := t']> l)) = length (omap f l).
Proof.
  revert i. induction l as [|x l IH]; intros [|i] Hi Hf; try done; csimpl.
  - injection Hi as ->. destruct (f t) as [y|], (f t') as [y'|]; try done.
    + destruct Hf as [_ Hf]. destruct Hf as [? ?]; [by eexists | done].
    + destruct Hf as [Hf _]. destruct Hf as [? ?]; [by eexists | done].
  - pose proof (IH i Hi Hf) as IH'. destruct (f x); cbn; lia.
Qed.

(** Fewer elements pass [f] than [g] when [g] takes all that [f] takes
    and one more. *)
Lemma omap_length_lt {C} (g : A → option C) (l : list A) i t :
  (∀ x, is_Some (f x) → is_Some (g x)) →
  l !! i = Some t → f t = None → is_Some (g t) →
  (length (omap f l) < length (omap g l))%nat.
Proof.
  intros Hfg. revert i.
  assert (Hle : ∀ l', (length (omap f l') <= length (omap g l'))%nat).
  { induction l' as [|x l' IH]; csimpl; [lia|].
    destruct (f x) as [y|] eqn:Ef.
    - destruct (Hfg x) as [z Hz]; [by rewrite Ef|]. rewrite Hz. cbn. lia.
    - destruct (g x); cbn; lia. }
  induction l as [|x l IH]; intros [|i] Hi Hf [z Hg]; try done; csimpl.
  - injection Hi as ->. rewrite Hf, Hg. cbn. specialize (Hle l). lia.
  - assert (IH' := IH i Hi Hf (ex_intro _ z Hg)).
    destruct (f x) as [y|] eqn:Ef.
    + destruct (Hfg x) as [z' Hz']; [by rewrite Ef|]. rewrite Hz'. cbn. lia.
    + destruct (g x); cbn; lia.
Qed.

End OmapInsert.

Lemma elem_of_list_insert {A} (l : list A) i x y :
  y ∈ <[i := x]> l → y = x ∨ y ∈ l.
Proof.
  revert i. induction l as [|z l IH]; intros [|i] Hy; cbn in Hy.
  - by right.
  - by right.
  - apply elem_of_cons in Hy as [->|Hy]; [by left|]. right. by apply list_elem_of_further.
  - apply elem_of_cons in Hy as [->|Hy]; [right; apply list_elem_of_here|].
    destruct (IH i Hy) as [->|Hin]; [by left|]. right. by apply list_elem_of_further.
Qed.

Section ConcurrentSends.
Import LinKV Distributed.
Variable key : string.
Variable base : Z.
Hypothesis Hbase : GoInt.int_min - 1 <= base.

Lemma claimed_is_send t : is_Some (claimed_of key t) → is_Some (send_pc_on key t).
Proof. unfold claimed_of. destruct (send_pc_on key t); [by eexists | by intros [? ?]]. Qed.

(** A step keeps a task of its kind and key. *)
Lemma task_step_send_pc_on o t (kv : store) :
  is_Some (send_pc_on key (task_step o t kv).1) ↔ is_Some (send_pc_on key t).
Proof.
  destruct t as [k msg pc|offsets pc|r]; cbn [task_step]; [| |done].
  - destruct (send_step k msg o pc kv) as [pc' kv']. cbn.
    destruct (decide (k = key)); split; intros [? ?]; by eexists.
  - by destruct (commit_step o pc kv).
Qed.

Lemma sys_step_sends_to ev (sys : store * list task) :
  sends_to key (sys_step ev sys).2 = sends_to key sys.2.
Proof.
  unfold sys_step. destruct (sys.2 !! ev.1) as [t|] eqn:Et; [|done].
  pose proof (task_step_send_pc_on ev.2 t sys.1) as Hkind.
  destruct (task_step ev.2 t sys.1) as [t' kv']. cbn [fst snd] in *.
  unfold sends_to. by apply (omap_insert_length _ _ _ t).
Qed.

Lemma run_sends_to evs : ∀ sys : store * list task,
  sends_to key (run evs sys).2 = sends_to key sys.2.
Proof.
  unfold run. induction evs as [|ev evs IH]; intros sys; [done|].
  cbn [fold_left]. by rewrite IH, sys_step_sends_to.
Qed.

(** A step that leaves the marker and the taken offsets alone. *)
Lemma send_inv_quiet (kv kv' : store) (ts : list task) i t t' :
  ts !! i = Some t →
  claimed_of key t' = claimed_of key t →
  kv' !! offsetKey key = kv !! offsetKey key →
  (∀ oldOffset, send_pc_on key t' = Some (SendCas oldOffset) →
     kv !! offsetKey key = None → oldOffset = -1) →
  send_inv key base (kv, ts) →
  send_inv key base (kv', <[i := t']> ts).
Proof.
  intros Hi Hclaim Hkv Hcas (Hperm & Hle & Hfresh).
  unfold send_inv, highest in *. cbn [fst snd] in *. rewrite Hkv.
  split_and!; [|done|].
  - unfold claimed. by rewrite (omap_insert_same (claimed_of key) ts i t).
  - intros Hnone t0 old Ht Hpc.
    apply elem_of_list_insert in Ht as [->|Ht]; [by apply Hcas | by apply (Hfresh Hnone t0)].
Qed.

(** The step of a successful swap. *)
Lemma send_inv_claim (kv : store) (ts : list task) i msg oldOffset :
  ts !! i = Some (SendTask key msg (SendCas oldOffset)) →
  oldOffset = highest key kv →
  base + Z.of_nat (sends_to key ts) <= GoInt.int_max →
  send_inv key base (kv, ts) →
  GoInt.add oldOffset 1 = oldOffset + 1
  ∧ send_inv key base
      (<[offsetKey key := oldOffset + 1]> kv,
       <[i := SendTask key msg (SendWrite (oldOffset + 1))]> ts).
Proof.
  intros Hi -> Hn (Hperm & Hle & Hfresh). cbn [fst snd] in *.
  assert (Hpc : send_pc_on key (SendTask key msg (SendCas (highest key kv))) =
                  Some (SendCas (highest key kv))).
  { cbn. by rewrite decide_True. }
  assert (Hlen : (length (claimed key ts) < sends_to key ts)%nat).
  { apply (omap_length_lt (claimed_of key) (send_pc_on key) ts i
             (SendTask key msg (SendCas (highest key kv))));
      [apply claimed_is_send | done | unfold claimed_of; by rewrite Hpc
      | rewrite Hpc; by eexists]. }
  rewrite Hperm, length_seqZ in Hlen.
  split; [apply add_1_no_overflow; lia|].
  assert (Hnew : highest key (<[offsetKey key := highest key kv + 1]> kv) =
                   highest key kv + 1).
  { unfold highest at 1. by rewrite lookup_insert_eq. }
  unfold send_inv. cbn [fst snd]. rewrite Hnew. split_and!; [|lia|].
  - unfold claimed.
    rewrite (omap_insert_new (claimed_of key) ts i
               (SendTask key msg (SendCas (highest key kv)))
               (SendTask key msg (SendWrite (highest key kv + 1)))
               (highest key kv + 1));
      [|done|unfold claimed_of; by rewrite Hpc
       |unfold claimed_of; cbn; by rewrite decide_True].
    fold (claimed key ts). rewrite Hperm.
    replace (highest key kv + 1 - base) with (highest key kv - base + 1) by lia.
    rewrite seqZ_app by lia. rewrite (seqZ_cons _ 1), (seqZ_nil _ (Z.pred 1)) by lia.
    replace (base + 1 + (highest key kv - base)) with (highest key kv + 1) by lia.
    apply Permutation_cons_append.
  - rewrite lookup_insert_eq. done.
Qed.

(** The steps of a send to [key]. *)
Lemma send_step_inv i msg o pc (kv : store) (ts : list task) :
  ts !! i = Some (SendTask key msg pc) →
  base + Z.of_nat (sends_to key ts) <= GoInt.int_max →
  send_inv key base (kv, ts) →
  send_inv key base
    ((send_step key msg o pc kv).2,
     <[i := SendTask key msg (send_step key msg o pc kv).1]> ts).
Proof.
  intros Ei Hn Hinv.
  assert (Hon : ∀ pc', send_pc_on key (SendTask key msg pc') = Some pc').
  { intros pc'. cbn. by rewrite decide_True. }
  assert (Hquiet : ∀ pc' (kv' : store),
            claimed_of key (SendTask key msg pc') = claimed_of key (SendTask key msg pc) →
            kv' !! offsetKey key = kv !! offsetKey key →
            (∀ old, pc' = SendCas old → kv !! offsetKey key = None → old = -1) →
            send_inv key base (kv', <[i := SendTask key msg pc']> ts)).
  { intros pc' kv' Hc Hkv Hcas.
    apply (send_inv_quiet kv kv' ts i (SendTask key msg pc)); try done.
    intros old. rewrite Hon. intros [= ->]. by apply Hcas. }
  assert (Hclaim : ∀ pc', claimed_of key (SendTask key msg pc') =
            match pc' with
            | SendWrite offset | SendOk offset | SendWriteErr offset _ => Some offset
            | _ => None
            end).
  { intros pc'. unfold claimed_of. by rewrite Hon. }
  destruct pc as [|old|offset|offset|e|offset e].
  - (* the read *)
    cbn [send_step]. unfold callReadInt, ReadInt.
    destruct o as [|e].
    + destruct (kv !! offsetKey key) as [v|] eqn:Ev; cbn [fst snd].
      * apply Hquiet; rewrite ?Hclaim; try done; intros old' _ Hnone; congruence.
      * apply Hquiet; rewrite ?Hclaim; try done; by intros old' [= <-] _.
    + destruct (isKeyDoesNotExist e); cbn [fst snd].
      * apply Hquiet; rewrite ?Hclaim; try done; by intros old' [= <-] _.
      * apply Hquiet; by rewrite ?Hclaim.
  - (* the swap *)
    cbn [send_step]. unfold callCompareAndSwap, CompareAndSwap.
    destruct o as [|e]; [|apply Hquiet; by rewrite ?Hclaim].
    destruct (kv !! offsetKey key) as [v|] eqn:Ev.
    + destruct (decide (v = old)) as [->|Hne]; [|apply Hquiet; by rewrite ?Hclaim].
      destruct (send_inv_claim kv ts i msg old Ei) as [-> Hinv']; try done.
      unfold highest. by rewrite Ev.
    + assert (Hold : old = -1).
      { destruct Hinv as (_ & _ & Hfresh).
        apply (Hfresh Ev (SendTask key msg (SendCas old))); [|apply Hon].
        by apply list_elem_of_lookup_2 in Ei. }
      destruct (send_inv_claim kv ts i msg old Ei) as [-> Hinv']; try done.
      unfold highest. by rewrite Ev.
  - (* the write *)
    cbn [send_step]. unfold callWrite, Write. destruct o as [|e]; cbn [fst snd].
    + apply Hquiet; rewrite ?Hclaim; try done.
      apply lookup_insert_ne, not_eq_sym, offsetKey_ne_logEntryKey.
    + apply Hquiet; by rewrite ?Hclaim.
  - cbn [send_step fst snd]. apply Hquiet; by rewrite ?Hclaim.
  - cbn [send_step fst snd]. apply Hquiet; by rewrite ?Hclaim.
  - cbn [send_step fst snd]. apply Hquiet; by rewrite ?Hclaim.
Qed.

Lemma sys_step_inv ev (sys : store * list task) :
  base + Z.of_nat (sends_to key sys.2) <= GoInt.int_max →
  send_inv key base sys →
  send_inv key base (sys_step ev sys).
Proof.
  destruct sys as [kv ts], ev as [i o]. cbn [fst snd]. intros Hn Hinv.
  unfold sys_step. cbn [fst snd].
  destruct (ts !! i) as [t|] eqn:Ei; [|done].
  destruct t as [k msg pc|offsets pc|r]; cbn [task_step].
  - destruct (decide (k = key)) as [->|Hne].
    + pose proof (send_step_inv i msg o pc kv ts Ei Hn Hinv) as Hstep.
      by destruct (send_step key msg o pc kv) as [pc' kv'].
    + pose proof (send_step_marker key k msg o pc kv Hne) as Hmarker.
      destruct (send_step k msg o pc kv) as [pc' kv']. cbn [snd] in Hmarker.
      apply (send_inv_quiet kv kv' ts i (SendTask k msg pc)); try done.
      * unfold claimed_of. cbn. by rewrite !decide_False.
      * intros old. cbn. by rewrite decide_False.
  - pose proof (commit_step_other o pc kv (offsetKey key)) as Hmarker.
    destruct (commit_step o pc kv) as [pc' kv']. cbn [snd] in Hmarker.
    apply (send_inv_quiet kv kv' ts i (CommitTask offsets pc)); try done.
    apply Hmarker. intros k'. apply offsetKey_ne_committedOffsetKey.
  - by apply (send_inv_quiet kv kv ts i (ReadTask r)).
Qed.

Lemma run_inv evs : ∀ sys : store * list task,
  base + Z.of_nat (sends_to key sys.2) <= GoInt.int_max →
  send_inv key base sys →
  send_inv key base (run evs sys).
Proof.
  unfold run. induction evs as [|ev evs IH]; intros sys Hn Hinv; [done|].
  cbn [fold_left]. apply IH.
  - by rewrite sys_step_sends_to.
  - by apply sys_step_inv.
Qed.

End ConcurrentSends.

Lemma sys_step_task (done rest : list Distributed.task) key msg pc o
    (kv : gmap string Z) :
  Distributed.sys_step (length done, o)
    (kv, done ++ Distributed.SendTask key msg pc :: rest) =
    ((Distributed.send_step key msg o pc kv).2,
     done ++ Distributed.SendTask key msg (Distributed.send_step key msg o pc kv).1
          :: rest).
Proof.
  unfold Distributed.sys_step. cbn [fst snd].
  rewrite list_lookup_middle by done. cbn [Distributed.task_step].
  destruct (Distributed.send_step key msg o pc kv) as [pc' kv'].
  replace (length done) with (length done + 0)%nat by lia.
  by rewrite insert_app_r.
Qed.

(** The calls of one send, made in a row, do to the task and the store
    what the handler does on its own. *)
Lemma run_one_task (done rest : list Distributed.task) key msg os :
  ∀ pc (kv : gmap string Z),
    Distributed.run ((λ o, (length done, o)) <$> os)
      (kv, done ++ Distributed.SendTask key msg pc :: rest) =
      ((exec (Distributed.send_step key msg) os pc kv).2,
       done ++ Distributed.SendTask key msg
                 (exec (Distributed.send_step key msg) os pc kv).1 :: rest).
Proof.
  unfold Distributed.run.
  induction os as [|o os IH]; intros pc kv; [done|].
  cbn [fmap list_fmap fold_left exec]. rewrite sys_step_task, IH.
  by destruct (Distributed.send_step key msg o pc kv).
Qed.

Lemma sends_to_cons key r (reqs : list request) :
  Distributed.sends_to key (Distributed.spawn <$> r :: reqs) =
    match r with
    | Send key' _ =>
        if decide (key' = key)
        then S (Distributed.sends_to key (Distributed.spawn <$> reqs))
        else Distributed.sends_to key (Distributed.spawn <$> reqs)
    | _ => Distributed.sends_to key (Distributed.spawn <$> reqs)
    end.
Proof.
  unfold Distributed.sends_to. destruct r as [k m|offs|offs|ks]; csimpl; try done.
  by destruct (decide (k = key)).
Qed.

(** Some interleaving lets every send to [key] return: the one that
    serves their calls one send after the other. *)
Lemma run_all_ok key reqs : ∀ (done : list Distributed.task) (kv : gmap string Z),
  GoInt.int_min - 1 <= highest key kv →
  highest key kv + Z.of_nat (Distributed.sends_to key (Distributed.spawn <$> reqs))
    <= GoInt.int_max →
  ∃ evs ts',
    (Distributed.run evs (kv, done ++ (Distributed.spawn <$> reqs))).2 = done ++ ts'
    ∧ Distributed.sends_ok key ts' = true.
Proof.
  induction reqs as [|r reqs IH]; intros done kv Hlo Hhi.
  - exists [], []. done.
  - rewrite sends_to_cons in Hhi.
    assert (Hother : Distributed.send_pc_on key (Distributed.spawn r) = None →
              highest key kv
                + Z.of_nat (Distributed.sends_to key (Distributed.spawn <$> reqs))
                <= GoInt.int_max →
              ∃ evs ts',
                (Distributed.run evs
                   (kv, done ++ (Distributed.spawn <$> r :: reqs))).2 = done ++ ts'
                ∧ Distributed.sends_ok key ts' = true).
    { intros Hnone Hhi'.
      destruct (IH (done ++ [Distributed.spawn r]) kv Hlo Hhi')
        as (evs & ts' & Hevs & Hok).
      exists evs, (Distributed.spawn r :: ts'). split.
      - rewrite <- app_assoc in Hevs. cbn [app] in Hevs.
        change (Distributed.spawn <$> r :: reqs)
          with (Distributed.spawn r :: (Distributed.spawn <$> reqs)).
        rewrite Hevs. by rewrite <- app_assoc.
      - unfold Distributed.sends_ok in *. cbn [forallb]. by rewrite Hnone, Hok. }
    destruct r as [k msg|offs|offs|ks]; try (by apply Hother).
    destruct (decide (k = key)) as [->|Hne];
      [|apply Hother; [cbn; by rewrite decide_False | done]].
    clear Hother.
    assert (Hb : GoInt.int_min - 1 <= highest key kv < GoInt.int_max) by lia.
    pose proof (send_alone key msg kv Hb) as Hsend.
    pose proof (highest_after_send key msg kv Hb) as Hnext.
    unfold Distributed.send in Hsend, Hnext.
    pose proof (run_one_task done (Distributed.spawn <$> reqs) key msg
                  [LinKV.Served; LinKV.Served; LinKV.Served]
                  Distributed.SendRead kv) as Hrun.
    rewrite Hsend in Hrun, Hnext. cbn [fst snd] in Hrun, Hnext.
    remember (<[Distributed.logEntryKey key (highest key kv + 1):=msg]>
                (<[Distributed.offsetKey key:=highest key kv + 1]> kv)) as kv1.
    destruct (IH (done ++ [Distributed.SendTask key msg
                             (Distributed.SendOk (highest key kv + 1))]) kv1)
      as (evs & ts' & Hevs & Hok); [lia | lia |].
    exists (((λ o, (length done, o)) <$> [LinKV.Served; LinKV.Served; LinKV.Served])
              ++ evs),
      (Distributed.SendTask key msg (Distributed.SendOk (highest key kv + 1)) :: ts').
    split.
    + unfold Distributed.run in *. rewrite fold_left_app.
      change (Distributed.spawn <$> Send key msg :: reqs)
        with (Distributed.SendTask key msg Distributed.SendRead
                :: (Distributed.spawn <$> reqs)).
      rewrite Hrun. rewrite <- app_assoc in Hevs. cbn [app] in Hevs.
      rewrite Hevs. by rewrite <- app_assoc.
    + unfold Distributed.sends_ok in *. cbn [forallb Distributed.send_pc_on].
      by rewrite decide_True, Hok.
Qed.

Lemma replied_sublist_claimed key (ts : list Distributed.task) :
  Distributed.replied key ts `sublist_of` Distributed.claimed key ts.
Proof.
  unfold Distributed.replied, Distributed.claimed,
    Distributed.replied_of, Distributed.claimed_of.
  induction ts as [|t ts IH]; csimpl; [constructor|].
  destruct (Distributed.send_pc_on key t) as [[]|]; cbn; try done; by constructor.
Qed.

Lemma sends_ok_replied key (ts : list Distributed.task) :
  Distributed.sends_ok key ts = true →
  Distributed.replied key ts = Distributed.claimed key ts
  ∧ length (Distributed.claimed key ts) = Distributed.sends_to key ts.
Proof.
  unfold Distributed.sends_ok, Distributed.replied, Distributed.claimed,
    Distributed.sends_to, Distributed.replied_of, Distributed.claimed_of.
  induction ts as [|t ts IH]; [done|].
  cbn [forallb]. intros [Hpc Hts]%andb_prop. destruct (IH Hts) as [IH1 IH2].
  csimpl. destruct (Distributed.send_pc_on key t) as [[]|]; try done.
  cbn. by rewrite IH1, IH2.
Qed.

Lemma send_inv_start key (kv : gmap string Z) (reqs : list request) :
  send_inv key (highest key kv) (kv, Distributed.spawn <$> reqs).
Proof.
  unfold send_inv. cbn [fst snd]. split_and!.
  - rewrite Z.sub_diag. cbn. unfold Distributed.claimed, Distributed.claimed_of.
    induction reqs as [|r reqs IH]; [done|]. csimpl.
    destruct r as [k m|offs|offs|ks]; cbn; try done.
    by destruct (decide (k = key)).
  - lia.
  - intros _ t old Ht Hpc.
    apply list_elem_of_fmap in Ht as (r & -> & _).
    destruct r as [k m|offs|offs|ks]; cbn in Hpc; try done.
    by destruct (decide (k = key)).
Qed.

Lemma seqZ_gap_free (l : list Z) first n : l ≡ₚ seqZ first n → gap_free l.
Proof.
  intros Hperm a b o Ha Hb Hab. rewrite Hperm in *.
  apply elem_of_seqZ in Ha, Hb. apply elem_of_seqZ. lia.
Qed.

(** C1, as the code has it: requests of any kind run concurrently, sends
    to any key, commits and reads among them, and the substrate serves or
    fails their calls in any interleaving. Whatever calls fail, no offset
    of a key is returned twice and every returned offset lies in the range
    that the sends to the key can take; when every send to the key has
    returned an offset, the returned offsets are exactly the consecutive
    offsets after the marker the requests started from, without a gap; and
    some interleaving lets every send to the key return. *)
Theorem concurrent_sends_offsets (key : string) (reqs : list request)
    (kv : gmap string Z) (evs : list (nat * LinKV.outcome)) :
  GoInt.int_min - 1 <= highest key kv →
  highest key kv + Z.of_nat (Distributed.sends_to key (Distributed.spawn <$> reqs))
    <= GoInt.int_max →
  NoDup (Distributed.replied key
           (Distributed.run evs (kv, Distributed.spawn <$> reqs)).2)
  ∧ (∀ o, o ∈ Distributed.replied key
                (Distributed.run evs (kv, Distributed.spawn <$> reqs)).2 →
          highest key kv < o
            <= highest key kv
                 + Z.of_nat (Distributed.sends_to key (Distributed.spawn <$> reqs)))
  ∧ (Distributed.sends_ok key
       (Distributed.run evs (kv, Distributed.spawn <$> reqs)).2 = true →
     Distributed.replied key
       (Distributed.run evs (kv, Distributed.spawn <$> reqs)).2
       ≡ₚ seqZ (highest key kv + 1)
            (Z.of_nat (Distributed.sends_to key (Distributed.spawn <$> reqs)))
     ∧ gap_free (Distributed.replied key
                   (Distributed.run evs (kv, Distributed.spawn <$> reqs)).2))
  ∧ (∃ evs',
       Distributed.sends_ok key
         (Distributed.run evs' (kv, Distributed.spawn <$> reqs)).2 = true).
Proof.
  intros Hlo Hhi.
  assert (Hlive : ∃ evs',
            Distributed.sends_ok key
              (Distributed.run evs' (kv, Distributed.spawn <$> reqs)).2 = true).
  { destruct (run_all_ok key reqs [] kv Hlo Hhi) as (evs' & ts' & Hrun & Hok).
    exists evs'. cbn [app] in Hrun. by rewrite Hrun. }
  pose proof (run_inv key (highest key kv) Hlo evs
                (kv, Distributed.spawn <$> reqs) Hhi (send_inv_start key kv reqs))
    as Hinv.
  pose proof (run_sends_to key evs (kv, Distributed.spawn <$> reqs)) as Hlen.
  cbn [snd] in Hlen.
  remember (Distributed.sends_to key (Distributed.spawn <$> reqs)) as n eqn:En.
  clear En.
  destruct (Distributed.run evs (kv, Distributed.spawn <$> reqs)) as [kv' ts].
  destruct Hinv as (Hperm & Hle & _). cbn [fst snd] in *.
  pose proof (replied_sublist_claimed key ts) as Hsub.
  assert (Hcl : (length (Distributed.claimed key ts) <= n)%nat).
  { destruct (decide (length (Distributed.claimed key ts) <= n)%nat) as [|Hgt];
      [done|exfalso].
    rewrite <- Hlen in Hgt. apply Hgt. clear.
    unfold Distributed.claimed, Distributed.sends_to, Distributed.claimed_of.
    induction ts as [|t ts IH]; csimpl; [lia|].
    destruct (Distributed.send_pc_on key t) as [[]|]; cbn; lia. }
  assert (Hcount : highest key kv' - highest key kv <= Z.of_nat n).
  { rewrite Hperm, length_seqZ in Hcl. lia. }
  split_and!.
  - apply (sublist_NoDup _ (Distributed.claimed key ts)); [|done].
    rewrite Hperm. apply NoDup_seqZ.
  - intros o Ho. apply (elem_of_sublist _ _ _ Ho) in Hsub. clear Ho. rename Hsub into Ho.
    rewrite Hperm in Ho. apply elem_of_seqZ in Ho. lia.
  - intros Hok. destruct (sends_ok_replied key ts Hok) as [Hrep Hall].
    assert (Hperm' : Distributed.replied key ts
                       ≡ₚ seqZ (highest key kv + 1) (Z.of_nat n)).
    { rewrite Hrep, Hperm. f_equiv.
      rewrite Hperm, length_seqZ in Hall. lia. }
    split; [done | by apply seqZ_gap_free in Hperm'].
  - exact Hlive.
Qed.

Lemma concurrent_sends_offsets_witness :
  NoDup (Distributed.replied "x"
           (Distributed.run
              [(0%nat, LinKV.Served); (3%nat, LinKV.Served); (3%nat, LinKV.Served);
               (1%nat, LinKV.Served); (2%nat, LinKV.Served); (0%nat, LinKV.Served);
               (2%nat, LinKV.Fails (RPCError 11)); (0%nat, LinKV.Served);
               (0%nat, LinKV.Served); (3%nat, LinKV.Served); (0%nat, LinKV.Served);
               (1%nat, LinKV.Served); (1%nat, LinKV.Served)]
              (∅, Distributed.spawn <$>
                    [Send "x" 10; Send "y" 5; CommitOffsets [("x", 1)];
                     Send "x" 20])).2)
  ∧ Distributed.replied "x"
      (Distributed.run
         [(0%nat, LinKV.Served); (3%nat, LinKV.Served); (3%nat, LinKV.Served);
          (1%nat, LinKV.Served); (2%nat, LinKV.Served); (0%nat, LinKV.Served);
          (2%nat, LinKV.Fails (RPCError 11)); (0%nat, LinKV.Served);
          (0%nat, LinKV.Served); (3%nat, LinKV.Served); (0%nat, LinKV.Served);
          (1%nat, LinKV.Served); (1%nat, LinKV.Served)]
         (∅, Distributed.spawn <$>
               [Send "x" 10; Send "y" 5; CommitOffsets [("x", 1)];
                Send "x" 20])).2
      ≡ₚ seqZ (highest "x" ∅ + 1) 2.
Proof.
  destruct (concurrent_sends_offsets "x"
              [Send "x" 10; Send "y" 5; CommitOffsets [("x", 1)]; Send "x" 20] ∅
              [(0%nat, LinKV.Served); (3%nat, LinKV.Served); (3%nat, LinKV.Served);
               (1%nat, LinKV.Served); (2%nat, LinKV.Served); (0%nat, LinKV.Served);
               (2%nat, LinKV.Fails (RPCError 11)); (0%nat, LinKV.Served);
               (0%nat, LinKV.Served); (3%nat, LinKV.Served); (0%nat, LinKV.Served);
               (1%nat, LinKV.Served); (1%nat, LinKV.Served)])
    as (Hnodup & _ & Hall & _).
  - vm_compute. discriminate.
  - vm_compute. discriminate.
  - split; [exact Hnodup|]. apply Hall. vm_compute. reflexivity.
Defined.

(** C1, as stated, fails: three concurrent sends on a fresh key take the
    offsets 0, 1 and 2; the entry write of the call that took 1 fails, the
    call returns the error, and the offsets returned to callers are 0 and
    2, which leaves a gap. *)
Lemma failed_write_leaves_gap :
  Distributed.all_finished
    (Distributed.run
       [(0%nat, LinKV.Served); (1%nat, LinKV.Served); (2%nat, LinKV.Served);
        (0%nat, LinKV.Served); (1%nat, LinKV.Served); (2%nat, LinKV.Served);
        (1%nat, LinKV.Served); (1%nat, LinKV.Served);
        (2%nat, LinKV.Served); (2%nat, LinKV.Served);
        (0%nat, LinKV.Served); (1%nat, LinKV.Fails OtherError);
        (2%nat, LinKV.Served)]
       (∅, Distributed.spawn <$> [Send "x" 10; Send "x" 20; Send "x" 30])).2 = true
  ∧ Distributed.replied "x"
      (Distributed.run
         [(0%nat, LinKV.Served); (1%nat, LinKV.Served); (2%nat, LinKV.Served);
          (0%nat, LinKV.Served); (1%nat, LinKV.Served); (2%nat, LinKV.Served);
          (1%nat, LinKV.Served); (1%nat, LinKV.Served);
          (2%nat, LinKV.Served); (2%nat, LinKV.Served);
          (0%nat, LinKV.Served); (1%nat, LinKV.Fails OtherError);
          (2%nat, LinKV.Served)]
         (∅, Distributed.spawn <$> [Send "x" 10; Send "x" 20; Send "x" 30])).2
      = [0; 2]
  ∧ ¬ gap_free [0; 2].
Proof.
  split_and!; [vm_compute; reflexivity | vm_compute; reflexivity |].
  intros Hgap.
  assert (H1 : 1 ∈ [0; 2]).
  { apply (Hgap 0 2 1); [apply list_elem_of_here | | lia].
    apply list_elem_of_further, list_elem_of_here. }
  repeat (apply elem_of_cons in H1 as [H1 | H1]; [discriminate|]).
  by apply not_elem_of_nil in H1.
Qed.

(** ** Concurrent commits *)








Section ConcurrentCommits.
Import LinKV Distributed.
Variable key : string.












End ConcurrentCommits.






(** ** The committed offset after commits *)





(** ** The transaction store *)

Section TxnProperties.
Import Txn.
Context {float64 : Type} (int : float64 → Z).

Lemma is_string_r_w (a : any float64) :
  is_string a "r" = true → is_string a "w" = false.
Proof.
  destruct a as [|b|f|s|l|m|i]; cbn; try done.
  intros Hr. apply bool_decide_eq_true in Hr as ->. done.
Qed.

Lemma txn_loop_acc Transaction : ∀ acc (kv : gmap Z Z),
  txn_loop int Transaction acc kv =
    (λ r : list (list (any float64)) * gmap Z Z, (acc ++ r.1, r.2))
      <$> txn_loop int Transaction [] kv.
Proof.
  induction Transaction as [|op ops IH]; intros acc kv; cbn [txn_loop].
  - cbn. by rewrite app_nil_r.
  - destruct (txn_op int op kv) as [[[op'|] kv']|]; [| |done].
    + rewrite (IH (acc ++ [op'])), (IH ([] ++ [op'])).
      destruct (txn_loop int ops [] kv') as [[res kv'']|]; cbn; [|done].
      by rewrite <- app_assoc.
    + apply IH.
Qed.

Lemma txn_cons op ops (kv : gmap Z Z) :
  txn int (op :: ops) kv =
    match txn_op int op kv with
    | Some (r, kv') =>
        match txn int ops kv' with
        | Some (res, kv'') =>
            Some (match r with Some op' => op' :: res | None => res end, kv'')
        | None => None
        end
    | None => None
    end.
Proof.
  unfold txn. cbn [txn_loop].
  destruct (txn_op int op kv) as [[[op'|] kv']|]; [| |done].
  - rewrite txn_loop_acc. by destruct (txn_loop int ops [] kv') as [[res kv'']|].
  - by destruct (txn_loop int ops [] kv') as [[res kv'']|].
Qed.

(** What an operation does to the store. *)
Lemma txn_op_store op (kv kv' : gmap Z Z) r :
  txn_op int op kv = Some (r, kv') →
  kv' = match write_of int op with
        | Some w => <[w.1 := w.2]> kv
        | None => kv
        end.
Proof.
  unfold txn_op, write_of.
  destruct op as [|a [|b [|c tl]]]; cbn; try done.
  - destruct b; cbn; try (by intros [= <- <-]).
    destruct (is_string a "r") eqn:Er.
    + destruct (kv !! int f); [done | by intros [= <- <-]].
    + destruct (is_string a "w"); [done | by intros [= <- <-]].
  - destruct b; cbn; try (by destruct c; intros [= <- <-]).
    destruct (is_string a "r") eqn:Er.
    + rewrite (is_string_r_w a Er).
      destruct (kv !! int f); destruct c; by intros [= <- <-].
    + destruct (is_string a "w"); destruct c; by intros [= <- <-].
Qed.

(** What an operation appends to the reply. *)
Lemma txn_op_reply op (kv kv' : gmap Z Z) r :
  txn_op int op kv = Some (r, kv') →
  match r with
  | Some op' =>
      keyed op = true
      ∧ (op' = op
         ∨ ∃ f val, op !! 0%nat = Some (AString "r")
                    ∧ op !! 1%nat = Some (AFloat64 f)
                    ∧ kv !! int f = Some val
                    ∧ op' = <[2%nat := AInt val]> op)
  | None => keyed op = false
  end.
Proof.
  unfold txn_op, keyed.
  destruct (op !! 1%nat) as [b|] eqn:E1; [|done].
  destruct b; try (by intros [= <- <-]).
  destruct (op !! 0%nat) as [a|] eqn:E0; [|done].
  destruct (is_string a "r") eqn:Er.
  - destruct (kv !! int f) as [val|] eqn:Ekv; [|intros [= <- <-]; split; [done | by left]].
    destruct (op !! 2%nat); [|done]. intros [= <- <-]. split; [done|]. right.
    exists f, val. split_and!; try done.
    destruct a; try done. cbn in Er. by apply bool_decide_eq_true in Er as ->.
  - destruct (is_string a "w").
    + destruct (op !! 2%nat) as [c|]; [|done].
      destruct c; intros [= <- <-]; (split; [done | by left]).
    + intros [= <- <-]. split; [done | by left].
Qed.

Lemma apply_writes_app ws1 ws2 (kv : gmap Z Z) :
  apply_writes (ws1 ++ ws2) kv = apply_writes ws2 (apply_writes ws1 kv).
Proof. unfold apply_writes. apply fold_left_app. Qed.

Lemma apply_writes_other ws : ∀ (kv : gmap Z Z) k,
  (∀ w, w ∈ ws → w.1 ≠ k) → apply_writes ws kv !! k = kv !! k.
Proof.
  unfold apply_writes. induction ws as [|w ws IH]; intros kv k Hws; [done|].
  cbn [fold_left]. rewrite IH.
  - apply lookup_insert_ne, Hws, list_elem_of_here.
  - intros w' Hw'. by apply Hws, list_elem_of_further.
Qed.

Lemma apply_writes_dom ws : ∀ kv : gmap Z Z, dom kv ⊆ dom (apply_writes ws kv).
Proof.
  unfold apply_writes. induction ws as [|w ws IH]; intros kv; [done|].
  cbn [fold_left]. etrans; [|apply IH]. rewrite dom_insert. set_solver.
Qed.

Lemma txn_store_after Transaction : ∀ (kv kv' : gmap Z Z) res,
  txn int Transaction kv = Some (res, kv') →
  kv' = apply_writes (writes int Transaction) kv.
Proof.
  induction Transaction as [|op ops IH]; intros kv kv' res.
  - by intros [= <- <-].
  - rewrite txn_cons.
    destruct (txn_op int op kv) as [[r kv1]|] eqn:Eop; [|done].
    destruct (txn int ops kv1) as [[res1 kv2]|] eqn:Eops; [|done].
    intros [= <- <-]. rewrite (IH _ _ _ Eops), (txn_op_store _ _ _ _ Eop).
    unfold writes. csimpl. by destruct (write_of int op).
Qed.

Lemma txn_append ops1 : ∀ ops2 (kv : gmap Z Z),
  txn int (ops1 ++ ops2) kv =
    match txn int ops1 kv with
    | Some (res1, kv1) =>
        match txn int ops2 kv1 with
        | Some (res2, kv2) => Some (res1 ++ res2, kv2)
        | None => None
        end
    | None => None
    end.
Proof.
  induction ops1 as [|op ops1 IH]; intros ops2 kv.
  - cbn [app]. change (txn int [] kv) with (Some ([] : list (list (any float64)), kv)).
    cbn beta iota. by destruct (txn int ops2 kv) as [[res2 kv2]|].
  - cbn [app]. rewrite !txn_cons.
    destruct (txn_op int op kv) as [[r kv']|]; [|done]. rewrite IH.
    destruct (txn int ops1 kv') as [[res1 kv1]|]; [|done].
    destruct (txn int ops2 kv1) as [[res2 kv2]|]; [|done].
    by destruct r.
Qed.

(** X16: a transaction of the operations [ops1] followed by [ops2] replies
    and leaves the store as the transaction [ops1] followed by the
    transaction [ops2], and panics when one of the two does. *)
Theorem txn_composes ops1 : ∀ ops2 (kv : gmap Z Z),
  txn int (ops1 ++ ops2) kv =
    match txn int ops1 kv with
    | Some (res1, kv1) =>
        match txn int ops2 kv1 with
        | Some (res2, kv2) => Some (res1 ++ res2, kv2)
        | None => None
        end
    | None => None
    end.
Proof. apply txn_append. Qed.

(** X17: the reply holds, in the order of the request, the operations
    whose second element is a number, each as it was sent or, for a read
    of a key that has a value, with that value as its third element; the
    other operations are left out. *)
Theorem txn_reply_shape Transaction : ∀ (kv kv' : gmap Z Z) res,
  txn int Transaction kv = Some (res, kv') →
  Forall2 (λ op' op,
             op' = op
             ∨ ∃ val, op !! 0%nat = Some (AString "r")
                      ∧ op' = <[2%nat := AInt val]> op)
    res (List.filter keyed Transaction)
  ∧ (length res <= length Transaction)%nat.
Proof.
  induction Transaction as [|op ops IH]; intros kv kv' res.
  - intros [= <- <-]. split; [constructor | done].
  - rewrite txn_cons.
    destruct (txn_op int op kv) as [[r kv1]|] eqn:Eop; [|done].
    destruct (txn int ops kv1) as [[res1 kv2]|] eqn:Eops; [|done].
    intros [= <- <-]. destruct (IH _ _ _ Eops) as [IH1 IH2].
    pose proof (txn_op_reply _ _ _ _ Eop) as Hr. cbn [List.filter length].
    destruct r as [op'|].
    + destruct Hr as [-> Hop']. split; [|cbn [length]; lia].
      constructor; [|done].
      destruct Hop' as [->|(f & val & H0 & _ & _ & ->)]; [by left|].
      right. by exists val.
    + rewrite Hr. split; [done | lia].
Qed.

(** X18: the store after a transaction is the store before it with the
    writes of numbers under number keys applied in order; nothing else
    changes it, no key is ever removed, and a transaction without such a
    write leaves the store as it was. *)
Theorem txn_store Transaction (kv kv' : gmap Z Z) res :
  txn int Transaction kv = Some (res, kv') →
  kv' = apply_writes (writes int Transaction) kv
  ∧ dom kv ⊆ dom kv'
  ∧ (writes int Transaction = [] → kv' = kv).
Proof.
  intros Htxn. apply txn_store_after in Htxn as ->. split_and!; [done| |].
  - apply apply_writes_dom.
  - by intros ->.
Qed.

Lemma txn_op_read f x tl (kv : gmap Z Z) :
  txn_op int (AString "r" :: AFloat64 f :: x :: tl) kv =
    Some (Some (AString "r" :: AFloat64 f
                  :: match kv !! int f with
                     | Some val => AInt val
                     | None => x
                     end :: tl), kv).
Proof. unfold txn_op. cbn. by destruct (kv !! int f). Qed.

Lemma txn_read_value ops1 ops2 f x tl (kv kv' : gmap Z Z) res :
  txn int (ops1 ++ (AString "r" :: AFloat64 f :: x :: tl) :: ops2) kv = Some (res, kv') →
  (AString "r" :: AFloat64 f
     :: match apply_writes (writes int ops1) kv !! int f with
        | Some val => AInt val
        | None => x
        end :: tl) ∈ res.
Proof.
  rewrite txn_append.
  destruct (txn int ops1 kv) as [[res1 kv1]|] eqn:E1; [|done].
  apply txn_store_after in E1 as ->.
  rewrite txn_cons, txn_op_read.
  destruct (txn int ops2 (apply_writes (writes int ops1) kv)) as [[res2 kv2]|]; [|done].
  intros [= <- <-]. apply elem_of_app. right. apply list_elem_of_here.
Qed.

(** X19: a read gets the value that the store holds for its key after the
    writes that precede it in the transaction; when there is none, the
    operation comes back as it was sent. *)
Theorem txn_read_observes ops1 ops2 f x tl (kv kv' : gmap Z Z) res :
  txn int (ops1 ++ (AString "r" :: AFloat64 f :: x :: tl) :: ops2) kv = Some (res, kv') →
  (AString "r" :: AFloat64 f
     :: match apply_writes (writes int ops1) kv !! int f with
        | Some val => AInt val
        | None => x
        end :: tl) ∈ res.
Proof. apply txn_read_value. Qed.

(** X20: read your writes.  A read that follows a write of a number to the
    same key in the same transaction, with no other write to that key in
    between, comes back with the written value. *)
Theorem txn_read_your_writes ops1 ops2 ops3 f v tl f' x tl'
    (kv kv' : gmap Z Z) res :
  int f' = int f →
  (∀ w, w ∈ writes int ops2 → w.1 ≠ int f) →
  txn int (ops1 ++ (AString "w" :: AFloat64 f :: AFloat64 v :: tl)
             :: ops2 ++ (AString "r" :: AFloat64 f' :: x :: tl') :: ops3) kv =
    Some (res, kv') →
  (AString "r" :: AFloat64 f' :: AInt (int v) :: tl') ∈ res.
Proof.
  intros Hf Hnone Htxn.
  change (ops1 ++ (AString "w" :: AFloat64 f :: AFloat64 v :: tl)
            :: ops2 ++ (AString "r" :: AFloat64 f' :: x :: tl') :: ops3)
    with (ops1 ++ ([AString "w" :: AFloat64 f :: AFloat64 v :: tl]
            ++ ops2 ++ (AString "r" :: AFloat64 f' :: x :: tl') :: ops3)) in Htxn.
  rewrite !app_assoc in Htxn. apply txn_read_value in Htxn.
  unfold writes in Htxn. rewrite !omap_app in Htxn.
  rewrite !apply_writes_app in Htxn. rewrite Hf in Htxn.
  rewrite apply_writes_other in Htxn by done.
  cbn in Htxn. rewrite bool_decide_eq_true_2 in Htxn by done.
  cbn in Htxn. by rewrite lookup_insert_eq in Htxn.
Qed.

(** X21: a transaction whose operations all have three elements or more
    never panics; an operation with fewer than two elements panics, and
    so do a write to a number key and a read of a key that has a value
    when they have no third element. *)
Theorem txn_panics (kv : gmap Z Z) :
  (∀ Transaction,
     (∀ op, op ∈ Transaction → (3 <= length op)%nat) →
     is_Some (txn int Transaction kv))
  ∧ (∀ ops1 op ops2 res kv1,
       txn int ops1 kv = Some (res, kv1) →
       (length op < 2)%nat →
       txn int (ops1 ++ op :: ops2) kv = None)
  ∧ (∀ ops1 ops2 res kv1 f,
       txn int ops1 kv = Some (res, kv1) →
       txn int (ops1 ++ [AString "w"; AFloat64 f] :: ops2) kv = None)
  ∧ (∀ ops1 ops2 res kv1 f,
       txn int ops1 kv = Some (res, kv1) →
       is_Some (kv1 !! int f) →
       txn int (ops1 ++ [AString "r"; AFloat64 f] :: ops2) kv = None).
Proof.
  split_and!.
  - intros Transaction. revert kv.
    induction Transaction as [|op ops IH]; intros kv Hlen; [by eexists|].
    rewrite txn_cons.
    assert (Hop : is_Some (txn_op int op kv)).
    { assert (H3 := Hlen op (list_elem_of_here _ _)).
      destruct op as [|a [|b [|c tl]]]; cbn in H3; try lia.
      unfold txn_op. cbn. destruct b; try by eexists.
      destruct (is_string a "r").
      - destruct (kv !! int f); by eexists.
      - destruct (is_string a "w"); [destruct c|]; by eexists. }
    destruct Hop as [[r kv1] ->].
    destruct (IH kv1) as [[res kv2] ->]; [|by eexists].
    intros op' Hop'. by apply Hlen, list_elem_of_further.
  - intros ops1 op ops2 res kv1 H1 Hlen. rewrite txn_append, H1, txn_cons.
    destruct op as [|a [|b tl]]; cbn in Hlen; try lia; done.
  - intros ops1 ops2 res kv1 f H1. by rewrite txn_append, H1, txn_cons.
  - intros ops1 ops2 res kv1 f H1 [val Hval]. rewrite txn_append, H1, txn_cons.
    unfold txn_op. cbn. by rewrite Hval.
Qed.

End TxnProperties.

Lemma txn_reply_shape_witness :
  Forall2 (λ op' op : list (Txn.any Z),
             op' = op
             ∨ ∃ val, op !! 0%nat = Some (Txn.AString "r")
                      ∧ op' = <[2%nat := Txn.AInt val]> op)
    [[Txn.AString "w"; Txn.AFloat64 1; Txn.AFloat64 5];
     [Txn.AString "r"; Txn.AFloat64 1; Txn.AInt 5]]
    (List.filter Txn.keyed
       [[Txn.AString "w"; Txn.AFloat64 1; Txn.AFloat64 5];
        [Txn.AString "r"; Txn.AString "x"; Txn.ANil];
        [Txn.AString "r"; Txn.AFloat64 1; Txn.ANil]])
  ∧ (2 <= 3)%nat.
Proof.
  apply (txn_reply_shape id
           [[Txn.AString "w"; Txn.AFloat64 1; Txn.AFloat64 5];
            [Txn.AString "r"; Txn.AString "x"; Txn.ANil];
            [Txn.AString "r"; Txn.AFloat64 1; Txn.ANil]]
           ∅ {[ 1 := 5 ]}).
  vm_compute. reflexivity.
Defined.

Lemma txn_store_witness :
  ({[ 1 := 7 ]} : gmap Z Z) =
    Txn.apply_writes
      (Txn.writes id
         [[Txn.AString "w"; Txn.AFloat64 1; Txn.AFloat64 5];
          [Txn.AString "w"; Txn.AFloat64 2; Txn.AString "six"];
          [Txn.AString "w"; Txn.AFloat64 1; Txn.AFloat64 7]]) ∅
  ∧ dom (∅ : gmap Z Z) ⊆ dom ({[ 1 := 7 ]} : gmap Z Z)
  ∧ (Txn.writes id
       [[Txn.AString "w"; Txn.AFloat64 1; Txn.AFloat64 5];
        [Txn.AString "w"; Txn.AFloat64 2; Txn.AString "six"];
        [Txn.AString "w"; Txn.AFloat64 1; Txn.AFloat64 7]] = [] →
     ({[ 1 := 7 ]} : gmap Z Z) = ∅).
Proof.
  apply (txn_store id
           [[Txn.AString "w"; Txn.AFloat64 1; Txn.AFloat64 5];
            [Txn.AString "w"; Txn.AFloat64 2; Txn.AString "six"];
            [Txn.AString "w"; Txn.AFloat64 1; Txn.AFloat64 7]]
           ∅ {[ 1 := 7 ]}
           [[Txn.AString "w"; Txn.AFloat64 1; Txn.AFloat64 5];
            [Txn.AString "w"; Txn.AFloat64 2; Txn.AString "six"];
            [Txn.AString "w"; Txn.AFloat64 1; Txn.AFloat64 7]]).
  vm_compute. reflexivity.
Defined.

Lemma txn_read_observes_witness :
  [Txn.AString "r"; Txn.AFloat64 1;
   match Txn.apply_writes
           (Txn.writes id [[Txn.AString "r"; Txn.AFloat64 2; Txn.ANil]])
           ({[ 1 := 5 ]} : gmap Z Z) !! 1 with
   | Some val => Txn.AInt val
   | None => Txn.ANil
   end]
    ∈ [[Txn.AString "r"; Txn.AFloat64 2; Txn.ANil];
       [Txn.AString "r"; Txn.AFloat64 1; Txn.AInt 5]].
Proof.
  apply (txn_read_observes id [[Txn.AString "r"; Txn.AFloat64 2; Txn.ANil]] []
           1 Txn.ANil [] {[ 1 := 5 ]} {[ 1 := 5 ]}).
  vm_compute. reflexivity.
Defined.

Lemma txn_read_your_writes_witness :
  [Txn.AString "r"; Txn.AFloat64 1; Txn.AInt 5]
    ∈ [[Txn.AString "w"; Txn.AFloat64 1; Txn.AFloat64 5];
       [Txn.AString "w"; Txn.AFloat64 2; Txn.AFloat64 6];
       [Txn.AString "r"; Txn.AFloat64 1; Txn.AInt 5]].
Proof.
  apply (txn_read_your_writes id []
           [[Txn.AString "w"; Txn.AFloat64 2; Txn.AFloat64 6]] []
           1 5 [] 1 Txn.ANil [] ∅ {[ 1 := 5; 2 := 6 ]}).
  - reflexivity.
  - intros w Hw. vm_compute in Hw.
    apply list_elem_of_singleton in Hw as ->. vm_compute. discriminate.
  - vm_compute. reflexivity.
Defined.

Lemma txn_panics_witness :
  is_Some (Txn.txn id [[Txn.AString "r"; Txn.AFloat64 1; Txn.ANil]] ∅)
  ∧ Txn.txn id ([[Txn.AString "w"; Txn.AFloat64 1; Txn.AFloat64 5]]
                  ++ [Txn.AString "r"] :: []) ∅ = None
  ∧ Txn.txn id ([[Txn.AString "w"; Txn.AFloat64 1; Txn.AFloat64 5]]
                  ++ [Txn.AString "r"; Txn.AFloat64 1] :: []) ∅ = None.
Proof.
  destruct (txn_panics id ∅) as (Hsome & Hshort & _ & Hread).
  split_and!.
  - apply Hsome. intros op Hop. apply list_elem_of_singleton in Hop as ->. cbn. lia.
  - apply (Hshort _ _ _ [[Txn.AString "w"; Txn.AFloat64 1; Txn.AFloat64 5]] {[ 1 := 5 ]}).
    + vm_compute. reflexivity.
    + cbn. lia.
  - apply (Hread _ _ [[Txn.AString "w"; Txn.AFloat64 1; Txn.AFloat64 5]] {[ 1 := 5 ]}).
    + vm_compute. reflexivity.
    + vm_compute. by eexists.
Defined.

(** ** The first in-memory program keeps the first message only *)

Lemma first_msg_cons key k msg (reqs : list (string * Z)) :
  first_msg key ((k, msg) :: reqs) =
    if decide (k = key) then Some msg else first_msg key reqs.
Proof. unfold first_msg. csimpl. by destruct (decide (k = key)). Qed.

Lemma draft_sends_logs reqs : ∀ st : gmap string (list SingleNodeDraft.LogEntry),
  (∀ k es, st !! k = Some es → ∃ e, es = [e]) →
  ∃ offsets st',
    draft_sends reqs st = Some (offsets, st')
    ∧ length offsets = length reqs
    ∧ (∀ k es, st' !! k = Some es → ∃ e, es = [e])
    ∧ ∀ key,
        match st !! key with
        | Some es => st' !! key = Some es
        | None =>
            match first_msg key reqs with
            | Some m =>
                ∃ first,
                  st' !! key =
                    Some [{| SingleNodeDraft.Offset := first;
                             SingleNodeDraft.Message := m |}]
            | None => st' !! key = None
            end
        end.
Proof.
  induction reqs as [|[k msg] reqs IH]; intros st Hst.
  - exists [], st. split_and!; try done. intros key. by destruct (st !! key).
  - cbn [draft_sends]. unfold SingleNodeDraft.send.
    destruct (st !! k) as [es|] eqn:Ek.
    + destruct (Hst k es Ek) as [e ->]. cbn [last].
      destruct (IH st Hst) as (offsets & st' & -> & Hlen & Hst' & Hkeys).
      eexists _, st'. split_and!; [done | cbn; by rewrite Hlen | done |].
      intros key. specialize (Hkeys key).
      destruct (st !! key) as [es'|] eqn:Ekey; [done|].
      rewrite first_msg_cons, decide_False; [done|]. intros ->. congruence.
    + set (offset := GoInt.mul (GoInt.add (Z.of_nat (size st)) 1) 1000).
      set (e := {| SingleNodeDraft.Offset := offset; SingleNodeDraft.Message := msg |}).
      destruct (IH (<[k := [e]]> st)) as (offsets & st' & -> & Hlen & Hst' & Hkeys).
      { intros k' es. destruct (decide (k' = k)) as [->|Hne].
        - rewrite lookup_insert_eq. intros [= <-]. by exists e.
        - rewrite lookup_insert_ne by done. apply Hst. }
      eexists _, st'. split_and!; [done | cbn; by rewrite Hlen | done |].
      intros key. specialize (Hkeys key). rewrite first_msg_cons.
      destruct (decide (k = key)) as [->|Hne].
      * rewrite lookup_insert_eq in Hkeys. rewrite Ek. by exists offset.
      * by rewrite lookup_insert_ne in Hkeys.
Qed.

(** X1: in the first in-memory program a send to a key that has a log
    appends to a copy of the slice only.  Whatever pairs a client sends,
    no send panics; afterwards the log of a key holds the message of the
    first send to that key and nothing else, every further send to the
    key is answered with the same offset, one above the first, and leaves
    the map as it is, and a poll of the key returns at most that first
    entry. *)
Theorem draft_sends_keep_first (reqs : list (string * Z)) :
  ∃ offsets st',
    draft_sends reqs ∅ = Some (offsets, st')
    ∧ length offsets = length reqs
    ∧ ∀ key,
        match first_msg key reqs with
        | Some m =>
            ∃ first,
              st' !! key =
                Some [{| SingleNodeDraft.Offset := first;
                         SingleNodeDraft.Message := m |}]
              ∧ (∀ msg, SingleNodeDraft.send key msg st' =
                          Some (GoInt.add first 1, st'))
              ∧ (∀ startOffset,
                   SingleNodeDraft.poll_key st' key startOffset =
                     if first >=? startOffset then Slice [[first; m]] else NilSlice)
        | None => st' !! key = None
        end.
Proof.
  destruct (draft_sends_logs reqs ∅) as (offsets & st' & Hsends & Hlen & _ & Hkeys).
  { intros k es. by rewrite lookup_empty. }
  exists offsets, st'. split_and!; [done | done |].
  intros key. specialize (Hkeys key). rewrite lookup_empty in Hkeys.
  destruct (first_msg key reqs) as [m|]; [|done].
  destruct Hkeys as [first Hlog]. exists first. split_and!; [done| |].
  - intros msg. unfold SingleNodeDraft.send. by rewrite Hlog.
  - intros startOffset. unfold SingleNodeDraft.poll_key. rewrite Hlog. cbn.
    by destruct (first >=? startOffset).
Qed.

(** ** Reachable states of the in-memory variant *)

Lemma single_send_nonempty key msg (st st' : gmap string SingleNode.Log) offset :
  logs_nonempty st →
  SingleNode.send key msg st = Some (offset, st') →
  logs_nonempty st' ∧ dom st' = {[ key ]} ∪ dom st.
Proof.
  intros Hst. unfold SingleNode.send.
  destruct (st !! key) as [log|] eqn:Ekey.
  - destruct (last (SingleNode.LogEntries log)) as [prev|]; [|done].
    intros [= <- <-]. split.
    + intros k log'. destruct (decide (k = key)) as [->|Hne].
      * rewrite lookup_insert_eq. intros [= <-]. cbn. by destruct (SingleNode.LogEntries log).
      * rewrite lookup_insert_ne by done. apply Hst.
    + by rewrite dom_insert_L.
  - intros [= <- <-]. split.
    + intros k log'. destruct (decide (k = key)) as [->|Hne].
      * rewrite lookup_insert_eq. by intros [= <-].
      * rewrite lookup_insert_ne by done. apply Hst.
    + by rewrite dom_insert_L.
Qed.

Lemma single_send_some key msg (st : gmap string SingleNode.Log) :
  logs_nonempty st → is_Some (SingleNode.send key msg st).
Proof.
  intros Hst. unfold SingleNode.send.
  destruct (st !! key) as [log|] eqn:Ekey; [|by eexists].
  destruct (last (SingleNode.LogEntries log)) as [prev|] eqn:Elast; [by eexists|].
  apply last_None in Elast. by destruct (Hst key log Ekey).
Qed.

Lemma single_commit_nonempty offsets (st : gmap string SingleNode.Log) :
  logs_nonempty st →
  logs_nonempty (SingleNode.commit_offsets offsets st)
  ∧ dom (SingleNode.commit_offsets offsets st) = dom st.
Proof.
  intros Hst. split.
  - intros key log. rewrite single_commit_offsets_lookup.
    destruct (st !! key) as [log0|] eqn:Ekey; [|done].
    cbn. intros [= <-]. cbn. by apply (Hst key).
  - apply set_eq. intros key. rewrite !elem_of_dom, single_commit_offsets_lookup.
    by rewrite fmap_is_Some.
Qed.

Lemma sent_keys_cons r history :
  sent_keys (r :: history) =
    match r with
    | Send key _ => {[ key ]} ∪ sent_keys history
    | _ => sent_keys history
    end.
Proof. unfold sent_keys. by destruct r. Qed.

Lemma logs_after_all_reachable history : ∀ st : gmap string SingleNode.Log,
  logs_nonempty st →
  logs_nonempty (logs_after_all history st)
  ∧ dom (logs_after_all history st) = dom st ∪ sent_keys history.
Proof.
  unfold logs_after_all.
  induction history as [|r history IH]; intros st Hst.
  - split; [done|]. change (sent_keys []) with (∅ : gset string).
    by rewrite (right_id_L ∅ (∪)).
  - cbn [fold_left]. rewrite sent_keys_cons.
    destruct r as [key msg|offsets|offsets|keys]; cbn [logs_after].
    + destruct (single_send_some key msg st Hst) as [[offset st'] Hsend].
      rewrite Hsend. cbn.
      destruct (single_send_nonempty key msg st st' offset Hst Hsend) as [Hst' Hdom].
      destruct (IH st' Hst') as [IH1 IH2]. split; [done|].
      rewrite IH2, Hdom. by rewrite (assoc_L (∪)), (comm_L (∪) (dom st)).
    + by apply IH.
    + destruct (single_commit_nonempty offsets st Hst) as [Hst' Hdom].
      destruct (IH _ Hst') as [IH1 IH2]. split; [done|]. by rewrite IH2, Hdom.
    + by apply IH.
Qed.

(** X2: in the in-memory variant no log is ever empty: after any requests
    served from the empty map every log holds an entry, so the indexing
    of the last entry in send never panics and every send returns an
    offset. *)
Theorem send_never_panics (history : list request) (key : string) (msg : Z) :
  logs_nonempty (logs_after_all history ∅)
  ∧ is_Some (SingleNode.send key msg (logs_after_all history ∅)).
Proof.
  destruct (logs_after_all_reachable history ∅) as [Hne _].
  { intros k log. by rewrite lookup_empty. }
  split; [done | by apply single_send_some].
Qed.

(** X3: in the in-memory variant a log exists exactly for the keys that
    were sent to, and the first offset of a new key counts them: after
    requests that sent to n distinct keys, the first send to another key
    returns (n + 1) * 1000 in Go's integers. *)
Theorem first_offset_counts_keys (history : list request) (key : string) (msg : Z) :
  dom (logs_after_all history ∅) = sent_keys history
  ∧ (key ∉ sent_keys history →
     ∃ st',
       SingleNode.send key msg (logs_after_all history ∅) =
         Some (GoInt.mul (GoInt.add (Z.of_nat (size (sent_keys history))) 1) 1000,
               st')).
Proof.
  destruct (logs_after_all_reachable history ∅) as [_ Hdom].
  { intros k log. by rewrite lookup_empty. }
  rewrite dom_empty_L, (left_id_L ∅ (∪)) in Hdom.
  split; [done|]. intros Hkey.
  rewrite <- Hdom in Hkey. apply not_elem_of_dom in Hkey.
  rewrite send_fresh by done. cbn. eexists.
  by rewrite <- Hdom, size_dom.
Qed.

Lemma first_offset_counts_keys_witness :
  ∃ st',
    SingleNode.send "c" 30
      (logs_after_all [Send "a" 10; CommitOffsets [("a", 5)]; Send "b" 20; Send "a" 11] ∅) =
      Some (GoInt.mul
              (GoInt.add
                 (Z.of_nat (size (sent_keys
                    [Send "a" 10; CommitOffsets [("a", 5)]; Send "b" 20; Send "a" 11])))
                 1) 1000, st').
Proof.
  apply (first_offset_counts_keys
           [Send "a" 10; CommitOffsets [("a", 5)]; Send "b" 20; Send "a" 11] "c" 30).
  apply (bool_decide_unpack _). vm_compute. exact I.
Defined.

(** ** What the handlers of the distributed variant leave alone *)

Section Footprints.
Import LinKV Distributed.

Lemma send_step_footprint key msg o pc (kv : store) k :
  k ≠ offsetKey key →
  (∀ offset, k ≠ logEntryKey key offset) →
  (send_step key msg o pc kv).2 !! k = kv !! k.
Proof.
  intros Hmarker Hentry.
  destruct pc as [|old|offset|offset|e|offset e]; cbn [send_step]; try done.
  - unfold callReadInt. destruct o as [|e]; [|by destruct (isKeyDoesNotExist e)].
    unfold ReadInt. by destruct (kv !! offsetKey key).
  - unfold callCompareAndSwap, CompareAndSwap. destruct o as [|e]; [|done].
    destruct (kv !! offsetKey key) as [v|]; [destruct (decide (v = old)); [|done]|];
      cbn [snd]; by apply lookup_insert_ne.
  - unfold callWrite, Write. destruct o as [|e]; [|done].
    cbn [snd]. apply lookup_insert_ne, not_eq_sym, Hentry.
Qed.

Lemma exec_send_footprint key msg os k : ∀ pc (kv : store),
  k ≠ offsetKey key →
  (∀ offset, k ≠ logEntryKey key offset) →
  (exec (send_step key msg) os pc kv).2 !! k = kv !! k.
Proof.
  induction os as [|o os IH]; intros pc kv Hmarker Hentry; [done|]. cbn [exec].
  pose proof (send_step_footprint key msg o pc kv k Hmarker Hentry) as Hstep.
  destruct (send_step key msg o pc kv) as [pc' kv']. cbn [snd] in Hstep.
  by rewrite IH.
Qed.

Lemma commit_step_footprint o pc (kv : store) k :
  (∀ key, key ∈ commit_keys pc → k ≠ committedOffsetKey key) →
  (commit_step o pc kv).2 !! k = kv !! k
  ∧ ∀ key, key ∈ commit_keys (commit_step o pc kv).1 → k ≠ committedOffsetKey key.
Proof.
  intros Hk.
  destruct pc as [key c rest|key c old rest| |e]; cbn [commit_step]; try done.
  - unfold callReadInt. destruct o as [|e].
    + unfold ReadInt. by destruct (kv !! committedOffsetKey key).
    + destruct (isKeyDoesNotExist e); cbn [fst snd commit_keys]; (split; [done|]);
        [done | intros k' Hk'; by apply not_elem_of_nil in Hk'].
  - assert (Hrest : ∀ key', key' ∈ commit_keys (commit_next rest) →
                            k ≠ committedOffsetKey key').
    { intros key' Hkey'. rewrite commit_keys_next in Hkey'.
      apply Hk. cbn [commit_keys]. by apply list_elem_of_further. }
    assert (Hkey : committedOffsetKey key ≠ k).
    { apply not_eq_sym, Hk. cbn [commit_keys]. apply list_elem_of_here. }
    unfold callCompareAndSwap, CompareAndSwap. destruct o as [|e]; [|done].
    destruct (kv !! committedOffsetKey key) as [v|];
      [destruct (decide (v = old)); [|done]|];
      cbn [fst snd]; (split; [by apply lookup_insert_ne | done]).
Qed.

Lemma exec_commit_footprint os k : ∀ pc (kv : store),
  (∀ key, key ∈ commit_keys pc → k ≠ committedOffsetKey key) →
  (exec commit_step os pc kv).2 !! k = kv !! k.
Proof.
  induction os as [|o os IH]; intros pc kv Hk; [done|]. cbn [exec].
  destruct (commit_step_footprint o pc kv k Hk) as [Hstep Hk'].
  destruct (commit_step o pc kv) as [pc' kv']. cbn [fst snd] in *.
  by rewrite IH.
Qed.

(** Polling reads the marker and the entries of the polled keys only. *)
Lemma poll_scan_ext (read read' : string → error + Z) key fuel :
  (∀ offset, read (logEntryKey key offset) = read' (logEntryKey key offset)) →
  ∀ i highestOffset count logMessages,
    poll_scan fuel read key i highestOffset count logMessages =
      poll_scan fuel read' key i highestOffset count logMessages.
Proof.
  intros Hread. induction fuel as [|fuel IH]; intros i h count acc; [done|].
  cbn [poll_scan]. rewrite <- Hread.
  destruct (i <=? h); [|done].
  destruct (read (logEntryKey key i)); [apply IH|].
  destruct (count + 1 =? 3); [done | apply IH].
Qed.

Lemma poll_loop_ext (read read' : string → error + Z) fuel offsets :
  (∀ key, key ∈ offsets.*1 →
     read (offsetKey key) = read' (offsetKey key)
     ∧ ∀ offset, read (logEntryKey key offset) = read' (logEntryKey key offset)) →
  ∀ acc, poll_loop fuel read offsets acc = poll_loop fuel read' offsets acc.
Proof.
  induction offsets as [|[key startOffset] offsets IH]; intros Hread acc; [done|].
  cbn [poll_loop].
  destruct (Hread key) as [Hmarker Hentries]; [apply list_elem_of_here|].
  assert (Hkey : poll_key fuel read key startOffset =
                 poll_key fuel read' key startOffset).
  { unfold poll_key. rewrite <- Hmarker.
    destruct (read (offsetKey key)) as [e|h]; [done|].
    by rewrite (poll_scan_ext read read' key fuel Hentries). }
  rewrite <- Hkey. destruct (poll_key fuel read key startOffset); [|done].
  apply IH. intros k Hk. by apply Hread, list_elem_of_further.
Qed.

Lemma single_poll_loop_ext (st st' : gmap string SingleNode.Log) offsets :
  (∀ key, key ∈ offsets.*1 →
     SingleNode.LogEntries <$> st !! key = SingleNode.LogEntries <$> st' !! key) →
  ∀ acc, SingleNode.poll_loop st offsets acc = SingleNode.poll_loop st' offsets acc.
Proof.
  induction offsets as [|[key offset] offsets IH]; intros Hlogs acc; [done|].
  cbn [SingleNode.poll_loop].
  assert (Hkey : SingleNode.poll_key st key offset = SingleNode.poll_key st' key offset).
  { unfold SingleNode.poll_key.
    specialize (Hlogs key (list_elem_of_here _ _)).
    destruct (st !! key) as [log|], (st' !! key) as [log'|]; try done.
    cbn in Hlogs. by injection Hlogs as ->. }
  rewrite <- Hkey. apply IH. intros k Hk. by apply Hlogs, list_elem_of_further.
Qed.

(** X5: a send of the distributed variant, whatever its calls do, changes
    nothing in the store but the marker of its key and the entries of its
    key: the markers and entries of every other key and all committed
    offsets stay as they were. *)
Theorem send_footprint (key : string) (msg : Z) (os : list outcome)
    (pc : send_pc) (kv : store) :
  (∀ k, k ≠ offsetKey key → (∀ offset, k ≠ logEntryKey key offset) →
        (exec (send_step key msg) os pc kv).2 !! k = kv !! k)
  ∧ (∀ key', key' ≠ key →
       (exec (send_step key msg) os pc kv).2 !! offsetKey key' = kv !! offsetKey key'
       ∧ ∀ offset,
           (exec (send_step key msg) os pc kv).2 !! logEntryKey key' offset =
             kv !! logEntryKey key' offset)
  ∧ (∀ key',
       (exec (send_step key msg) os pc kv).2 !! committedOffsetKey key' =
         kv !! committedOffsetKey key').
Proof.
  split_and!.
  - intros k Hmarker Hentry. by apply exec_send_footprint.
  - intros key' Hne. split; [|intros offset]; apply exec_send_footprint.
    + intros Heq. by apply offsetKey_inj in Heq.
    + intros offset. apply not_eq_sym, logEntryKey_ne_offsetKey.
    + apply logEntryKey_ne_offsetKey.
    + intros offset' Heq. by apply logEntryKey_inj2 in Heq as [? _].
  - intros key'. apply exec_send_committed.
Qed.

Lemma send_footprint_witness :
  (exec (send_step "x" 10) [Served; Fails OtherError; Served; Served; Served]
     SendRead (send "y" 5 ∅).2).2 !! offsetKey "y" =
    (send "y" 5 ∅).2 !! offsetKey "y"
  ∧ ∀ offset,
      (exec (send_step "x" 10) [Served; Fails OtherError; Served; Served; Served]
         SendRead (send "y" 5 ∅).2).2 !! logEntryKey "y" offset =
        (send "y" 5 ∅).2 !! logEntryKey "y" offset.
Proof.
  destruct (send_footprint "x" 10 [Served; Fails OtherError; Served; Served; Served]
              SendRead (send "y" 5 ∅).2) as (_ & Hother & _).
  apply (Hother "y"). intros Heq. discriminate Heq.
Defined.

(** X6: a commit_offsets request of the distributed variant, whatever its
    calls do, changes nothing in the store but the committed offsets of
    the keys it names: no marker of a log, no entry and no committed
    offset of another key. *)
Theorem commit_footprint (offsets : list (string * Z)) (os : list outcome)
    (kv : store) :
  (∀ k, (∀ key, key ∈ offsets.*1 → k ≠ committedOffsetKey key) →
        (exec commit_step os (commit_next offsets) kv).2 !! k = kv !! k)
  ∧ (∀ key,
       (exec commit_step os (commit_next offsets) kv).2 !! offsetKey key =
         kv !! offsetKey key
       ∧ ∀ offset,
           (exec commit_step os (commit_next offsets) kv).2 !! logEntryKey key offset =
             kv !! logEntryKey key offset)
  ∧ (∀ key, key ∉ offsets.*1 →
       (exec commit_step os (commit_next offsets) kv).2 !! committedOffsetKey key =
         kv !! committedOffsetKey key).
Proof.
  assert (Hfoot : ∀ k, (∀ key, key ∈ offsets.*1 → k ≠ committedOffsetKey key) →
            (exec commit_step os (commit_next offsets) kv).2 !! k = kv !! k).
  { intros k Hk. apply exec_commit_footprint. by rewrite commit_keys_next. }
  split_and!; [done | |].
  - intros key. split; [|intros offset]; apply Hfoot; intros key' _.
    + apply offsetKey_ne_committedOffsetKey.
    + apply logEntryKey_ne_committedOffsetKey.
  - intros key Hkey. apply Hfoot. intros key' Hkey' Heq.
    apply committedOffsetKey_inj in Heq as ->. done.
Qed.

Lemma commit_footprint_witness :
  (exec commit_step [Served; Fails OtherError; Served; Served]
     (commit_next [("x", 5)]) (send "x" 10 ∅).2).2 !! committedOffsetKey "y" =
    (send "x" 10 ∅).2 !! committedOffsetKey "y".
Proof.
  destruct (commit_footprint [("x", 5)] [Served; Fails OtherError; Served; Served]
              (send "x" 10 ∅).2) as (_ & _ & Hother).
  apply (Hother "y"). intros Hin. apply list_elem_of_singleton in Hin. discriminate Hin.
Defined.

(** X7: committing never changes what a poll returns, in the distributed
    variant whatever the calls of the commit do, and in the in-memory
    variant. *)
Theorem commit_leaves_polls (committed polled : list (string * Z)) :
  (∀ (os : list outcome) (kv : store) fuel,
     Distributed.poll fuel (exec commit_step os (commit_next committed) kv).2 polled =
       Distributed.poll fuel kv polled)
  ∧ (∀ st : gmap string SingleNode.Log,
       SingleNode.poll (SingleNode.commit_offsets committed st) polled =
         SingleNode.poll st polled).
Proof.
  split.
  - intros os kv fuel. unfold Distributed.poll. apply poll_loop_ext.
    intros key _. unfold ReadInt.
    assert (Hfoot : ∀ k, (∀ key', k ≠ committedOffsetKey key') →
              (exec commit_step os (commit_next committed) kv).2 !! k = kv !! k).
    { intros k Hk. apply exec_commit_footprint. intros key' _. apply Hk. }
    rewrite Hfoot by (intros key'; apply offsetKey_ne_committedOffsetKey).
    split; [done|]. intros offset.
    by rewrite Hfoot by (intros key'; apply logEntryKey_ne_committedOffsetKey).
  - intros st. unfold SingleNode.poll. apply single_poll_loop_ext.
    intros key _. rewrite single_commit_offsets_lookup.
    by destruct (st !! key).
Qed.

(** X8: a send never changes what a poll returns for other keys, in the
    distributed variant whatever the calls of the send do, and in the
    in-memory variant. *)
Theorem send_leaves_other_polls (key : string) (msg : Z)
    (polled : list (string * Z)) :
  key ∉ polled.*1 →
  (∀ (os : list outcome) (pc : send_pc) (kv : store) fuel,
     Distributed.poll fuel (exec (send_step key msg) os pc kv).2 polled =
       Distributed.poll fuel kv polled)
  ∧ (∀ (st st' : gmap string SingleNode.Log) offset,
       SingleNode.send key msg st = Some (offset, st') →
       SingleNode.poll st' polled = SingleNode.poll st polled).
Proof.
  intros Hkey. split.
  - intros os pc kv fuel. unfold Distributed.poll. apply poll_loop_ext.
    intros key' Hkey'. unfold ReadInt.
    assert (Hne : key' ≠ key) by (by intros ->).
    rewrite exec_send_footprint.
    + split; [done|]. intros offset. rewrite exec_send_footprint; [done| |].
      * apply logEntryKey_ne_offsetKey.
      * intros offset' Heq. by apply logEntryKey_inj2 in Heq as [? _].
    + intros Heq. by apply offsetKey_inj in Heq.
    + intros offset. apply not_eq_sym, logEntryKey_ne_offsetKey.
  - intros st st' offset Hsend. unfold SingleNode.poll. apply single_poll_loop_ext.
    intros key' Hkey'.
    assert (Hne : key ≠ key') by (by intros ->).
    unfold SingleNode.send in Hsend.
    destruct (st !! key) as [log|];
      [destruct (last (SingleNode.LogEntries log)); [|done]|];
      injection Hsend as _ <-; by rewrite lookup_insert_ne.
Qed.

Lemma send_leaves_other_polls_witness :
  (∀ fuel,
     Distributed.poll fuel
       (exec (send_step "x" 10) [Served; Served; Served] SendRead (send "y" 5 ∅).2).2
       [("y", 0)] =
       Distributed.poll fuel (send "y" 5 ∅).2 [("y", 0)])
  ∧ SingleNode.poll
      (default ∅ (snd <$> SingleNode.send "x" 10
                            (default ∅ (snd <$> SingleNode.send "y" 5 ∅))))
      [("y", 0)] =
      SingleNode.poll (default ∅ (snd <$> SingleNode.send "y" 5 ∅)) [("y", 0)].
Proof.
  destruct (send_leaves_other_polls "x" 10 [("y", 0)]) as [Hdist Hsingle].
  - intros Hin. apply list_elem_of_singleton in Hin. discriminate Hin.
  - split; [intros fuel; apply Hdist|].
    apply (Hsingle _ _ (GoInt.mul (GoInt.add 1 1) 1000)).
    vm_compute. reflexivity.
Defined.

End Footprints.

(** ** What a request has done when it returns *)

Section ExitEffects.
Import LinKV Distributed.

Lemma send_step_effect key msg o pc (kv cur : store) :
  send_effect key msg kv pc cur →
  send_effect key msg kv (send_step key msg o pc cur).1 (send_step key msg o pc cur).2.
Proof.
  destruct pc as [|old|offset|offset|e|offset e]; cbn [send_step send_effect].
  - intros ->. unfold callReadInt. destruct o as [|e].
    + unfold ReadInt. destruct (kv !! offsetKey key) as [v|] eqn:Ev; cbn; [|done].
      split; [done|]. rewrite Ev. done.
    + destruct (isKeyDoesNotExist e); cbn; done.
  - intros [-> Hold]. unfold callCompareAndSwap, CompareAndSwap.
    destruct o as [|e]; [|done].
    destruct (kv !! offsetKey key) as [v|] eqn:Ev.
    + destruct (decide (v = old)) as [->|Hne]; cbn; [|done].
      unfold highest. by rewrite Ev.
    + cbn. unfold highest. rewrite Ev. cbn. by rewrite Hold.
  - intros [-> ->]. unfold callWrite, Write. destruct o as [|e]; cbn; done.
  - done.
  - done.
  - done.
Qed.

Lemma exec_send_effect key msg os (kv : store) : ∀ pc (cur : store),
  send_effect key msg kv pc cur →
  send_effect key msg kv (exec (send_step key msg) os pc cur).1
    (exec (send_step key msg) os pc cur).2.
Proof.
  induction os as [|o os IH]; intros pc cur Hpc; [done|]. cbn [exec].
  pose proof (send_step_effect key msg o pc kv cur Hpc) as Hstep.
  destruct (send_step key msg o pc cur) as [pc' cur']. by apply IH.
Qed.

(** X9: what a send of the distributed variant has done when it returns,
    no other request having run meanwhile and whichever of its calls
    failed or were tried again.  A send that returns the error of its
    read has left the store as it was; a send that returns the error of
    its write has raised the marker of its key by one and written no
    entry; a send that replies has raised the marker by one, replies the
    new marker and has written its message under it. *)
Theorem send_exit_effect (key : string) (msg : Z) (os : list outcome) (kv : store) :
  (∀ e, (exec (send_step key msg) os SendRead kv).1 = SendReadErr e →
        (exec (send_step key msg) os SendRead kv).2 = kv)
  ∧ (∀ offset e,
       (exec (send_step key msg) os SendRead kv).1 = SendWriteErr offset e →
       offset = GoInt.add (highest key kv) 1
       ∧ (exec (send_step key msg) os SendRead kv).2 = <[offsetKey key := offset]> kv)
  ∧ (∀ offset,
       (exec (send_step key msg) os SendRead kv).1 = SendOk offset →
       offset = GoInt.add (highest key kv) 1
       ∧ (exec (send_step key msg) os SendRead kv).2 =
           <[logEntryKey key offset := msg]> (<[offsetKey key := offset]> kv)).
Proof.
  pose proof (exec_send_effect key msg os kv SendRead kv eq_refl) as Heff.
  destruct (exec (send_step key msg) os SendRead kv) as [pc kv']. cbn [fst snd] in *.
  split_and!.
  - by intros e ->.
  - by intros offset e ->.
  - by intros offset ->.
Qed.

Lemma send_exit_effect_witness :
  (exec (send_step "x" 10)
     [Served; Fails (RPCError TemporarilyUnavailable); Fails OtherError]
     SendRead (send "x" 7 ∅).2).2 = (send "x" 7 ∅).2
  ∧ (1 = GoInt.add (highest "x" (send "x" 7 ∅).2) 1
     ∧ (exec (send_step "x" 10) [Served; Served; Fails OtherError]
          SendRead (send "x" 7 ∅).2).2 =
         <[offsetKey "x" := 1]> (send "x" 7 ∅).2).
Proof.
  split.
  - destruct (send_exit_effect "x" 10
                [Served; Fails (RPCError TemporarilyUnavailable); Fails OtherError]
                (send "x" 7 ∅).2) as (Hread & _ & _).
    apply (Hread OtherError). vm_compute. reflexivity.
  - destruct (send_exit_effect "x" 10 [Served; Served; Fails OtherError]
                (send "x" 7 ∅).2) as (_ & Hwrite & _).
    apply (Hwrite 1 OtherError). vm_compute. reflexivity.
Defined.

Lemma commit_step_effect offsets o pc (kv cur : store) :
  commit_effect offsets kv pc cur →
  commit_effect offsets kv (commit_step o pc cur).1 (commit_step o pc cur).2.
Proof.
  destruct pc as [key c rest|key c old rest| |e]; cbn [commit_step]; try done.
  - intros [Hdone _]. cbn [commit_todo] in Hdone.
    unfold callReadInt. destruct o as [|e].
    + unfold ReadInt. destruct (cur !! committedOffsetKey key) as [v|] eqn:Ev;
        cbn [fst snd]; (split; [done|]); cbn [commit_pc_ok]; [congruence | done].
    + destruct (isKeyDoesNotExist e) eqn:Ee; cbn [fst snd].
      * split; done.
      * cbn [commit_effect]. split; [done|].
        destruct Hdone as (done & Hoffs & Hcur). by exists done, key, c, rest.
  - intros [(done & Hoffs & Hcur) Hold]. cbn [commit_todo commit_pc_ok] in *.
    assert (Hback : commit_effect offsets kv (CommitRead key c rest) cur).
    { split; [by exists done | done]. }
    unfold callCompareAndSwap. destruct o as [|e]; cbn [fst snd]; [|done].
    assert (Hnext : old = default 0 (cur !! committedOffsetKey key) →
              commit_effect offsets kv (commit_next rest)
                (<[committedOffsetKey key := Z.max old c]> cur)).
    { intros ->.
      assert (Hgoal : ∃ done',
                offsets = done' ++ rest
                ∧ <[committedOffsetKey key :=
                      Z.max (default 0 (cur !! committedOffsetKey key)) c]> cur =
                    fold_left commit_apply done' kv).
      { exists (done ++ [(key, c)]). split; [by rewrite <- app_assoc|].
        rewrite fold_left_app, <- Hcur. done. }
      destruct rest as [|[k' c'] rest']; cbn; (split; [|done]); exact Hgoal. }
    unfold CompareAndSwap.
    destruct (cur !! committedOffsetKey key) as [v|] eqn:Ev.
    + destruct (decide (v = old)) as [->|Hne]; cbn [fst snd]; [|done].
      by apply Hnext.
    + cbn [fst snd]. by apply Hnext, Hold.
Qed.

Lemma exec_commit_effect offsets os (kv : store) : ∀ pc (cur : store),
  commit_effect offsets kv pc cur →
  commit_effect offsets kv (exec commit_step os pc cur).1 (exec commit_step os pc cur).2.
Proof.
  induction os as [|o os IH]; intros pc cur Hpc; [done|]. cbn [exec].
  pose proof (commit_step_effect offsets o pc kv cur Hpc) as Hstep.
  destruct (commit_step o pc cur) as [pc' cur']. by apply IH.
Qed.

Lemma commit_effect_start offsets (kv : store) :
  commit_effect offsets kv (commit_next offsets) kv.
Proof.
  assert (Hgoal : ∃ done, offsets = done ++ offsets ∧ kv = fold_left commit_apply done kv)
    by (by exists []).
  destruct offsets as [|[k c] rest]; cbn; split; done.
Qed.

(** X10: a commit_offsets request of the distributed variant is not atomic.
    No other request having run meanwhile and whichever of its calls
    failed or were tried again, a request that replies has merged all its
    pairs in the order of the loop; a request that returns the error of a
    read has merged the pairs before the one it stopped at and none from
    that one on, and the merged ones stay. *)
Theorem commit_exit_effect (offsets : list (string * Z)) (os : list outcome)
    (kv : store) :
  ((exec commit_step os (commit_next offsets) kv).1 = CommitOk →
   (exec commit_step os (commit_next offsets) kv).2 = fold_left commit_apply offsets kv)
  ∧ (∀ e, (exec commit_step os (commit_next offsets) kv).1 = CommitErr e →
          isKeyDoesNotExist e = false
          ∧ ∃ done key newOffset rest,
              offsets = done ++ (key, newOffset) :: rest
              ∧ (exec commit_step os (commit_next offsets) kv).2 =
                  fold_left commit_apply done kv).
Proof.
  pose proof (exec_commit_effect offsets os kv _ kv (commit_effect_start offsets kv))
    as Heff.
  destruct (exec commit_step os (commit_next offsets) kv) as [pc kv']. cbn [fst snd] in *.
  split.
  - intros ->. destruct Heff as [(done & Hoffs & Hkv) _]. cbn [commit_todo] in Hoffs.
    rewrite app_nil_r in Hoffs. by subst done.
  - by intros e ->.
Qed.

Lemma commit_exit_effect_witness :
  isKeyDoesNotExist OtherError = false
  ∧ ∃ done key newOffset rest,
      [("x", 5); ("y", 6); ("z", 7)] = done ++ (key, newOffset) :: rest
      ∧ (exec commit_step [Served; Served; Fails OtherError]
           (commit_next [("x", 5); ("y", 6); ("z", 7)]) ∅).2 =
          fold_left commit_apply done ∅.
Proof.
  destruct (commit_exit_effect [("x", 5); ("y", 6); ("z", 7)]
              [Served; Served; Fails OtherError] ∅) as [_ Herr].
  apply (Herr OtherError). vm_compute. reflexivity.
Defined.

End ExitEffects.

(** ** Keys of the substrate do not collide *)

(** X12: the three formats of substrate keys never give the same key for
    different things: each format is injective in the log key, and in the
    offset for entries, also for log keys that contain a slash, and no
    key of one format is a key of another. *)
Theorem substrate_keys_distinct (key key' : string) (offset offset' : Z) :
  (Distributed.offsetKey key = Distributed.offsetKey key' → key = key')
  ∧ (Distributed.committedOffsetKey key = Distributed.committedOffsetKey key' →
     key = key')
  ∧ (Distributed.logEntryKey key offset = Distributed.logEntryKey key' offset' →
     key = key' ∧ offset = offset')
  ∧ Distributed.offsetKey key ≠ Distributed.committedOffsetKey key'
  ∧ Distributed.logEntryKey key offset ≠ Distributed.offsetKey key'
  ∧ Distributed.logEntryKey key offset ≠ Distributed.committedOffsetKey key'.
Proof.
  split_and!.
  - apply offsetKey_inj.
  - apply committedOffsetKey_inj.
  - apply logEntryKey_inj2.
  - apply offsetKey_ne_committedOffsetKey.
  - apply logEntryKey_ne_offsetKey.
  - apply logEntryKey_ne_committedOffsetKey.
Qed.

Lemma substrate_keys_distinct_witness :
  "a/data/1" = "a/data/1" ∧ 2 = 2.
Proof.
  destruct (substrate_keys_distinct "a/data/1" "a/data/1" 2 2) as (_ & _ & Hentry & _).
  apply Hentry. reflexivity.
Defined.

(** ** The order in which Go ranges over the map of a request *)

Lemma commit_apply_comm (kv : gmap string Z) p q :
  commit_apply (commit_apply kv p) q = commit_apply (commit_apply kv q) p.
Proof.
  destruct p as [k a], q as [k' b]. unfold commit_apply. cbn [fst snd].
  destruct (decide (k = k')) as [<-|Hne].
  - rewrite !lookup_insert_eq, !insert_insert_eq. cbn. f_equal. lia.
  - assert (Hk : Distributed.committedOffsetKey k ≠ Distributed.committedOffsetKey k').
    { intros Heq. by apply committedOffsetKey_inj in Heq. }
    rewrite !lookup_insert_ne by done. by apply insert_insert_ne.
Qed.

Lemma fold_commit_apply_perm offsets offsets' :
  offsets ≡ₚ offsets' →
  ∀ kv : gmap string Z,
    fold_left commit_apply offsets kv = fold_left commit_apply offsets' kv.
Proof.
  induction 1 as [|p l l' _ IH|p q l|l l' l'' _ IH1 _ IH2]; intros kv.
  - done.
  - cbn [fold_left]. apply IH.
  - cbn [fold_left]. by rewrite commit_apply_comm.
  - by rewrite IH1.
Qed.

Lemma fold_max_offsets_perm key offsets offsets' :
  offsets ≡ₚ offsets' →
  ∀ a, fold_left Z.max (offsets_for key offsets) a =
         fold_left Z.max (offsets_for key offsets') a.
Proof.
  unfold offsets_for.
  induction 1 as [|p l l' _ IH|p q l|l l' l'' _ IH1 _ IH2]; intros a.
  - done.
  - csimpl. destruct (decide (p.1 = key)); cbn; apply IH.
  - csimpl. destruct (decide (p.1 = key)), (decide (q.1 = key)); cbn; try done.
    by rewrite <- !Z.max_assoc, (Z.max_comm q.2 p.2).
  - by rewrite IH1.
Qed.

(** X13: when a commit_offsets request replies, what it leaves in the
    store does not depend on the order in which Go ranges over the pairs
    of the request: in the distributed variant two runs over the same
    pairs in different orders that both reply leave the same store,
    whichever calls failed and were tried again, and so do two runs in
    which every call is answered; in the in-memory variant every order
    gives the same map.  A run of the distributed variant that returns
    the error of a read has merged the pairs before the one it stopped
    at, so there the order matters. *)
Theorem commit_order_irrelevant (offsets offsets' : list (string * Z)) :
  offsets ≡ₚ offsets' →
  (∀ (os os' : list LinKV.outcome) (kv : gmap string Z),
     (exec Distributed.commit_step os (Distributed.commit_next offsets) kv).1 =
       Distributed.CommitOk →
     (exec Distributed.commit_step os' (Distributed.commit_next offsets') kv).1 =
       Distributed.CommitOk →
     (exec Distributed.commit_step os (Distributed.commit_next offsets) kv).2 =
       (exec Distributed.commit_step os' (Distributed.commit_next offsets') kv).2)
  ∧ (∀ kv : gmap string Z,
       Distributed.commit_offsets offsets kv = Distributed.commit_offsets offsets' kv)
  ∧ (∀ st : gmap string SingleNode.Log,
       SingleNode.commit_offsets offsets st = SingleNode.commit_offsets offsets' st)
  ∧ (exec Distributed.commit_step [LinKV.Served; LinKV.Served; LinKV.Fails OtherError]
       (Distributed.commit_next [("x", 5); ("y", 2)]) ∅).2
    ≠ (exec Distributed.commit_step [LinKV.Served; LinKV.Served; LinKV.Fails OtherError]
         (Distributed.commit_next [("y", 2); ("x", 5)]) ∅).2.
Proof.
  intros Hperm. split_and!.
  - intros os os' kv Hok Hok'.
    pose proof (exec_commit_effect offsets os kv _ kv (commit_effect_start offsets kv))
      as Heff.
    pose proof (exec_commit_effect offsets' os' kv _ kv (commit_effect_start offsets' kv))
      as Heff'.
    rewrite Hok in Heff. rewrite Hok' in Heff'.
    destruct Heff as [(done & Hoffs & ->) _], Heff' as [(done' & Hoffs' & ->) _].
    cbn [commit_todo] in Hoffs, Hoffs'. rewrite app_nil_r in Hoffs, Hoffs'.
    subst done done'. by apply fold_commit_apply_perm.
  - intros kv. rewrite !commit_offsets_alone. f_equal.
    by apply fold_commit_apply_perm.
  - intros st. apply map_eq. intros key. rewrite !single_commit_offsets_lookup.
    destruct (st !! key) as [log|]; [|done]. cbn.
    by rewrite (fold_max_offsets_perm key offsets offsets' Hperm).
  - intros Heq.
    apply (f_equal (λ m : gmap string Z, m !! Distributed.committedOffsetKey "x")) in Heq.
    vm_compute in Heq. discriminate Heq.
Qed.

Lemma commit_order_irrelevant_witness :
  (exec Distributed.commit_step
     [LinKV.Served; LinKV.Fails OtherError; LinKV.Served; LinKV.Served;
      LinKV.Served; LinKV.Served; LinKV.Served; LinKV.Served]
     (Distributed.commit_next [("x", 5); ("y", 2); ("z", 9)])
     (Distributed.send "x" 1 ∅).2).2 =
    (exec Distributed.commit_step
       [LinKV.Served; LinKV.Served; LinKV.Served; LinKV.Served;
        LinKV.Served; LinKV.Served]
       (Distributed.commit_next [("z", 9); ("x", 5); ("y", 2)])
       (Distributed.send "x" 1 ∅).2).2.
Proof.
  destruct (commit_order_irrelevant [("x", 5); ("y", 2); ("z", 9)]
              [("z", 9); ("x", 5); ("y", 2)]) as [Hdist _].
  - symmetry. apply (Permutation_cons_append [("x", 5); ("y", 2)] ("z", 9)).
  - apply Hdist; vm_compute; reflexivity.
Defined.

Lemma poll_loop_perm fuel (read : string → error + Z) offsets offsets' :
  offsets ≡ₚ offsets' →
  NoDup offsets.*1 →
  ∀ acc, Distributed.poll_loop fuel read offsets acc =
           Distributed.poll_loop fuel read offsets' acc.
Proof.
  induction 1 as [|[k s] l l' _ IH|[k s] [k' s'] l|l l' l'' Hperm IH1 _ IH2];
    intros Hnodup acc.
  - done.
  - cbn [Distributed.poll_loop].
    destruct (Distributed.poll_key fuel read k s); [|done].
    apply IH. cbn in Hnodup. by apply NoDup_cons in Hnodup as [_ ?].
  - cbn [Distributed.poll_loop].
    assert (Hne : k' ≠ k).
    { cbn in Hnodup. apply NoDup_cons in Hnodup as [Hin _].
      intros ->. apply Hin, list_elem_of_here. }
    destruct (Distributed.poll_key fuel read k' s'),
      (Distributed.poll_key fuel read k s); try done.
    by rewrite insert_insert_ne.
  - rewrite IH1 by done. apply IH2. by rewrite <- Hperm.
Qed.

Lemma single_poll_loop_perm (st : gmap string SingleNode.Log) offsets offsets' :
  offsets ≡ₚ offsets' →
  NoDup offsets.*1 →
  ∀ acc, SingleNode.poll_loop st offsets acc = SingleNode.poll_loop st offsets' acc.
Proof.
  induction 1 as [|[k s] l l' _ IH|[k s] [k' s'] l|l l' l'' Hperm IH1 _ IH2];
    intros Hnodup acc.
  - done.
  - cbn [SingleNode.poll_loop].
    apply IH. cbn in Hnodup. by apply NoDup_cons in Hnodup as [_ ?].
  - cbn [SingleNode.poll_loop].
    assert (Hne : k' ≠ k).
    { cbn in Hnodup. apply NoDup_cons in Hnodup as [Hin _].
      intros ->. apply Hin, list_elem_of_here. }
    by rewrite insert_insert_ne.
  - rewrite IH1 by done. apply IH2. by rewrite <- Hperm.
Qed.

Lemma draft_poll_loop_perm (st : gmap string (list SingleNodeDraft.LogEntry))
    offsets offsets' :
  offsets ≡ₚ offsets' →
  NoDup offsets.*1 →
  ∀ acc, SingleNodeDraft.poll_loop st offsets acc =
           SingleNodeDraft.poll_loop st offsets' acc.
Proof.
  induction 1 as [|[k s] l l' _ IH|[k s] [k' s'] l|l l' l'' Hperm IH1 _ IH2];
    intros Hnodup acc.
  - done.
  - cbn [SingleNodeDraft.poll_loop].
    apply IH. cbn in Hnodup. by apply NoDup_cons in Hnodup as [_ ?].
  - cbn [SingleNodeDraft.poll_loop].
    assert (Hne : k' ≠ k).
    { cbn in Hnodup. apply NoDup_cons in Hnodup as [Hin _].
      intros ->. apply Hin, list_elem_of_here. }
    by rewrite insert_insert_ne.
  - rewrite IH1 by done. apply IH2. by rewrite <- Hperm.
Qed.

(** X14: the reply of poll does not depend on the order in which Go ranges
    over the map of the request: for pairs with distinct keys, as the
    pairs of a map are, any other order gives the same reply, in the
    three programs. *)
Theorem poll_order_irrelevant (offsets offsets' : list (string * Z)) :
  offsets ≡ₚ offsets' →
  NoDup offsets.*1 →
  (∀ fuel (kv : gmap string Z),
     Distributed.poll fuel kv offsets = Distributed.poll fuel kv offsets')
  ∧ (∀ st : gmap string SingleNode.Log,
       SingleNode.poll st offsets = SingleNode.poll st offsets')
  ∧ (∀ st : gmap string (list SingleNodeDraft.LogEntry),
       SingleNodeDraft.poll st offsets = SingleNodeDraft.poll st offsets').
Proof.
  intros Hperm Hnodup. split_and!.
  - intros fuel kv. by apply poll_loop_perm.
  - intros st. by apply single_poll_loop_perm.
  - intros st. by apply draft_poll_loop_perm.
Qed.

Lemma poll_order_irrelevant_witness :
  Distributed.poll 5 (Distributed.send "x" 1 ∅).2 [("x", 0); ("y", 2); ("z", 9)] =
    Distributed.poll 5 (Distributed.send "x" 1 ∅).2 [("z", 9); ("x", 0); ("y", 2)].
Proof.
  destruct (poll_order_irrelevant [("x", 0); ("y", 2); ("z", 9)]
              [("z", 9); ("x", 0); ("y", 2)]) as [Hdist _].
  - symmetry. apply (Permutation_cons_append [("x", 0); ("y", 2)] ("z", 9)).
  - apply (bool_decide_unpack _). vm_compute. exact I.
  - apply Hdist.
Defined.

(** ** Replies of list_committed_offsets, in full *)

Lemma list_calls_lookup (kv : gmap string Z) calls : ∀ (acc : gmap string Z) key,
  list_calls kv calls acc !! key =
    if answered key calls
    then match kv !! Distributed.committedOffsetKey key with
         | Some committedOffset => Some committedOffset
         | None => acc !! key
         end
    else acc !! key.
Proof.
  induction calls as [|[k o] calls IH]; intros acc key; [done|].
  cbn [list_calls answered existsb fst snd].
  destruct (decide (k = key)) as [->|Hne].
  - rewrite bool_decide_eq_true_2 by done. destruct o as [|e]; cbn.
    + unfold LinKV.ReadInt.
      destruct (kv !! Distributed.committedOffsetKey key) as [c|] eqn:Ec.
      * rewrite IH, Ec, lookup_insert_eq. by destruct (answered key calls).
      * rewrite IH, Ec. by destruct (answered key calls).
    + apply IH.
  - rewrite bool_decide_eq_false_2 by done. cbn.
    destruct (LinKV.callReadInt o kv (Distributed.committedOffsetKey k)) as [e|c].
    + apply IH.
    + rewrite IH. by rewrite lookup_insert_ne.
Qed.

Lemma list_calls_served (read_kv : gmap string Z) keys : ∀ acc : gmap string Z,
  Distributed.list_loop (LinKV.ReadInt read_kv) keys acc =
    list_calls read_kv ((λ k, (k, LinKV.Served)) <$> keys) acc.
Proof.
  induction keys as [|k keys IH]; intros acc; [done|].
  cbn [Distributed.list_loop list_calls fmap list_fmap LinKV.callReadInt].
  destruct (LinKV.ReadInt read_kv (Distributed.committedOffsetKey k)); apply IH.
Qed.

(** X15: the reply of list_committed_offsets maps exactly the requested
    keys that have a committed offset and whose read is answered to that
    offset: the marker of the key in the distributed variant, the
    committed offset of the log in the in-memory variant, which does not
    call out.  In the distributed variant a requested key whose reads all
    fail is left out of the reply even when it has a marker.  A key that
    was not asked for is never in the reply, and neither the order of the
    requested keys nor asking for a key twice changes the reply. *)
Theorem list_committed_offsets_reply (keys keys' : list string) (key : string) :
  (∀ (kv : gmap string Z) (calls : list (string * LinKV.outcome)),
     list_calls kv calls ∅ !! key =
       if answered key calls then kv !! Distributed.committedOffsetKey key else None)
  ∧ (∀ kv : gmap string Z,
       Distributed.list_committed_offsets kv keys =
         list_calls kv ((λ k, (k, LinKV.Served)) <$> keys) ∅)
  ∧ (∀ kv : gmap string Z,
       Distributed.list_committed_offsets kv keys !! key =
         if decide (key ∈ keys) then kv !! Distributed.committedOffsetKey key else None)
  ∧ (∀ st : gmap string SingleNode.Log,
       SingleNode.list_committed_offsets st keys !! key =
         if decide (key ∈ keys) then SingleNode.CommittedOffset <$> st !! key else None)
  ∧ (∀ (kv : gmap string Z) (calls calls' : list (string * LinKV.outcome)),
       (∀ k, answered k calls = answered k calls') →
       list_calls kv calls ∅ = list_calls kv calls' ∅)
  ∧ ((∀ k, k ∈ keys ↔ k ∈ keys') →
     (∀ kv : gmap string Z,
        Distributed.list_committed_offsets kv keys =
          Distributed.list_committed_offsets kv keys')
     ∧ (∀ st : gmap string SingleNode.Log,
          SingleNode.list_committed_offsets st keys =
            SingleNode.list_committed_offsets st keys')).
Proof.
  assert (Hcalls : ∀ (kv : gmap string Z) calls k,
            list_calls kv calls ∅ !! k =
              if answered k calls then kv !! Distributed.committedOffsetKey k else None).
  { intros kv calls k. rewrite list_calls_lookup, lookup_empty.
    destruct (answered k calls); [|done].
    by destruct (kv !! Distributed.committedOffsetKey k). }
  split_and!.
  - intros kv calls. apply Hcalls.
  - intros kv. apply list_calls_served.
  - intros kv. apply dist_list_lookup.
  - intros st. apply single_list_lookup.
  - intros kv calls calls' Hsame. apply map_eq. intros k.
    by rewrite !Hcalls, Hsame.
  - intros Hkeys. split.
    + intros kv. apply map_eq. intros k. rewrite !dist_list_lookup.
      destruct (decide (k ∈ keys)) as [Hin|Hnin].
      * by rewrite decide_True by (by apply Hkeys).
      * rewrite decide_False; [done|]. intros Hin. by apply Hnin, Hkeys.
    + intros st. apply map_eq. intros k. rewrite !single_list_lookup.
      destruct (decide (k ∈ keys)) as [Hin|Hnin].
      * by rewrite decide_True by (by apply Hkeys).
      * rewrite decide_False; [done|]. intros Hin. by apply Hnin, Hkeys.
Qed.

Lemma list_committed_offsets_reply_witness :
  list_calls (Distributed.commit_offsets [("x", 5); ("y", 6)] ∅).2
    [("x", LinKV.Fails OtherError); ("y", LinKV.Served); ("x", LinKV.Served)] ∅ =
    list_calls (Distributed.commit_offsets [("x", 5); ("y", 6)] ∅).2
      [("y", LinKV.Served); ("x", LinKV.Served); ("z", LinKV.Fails OtherError)] ∅.
Proof.
  destruct (list_committed_offsets_reply ["x"] ["x"] "x") as (_ & _ & _ & _ & Hsame & _).
  apply Hsame. intros k.
  cbn [answered existsb fst snd].
  destruct (decide ("x" = k)) as [<-|Hx]; [done|].
  destruct (decide ("y" = k)) as [<-|Hy]; [done|].
  destruct (decide ("z" = k)) as [<-|Hz]; [done|].
  by rewrite !bool_decide_eq_false_2 by done.
Defined.

(** ** Entries lie below the marker *)

Section EntriesBelowMarker.
Import LinKV Distributed.

Lemma entries_below_marker_mono n m (kv : store) :
  n <= m → entries_below_marker n kv → entries_below_marker m kv.
Proof.
  intros Hnm [Hentries Hmarkers]. split; [done|].
  intros key h Hh. specialize (Hmarkers key h Hh). lia.
Qed.

Lemma entries_below_marker_raise key n (kv : store) :
  entries_below_marker n kv →
  0 <= n <= GoInt.int_max →
  entries_below_marker (n + 1)
    (<[offsetKey key := GoInt.add (highest key kv) 1]> kv)
  ∧ 0 <= GoInt.add (highest key kv) 1.
Proof.
  intros [Hentries Hmarkers] Hn.
  assert (Hhigh : -1 <= highest key kv < n).
  { unfold highest. destruct (kv !! offsetKey key) as [h|] eqn:Eh; cbn.
    - specialize (Hmarkers key h Eh). lia.
    - lia. }
  assert (Hadd : GoInt.add (highest key kv) 1 = highest key kv + 1).
  { apply add_1_no_overflow. unfold GoInt.int_min, GoInt.int_max in *. lia. }
  rewrite Hadd. split; [|lia]. split.
  - intros key' offset msg.
    rewrite lookup_insert_ne by apply not_eq_sym, logEntryKey_ne_offsetKey.
    intros Hentry. destruct (Hentries key' offset msg Hentry) as (h & Hh & Hle).
    destruct (decide (key' = key)) as [->|Hne].
    + rewrite lookup_insert_eq. eexists. split; [done|].
      unfold highest in *. rewrite Hh in *. cbn in *. lia.
    + rewrite lookup_insert_ne; [by exists h|].
      intros Heq. by apply offsetKey_inj in Heq.
  - intros key' h. destruct (decide (key' = key)) as [->|Hne].
    + rewrite lookup_insert_eq. intros [= <-]. lia.
    + rewrite lookup_insert_ne by (intros Heq; by apply offsetKey_inj in Heq).
      intros Hh. specialize (Hmarkers key' h Hh). lia.
Qed.

Lemma entries_below_marker_entry key offset msg n (kv : store) :
  entries_below_marker n kv →
  kv !! offsetKey key = Some offset →
  entries_below_marker n (<[logEntryKey key offset := msg]> kv).
Proof.
  intros [Hentries Hmarkers] Hmarker. split.
  - intros key' offset' msg'.
    rewrite (lookup_insert_ne _ _ (offsetKey key')) by apply logEntryKey_ne_offsetKey.
    destruct (decide (logEntryKey key offset = logEntryKey key' offset')) as [Heq|Hne].
    + apply logEntryKey_inj2 in Heq as [<- <-]. intros _.
      exists offset. split; [done|]. specialize (Hmarkers key offset Hmarker). lia.
    + rewrite lookup_insert_ne by done. apply Hentries.
  - intros key' h.
    rewrite lookup_insert_ne by apply logEntryKey_ne_offsetKey. apply Hmarkers.
Qed.

Lemma store_after_below_marker r os n (kv : store) :
  entries_below_marker n kv →
  0 <= n <= GoInt.int_max →
  entries_below_marker (n + 1) (store_after r os kv).
Proof.
  intros Hinv Hn.
  assert (Hsame : ∀ kv' : store,
            (∀ key, kv' !! offsetKey key = kv !! offsetKey key) →
            (∀ key offset, kv' !! logEntryKey key offset = kv !! logEntryKey key offset) →
            entries_below_marker (n + 1) kv').
  { intros kv' Hmarkers Hentries.
    apply (entries_below_marker_mono n); [lia|].
    destruct Hinv as [H1 H2]. split.
    - intros key offset msg. rewrite Hentries, Hmarkers. apply H1.
    - intros key h. rewrite Hmarkers. apply H2. }
  destruct r as [key msg|offsets|offsets|keys]; cbn [store_after]; try (by apply Hsame).
  - pose proof (exec_send_effect key msg os kv SendRead kv eq_refl) as Heff.
    destruct (exec (send_step key msg) os SendRead kv) as [pc kv']. cbn [fst snd] in *.
    destruct (entries_below_marker_raise key n kv Hinv Hn) as [Hraise Hpos].
    destruct pc as [|old|offset|offset|e|offset e]; cbn [send_effect] in Heff.
    + subst kv'. by apply Hsame.
    + destruct Heff as [-> _]. by apply Hsame.
    + by destruct Heff as [-> ->].
    + destruct Heff as [-> ->]. apply entries_below_marker_entry; [done|].
      by rewrite lookup_insert_eq.
    + subst kv'. by apply Hsame.
    + by destruct Heff as [-> ->].
  - apply Hsame.
    + intros key. apply exec_commit_other. intros k'.
      apply offsetKey_ne_committedOffsetKey.
    + intros key offset. apply exec_commit_other. intros k'.
      apply logEntryKey_ne_committedOffsetKey.
Qed.

Lemma store_after_all_below_marker history : ∀ n (kv : store),
  entries_below_marker n kv →
  0 <= n →
  n + Z.of_nat (length history) <= GoInt.int_max + 1 →
  entries_below_marker (n + Z.of_nat (length history)) (store_after_all history kv).
Proof.
  unfold store_after_all.
  induction history as [|[r os] history IH]; intros n kv Hinv Hpos Hn.
  - cbn. by rewrite Z.add_0_r.
  - cbn [fold_left length]. cbn [length] in Hn.
    replace (n + Z.of_nat (S (length history)))
      with ((n + 1) + Z.of_nat (length history)) by lia.
    apply IH; [|lia|lia]. apply store_after_below_marker; [done | lia].
Qed.

(** X11: in the distributed variant an entry never lies above the marker
    of its key.  After any requests served one after the other from the
    empty store, with whatever failing calls and requests cut short,
    every entry in the store lies at an offset from 0 up to the marker of
    its key, so the scan of poll reaches it; and every marker lies below
    the number of requests. *)
Theorem entries_stay_below_marker (history : list (request * list outcome)) :
  Z.of_nat (length history) <= GoInt.int_max + 1 →
  entries_below_marker (Z.of_nat (length history)) (store_after_all history ∅).
Proof.
  intros Hlen.
  apply (store_after_all_below_marker history 0 ∅); [|lia|lia].
  split; intros ?; intros; by rewrite lookup_empty in *.
Qed.

Lemma entries_stay_below_marker_witness :
  entries_below_marker 3
    (store_after_all
       [(Send "x" 10, [Served; Served; Fails OtherError]);
        (CommitOffsets [("x", 5)], [Served; Served]);
        (Send "x" 20, [Served; Served; Served])] ∅).
Proof.
  apply (entries_stay_below_marker
           [(Send "x" 10, [Served; Served; Fails OtherError]);
            (CommitOffsets [("x", 5)], [Served; Served]);
            (Send "x" 20, [Served; Served; Served])]).
  vm_compute. discriminate.
Defined.

End EntriesBelowMarker.

(** ** Logs of the in-memory variant *)

Lemma log_consecutive_send (log : SingleNode.Log) prev msg :
  log_consecutive log →
  last (SingleNode.LogEntries log) = Some prev →
  log_consecutive
    {| SingleNode.CommittedOffset := SingleNode.CommittedOffset log;
       SingleNode.LogEntries :=
         SingleNode.LogEntries log ++
           [{| SingleNode.Offset := GoInt.add (SingleNode.Offset prev) 1;
               SingleNode.Message := msg |}] |}.
Proof.
  intros [Hstep (e0 & Hhead & Hle)] Hlast. split; cbn.
  - intros i e e' Hi Hsi.
    destruct (decide (S i < length (SingleNode.LogEntries log))%nat) as [Hlt|Hge].
    + rewrite lookup_app_l in Hi, Hsi by lia. by apply (Hstep i).
    + assert (Hlen : S i = length (SingleNode.LogEntries log)).
      { apply lookup_lt_Some in Hsi. rewrite length_app in Hsi. cbn in Hsi. lia. }
      rewrite lookup_app_l in Hi by lia.
      rewrite lookup_app_r in Hsi by lia.
      rewrite Hlen, Nat.sub_diag in Hsi. injection Hsi as <-. cbn.
      rewrite last_lookup in Hlast. rewrite <- Hlen in Hlast. cbn in Hlast.
      rewrite Hi in Hlast. by injection Hlast as ->.
  - exists e0. split; [|done].
    destruct (SingleNode.LogEntries log); [done | by cbn in *].
Qed.

Lemma logs_after_consecutive r (st : gmap string SingleNode.Log) :
  (∀ key log, st !! key = Some log → log_consecutive log) →
  ∀ key log, logs_after r st !! key = Some log → log_consecutive log.
Proof.
  intros Hst key log.
  destruct r as [k msg|offsets|offsets|keys]; cbn [logs_after]; try apply Hst.
  - unfold SingleNode.send. destruct (st !! k) as [log0|] eqn:Ek.
    + destruct (last (SingleNode.LogEntries log0)) as [prev|] eqn:Elast; cbn;
        [|apply Hst].
      destruct (decide (key = k)) as [->|Hne].
      * rewrite lookup_insert_eq. intros [= <-].
        apply log_consecutive_send; [by apply (Hst k) | done].
      * rewrite lookup_insert_ne by done. apply Hst.
    + cbn. destruct (decide (key = k)) as [->|Hne].
      * rewrite lookup_insert_eq. intros [= <-]. split; cbn.
        -- intros [|i] e e' Hi Hsi; done.
        -- eexists. split; [done|]. cbn. lia.
      * rewrite lookup_insert_ne by done. apply Hst.
  - rewrite single_commit_offsets_lookup.
    destruct (st !! key) as [log0|] eqn:Ekey; [|done]. cbn. intros [= <-].
    destruct (Hst key log0 Ekey) as [Hstep (e0 & Hhead & Hle)]. split; cbn; [done|].
    exists e0. split; [done|].
    pose proof (fold_max_ge (offsets_for key offsets) (SingleNode.CommittedOffset log0)).
    lia.
Qed.

(** X4: the in-memory variant keeps every log in shape.  After any
    requests served from the empty map, in every log the offset of an
    entry is the offset of the entry before it plus one, in Go's
    integers, and the committed offset of the log is not below the offset
    of its first entry, whether or not anything was committed. *)
Theorem logs_stay_consecutive (history : list request) (key : string)
    (log : SingleNode.Log) :
  logs_after_all history ∅ !! key = Some log → log_consecutive log.
Proof.
  assert (Hall : ∀ st : gmap string SingleNode.Log,
            (∀ k l, st !! k = Some l → log_consecutive l) →
            ∀ k l, logs_after_all history st !! k = Some l → log_consecutive l).
  { unfold logs_after_all. induction history as [|r history IH]; intros st Hst; [done|].
    cbn [fold_left]. apply IH. by apply logs_after_consecutive. }
  apply Hall. intros k l. by rewrite lookup_empty.
Qed.

Lemma logs_stay_consecutive_witness :
  log_consecutive
    {| SingleNode.CommittedOffset := 1000;
       SingleNode.LogEntries :=
         [{| SingleNode.Offset := 1000; SingleNode.Message := 10 |};
          {| SingleNode.Offset := 1001; SingleNode.Message := 11 |}] |}.
Proof.
  apply (logs_stay_consecutive [Send "a" 10; CommitOffsets [("a", 5)]; Send "a" 11] "a").
  vm_compute. reflexivity.
Defined.

(** ** Offsets of sequential sends, with failing calls *)

Lemma StronglySorted_sublist {A} (R : A → A → Prop) (l1 l2 : list A) :
  l1 `sublist_of` l2 → StronglySorted R l2 → StronglySorted R l1.
Proof.
  induction 1 as [|x l1 l2 Hsub IH|x l1 l2 Hsub IH]; intros Hsorted.
  - constructor.
  - apply StronglySorted_inv in Hsorted as [Hl2 Hx]. constructor; [by apply IH|].
    apply Forall_forall. intros y Hy.
    apply (proj1 (Forall_forall _ _) Hx). by apply (elem_of_sublist _ _ _ Hy).
  - apply StronglySorted_inv in Hsorted as [Hl2 _]. by apply IH.
Qed.

Lemma omap_sublist {A B} (f g : A → option B) (l : list A) :
  (∀ x y, f x = Some y → g x = Some y) → omap f l `sublist_of` omap g l.
Proof.
  intros Hfg. induction l as [|x l IH]; csimpl; [constructor|].
  destruct (f x) as [y|] eqn:Ef.
  - rewrite (Hfg x y Ef). by constructor.
  - destruct (g x); [by constructor | done].
Qed.

Lemma omap_ext_in {A B} (f g : A → option B) (l : list A) :
  (∀ x, x ∈ l → f x = g x) → omap f l = omap g l.
Proof.
  induction l as [|x l IH]; intros Hfg; [done|]. csimpl.
  rewrite (Hfg x (list_elem_of_here _ _)), IH; [done|].
  intros y Hy. by apply Hfg, list_elem_of_further.
Qed.

Lemma exit_replied_taken pc offset :
  exit_replied pc = Some offset → exit_taken pc = Some offset.
Proof. by destruct pc. Qed.

Lemma send_exits_cons key r os history (kv : gmap string Z) :
  send_exits key ((r, os) :: history) kv =
    send_exits key [(r, os)] kv ++ send_exits key history (store_after r os kv).
Proof. cbn [send_exits]. by rewrite app_nil_r. Qed.

(** One request raises the marker of [key] by one when it is a send to
    [key] that took an offset, and leaves it alone otherwise. *)
Lemma store_after_taken key r os (kv : gmap string Z) :
  GoInt.int_min - 1 <= highest key kv < GoInt.int_max →
  (omap exit_taken (send_exits key [(r, os)] kv) = []
   ∧ highest key (store_after r os kv) = highest key kv)
  ∨ (omap exit_taken (send_exits key [(r, os)] kv) = [highest key kv + 1]
     ∧ highest key (store_after r os kv) = highest key kv + 1).
Proof.
  intros Hb. cbn [send_exits]. rewrite app_nil_r.
  destruct r as [key' msg|offsets|offsets|keys]; cbn [store_after].
  - destruct (decide (key' = key)) as [->|Hne].
    + pose proof (exec_send_effect key msg os kv Distributed.SendRead kv eq_refl) as Heff.
      destruct (exec (Distributed.send_step key msg) os Distributed.SendRead kv)
        as [pc kv'].
      cbn [fst snd] in *. pose proof (add_1_no_overflow _ Hb) as Hadd.
      assert (Hraised : ∀ offset,
                offset = highest key kv + 1 →
                highest key (<[Distributed.offsetKey key := offset]> kv) =
                  highest key kv + 1).
      { intros offset ->. unfold highest at 1. by rewrite lookup_insert_eq. }
      destruct pc as [|old|offset|offset|e|offset e]; cbn [send_effect] in Heff;
        rewrite ?Hadd in Heff; csimpl.
      * left. by subst kv'.
      * left. by destruct Heff as [-> _].
      * right. destruct Heff as [-> ->]. split; [done | by apply Hraised].
      * right. destruct Heff as [-> ->]. split; [done|].
        unfold highest at 1.
        rewrite lookup_insert_ne by apply logEntryKey_ne_offsetKey.
        by rewrite lookup_insert_eq.
      * left. by subst kv'.
      * right. destruct Heff as [-> ->]. split; [done | by apply Hraised].
    + left. split; [done|]. unfold highest. by rewrite exec_send_marker.
  - by left.
  - left. split; [done|]. unfold highest. rewrite exec_commit_other; [done|].
    intros k'. apply offsetKey_ne_committedOffsetKey.
  - by left.
Qed.

Lemma send_exits_taken key history : ∀ kv : gmap string Z,
  GoInt.int_min - 1 <= highest key kv →
  highest key kv + Z.of_nat (length history) <= GoInt.int_max →
  ∃ n : nat,
    (n <= length history)%nat
    ∧ omap exit_taken (send_exits key history kv) =
        seqZ (highest key kv + 1) (Z.of_nat n)
    ∧ highest key (store_after_all history kv) = highest key kv + Z.of_nat n.
Proof.
  induction history as [|[r os] history IH]; intros kv Hlo Hhi.
  - exists 0%nat. split_and!; [done | done |]. cbn. lia.
  - cbn [length] in Hhi. rewrite send_exits_cons, omap_app.
    change (store_after_all ((r, os) :: history) kv)
      with (store_after_all history (store_after r os kv)).
    destruct (store_after_taken key r os kv) as [[-> Hh]|[-> Hh]]; [lia| |].
    + destruct (IH (store_after r os kv)) as (n & Hn & Htaken & Hhigh);
        [rewrite Hh; lia | rewrite Hh; lia |].
      exists n. rewrite Htaken, Hhigh, Hh. split_and!; [cbn [length]; lia | done | done].
    + destruct (IH (store_after r os kv)) as (n & Hn & Htaken & Hhigh);
        [rewrite Hh; lia | rewrite Hh; lia |].
      exists (S n). rewrite Htaken, Hhigh, Hh. split_and!; [cbn [length]; lia | | lia].
      cbn [app]. rewrite Nat2Z.inj_succ, (seqZ_cons (highest key kv + 1)) by lia.
      by rewrite Z.pred_succ.
Qed.

(** C2, as the code has it: the offsets returned by send calls on one
    key, executed one after the other, go up strictly, and they are
    consecutive as long as every send that took an offset also returned
    it.  When every call is answered, the offsets of the distributed
    variant continue after the marker's value and start at 0 for a key
    without marker; in the in-memory variant they start at
    [(len(logs) + 1) * 1000] for a key without log and continue after the
    last entry of an existing log.  Requests other than sends on the key
    served in between do not change the next offset.  When calls of the
    distributed variant fail, the offsets taken from the marker are still
    consecutive, the returned ones are among them in the same order, and
    they are all of them, hence consecutive, when no send stopped between
    its swap and its reply.  The bounds keep the offsets below the
    largest [int]. *)
Theorem sequential_sends_consecutive_offsets (key : string) (msgs : list Z) :
  (∀ kv : gmap string Z,
     GoInt.int_min - 1 <= highest key kv →
     highest key kv + Z.of_nat (length msgs) <= GoInt.int_max →
     (Distributed.sends key msgs kv).1 =
       Distributed.SendOk <$> seqZ (highest key kv + 1) (Z.of_nat (length msgs)))
  ∧ (∀ kv : gmap string Z,
       kv !! Distributed.offsetKey key = None →
       Z.of_nat (length msgs) <= GoInt.int_max + 1 →
       (Distributed.sends key msgs kv).1 =
         Distributed.SendOk <$> seqZ 0 (Z.of_nat (length msgs)))
  ∧ (∀ (kv : gmap string Z) (history : list (request * list LinKV.outcome)) msg,
       (∀ ro, ro ∈ history → ¬ sends_key key ro.1) →
       GoInt.int_min - 1 <= highest key kv < GoInt.int_max →
       (Distributed.send key msg (store_after_all history kv)).1 =
         Distributed.SendOk (highest key kv + 1))
  ∧ (∀ st : gmap string SingleNode.Log,
       st !! key = None →
       (Z.of_nat (size st) + 1) * 1000 + Z.of_nat (length msgs) <= GoInt.int_max + 1 →
       ∃ st',
         SingleNode.sends key msgs st =
           Some (seqZ ((Z.of_nat (size st) + 1) * 1000) (Z.of_nat (length msgs)), st'))
  ∧ (∀ (st : gmap string SingleNode.Log) log prev,
       st !! key = Some log →
       last (SingleNode.LogEntries log) = Some prev →
       GoInt.int_min - 1 <= SingleNode.Offset prev →
       SingleNode.Offset prev + Z.of_nat (length msgs) <= GoInt.int_max →
       ∃ st',
         SingleNode.sends key msgs st =
           Some (seqZ (SingleNode.Offset prev + 1) (Z.of_nat (length msgs)), st'))
  ∧ (∀ (st : gmap string SingleNode.Log) log prev (history : list request) msg,
       st !! key = Some log →
       last (SingleNode.LogEntries log) = Some prev →
       (∀ r, r ∈ history → ¬ sends_key key r) →
       GoInt.int_min - 1 <= SingleNode.Offset prev < GoInt.int_max →
       ∃ st',
         SingleNode.send key msg (logs_after_all history st) =
           Some (SingleNode.Offset prev + 1, st'))
  ∧ (∀ (kv : gmap string Z) (history : list (request * list LinKV.outcome)),
       GoInt.int_min - 1 <= highest key kv →
       highest key kv + Z.of_nat (length history) <= GoInt.int_max →
       (∃ n : nat,
          omap exit_taken (send_exits key history kv) =
            seqZ (highest key kv + 1) (Z.of_nat n))
       ∧ omap exit_replied (send_exits key history kv)
           `sublist_of` omap exit_taken (send_exits key history kv)
       ∧ StronglySorted Z.lt (omap exit_replied (send_exits key history kv))
       ∧ (∀ offset, offset ∈ omap exit_replied (send_exits key history kv) →
                    highest key kv < offset)
       ∧ ((∀ pc, pc ∈ send_exits key history kv → exit_taken pc = exit_replied pc) →
          omap exit_replied (send_exits key history kv) =
            seqZ (highest key kv + 1)
              (Z.of_nat (length (omap exit_replied (send_exits key history kv)))))).
Proof.
  split_and!.
  - intros kv Hlo Hhi. by apply sends_alone.
  - intros kv Hfresh Hlen.
    assert (Hh : highest key kv = -1) by (unfold highest; by rewrite Hfresh).
    destruct (sends_alone key msgs kv) as [H _].
    + rewrite Hh. unfold GoInt.int_min. lia.
    + rewrite Hh. lia.
    + by rewrite H, Hh.
  - intros kv history msg Hh Hb.
    pose proof (store_after_all_highest key history kv Hh) as Hsame.
    rewrite send_alone by (by rewrite Hsame). cbn [fst]. by rewrite Hsame.
  - intros st Hfresh Hhi. destruct msgs as [|msg msgs].
    + exists st. done.
    + destruct (sends_fresh key msg msgs st Hfresh) as (os & st' & log' & Hs & _ & _ & Hr).
      exists st'. rewrite Hs, Hr; [done|]. cbn [length] in Hhi. lia.
  - intros st log prev Hlog Hlast Hlo Hhi.
    destruct (sends_existing key msgs st log prev Hlog Hlast)
      as (os & st' & log' & Hs & _ & _ & _ & Hr).
    exists st'. destruct Hr as [-> _]; done.
  - intros st log prev history msg Hlog Hlast Hh Hb.
    destruct (logs_after_all_entries key history st log Hh Hlog) as (log' & Hlog' & Hent).
    rewrite <- Hent in Hlast.
    rewrite (send_existing key msg _ log' prev Hlog' Hlast).
    rewrite add_1_no_overflow by done. by eexists.
  - intros kv history Hlo Hhi.
    destruct (send_exits_taken key history kv Hlo Hhi) as (n & _ & Htaken & _).
    pose proof (omap_sublist exit_replied exit_taken (send_exits key history kv)
                  exit_replied_taken) as Hsub.
    assert (Hsorted : StronglySorted Z.lt (omap exit_replied (send_exits key history kv))).
    { apply (StronglySorted_sublist _ _ _ Hsub). rewrite Htaken. apply seqZ_sorted. }
    split_and!; [by exists n | done | done | |].
    + intros offset Hin. apply (elem_of_sublist _ _ _ Hin) in Hsub.
      rewrite Htaken in Hsub. apply elem_of_seqZ in Hsub. lia.
    + intros Hall.
      rewrite <- (omap_ext_in exit_taken exit_replied _ Hall).
      rewrite Htaken, length_seqZ. by rewrite Nat2Z.id.
Qed.

Lemma sequential_sends_consecutive_offsets_witness :
  (Distributed.sends "x" [10; 20; 30] ∅).1 =
    Distributed.SendOk <$> seqZ 0 3
  ∧ (Distributed.sends "x" [20; 30] (Distributed.send "x" 10 ∅).2).1 =
      Distributed.SendOk <$>
        seqZ (highest "x" (Distributed.send "x" 10 ∅).2 + 1) (Z.of_nat (length [20; 30]))
  ∧ (Distributed.send "x" 20
       (store_after_all
          [(Send "y" 7, [LinKV.Served; LinKV.Served; LinKV.Served]);
           (CommitOffsets [("x", 0)], [LinKV.Served; LinKV.Served])]
          (Distributed.send "x" 10 ∅).2)).1 =
      Distributed.SendOk (highest "x" (Distributed.send "x" 10 ∅).2 + 1)
  ∧ (∃ st', SingleNode.sends "x" [10; 20; 30] ∅ = Some (seqZ 1000 3, st'))
  ∧ (∃ st',
       SingleNode.sends "x" [20; 30]
         {[ "x" := {| SingleNode.CommittedOffset := 1000;
                      SingleNode.LogEntries :=
                        [{| SingleNode.Offset := 1000; SingleNode.Message := 10 |}] |} ]} =
         Some (seqZ (1000 + 1) (Z.of_nat (length [20; 30])), st'))
  ∧ (∃ st',
       SingleNode.send "x" 20
         (logs_after_all [Send "y" 7; CommitOffsets [("x", 1000)]]
            {[ "x" := {| SingleNode.CommittedOffset := 1000;
                         SingleNode.LogEntries :=
                           [{| SingleNode.Offset := 1000; SingleNode.Message := 10 |}] |} ]}) =
         Some (1000 + 1, st'))
  ∧ StronglySorted Z.lt
      (omap exit_replied
         (send_exits "x"
            [(Send "x" 10, [LinKV.Served; LinKV.Served; LinKV.Served]);
             (Send "x" 20, [LinKV.Served; LinKV.Served; LinKV.Fails OtherError]);
             (Send "y" 7, [LinKV.Served; LinKV.Served; LinKV.Served]);
             (Send "x" 30, [LinKV.Served; LinKV.Fails OtherError; LinKV.Served;
                            LinKV.Served; LinKV.Served])] ∅)).
Proof.
  destruct (sequential_sends_consecutive_offsets "x" [10; 20; 30])
    as (_ & Hd & _ & Hm & _).
  destruct (sequential_sends_consecutive_offsets "x" [20; 30])
    as (Hd' & _ & Hdh & _ & Hm' & Hmh & Hfail).
  split_and!.
  - apply (Hd ∅); [reflexivity | vm_compute; discriminate].
  - apply (Hd' (Distributed.send "x" 10 ∅).2); vm_compute; discriminate.
  - apply Hdh.
    + intros ro Hro. apply elem_of_cons in Hro as [->|Hro]; [cbn; discriminate|].
      apply list_elem_of_singleton in Hro as ->. by intros [].
    + vm_compute. split; [discriminate | reflexivity].
  - destruct (Hm ∅) as [st' Hst']; [reflexivity | vm_compute; discriminate |].
    exists st'. exact Hst'.
  - apply (Hm' _ {| SingleNode.CommittedOffset := 1000;
                    SingleNode.LogEntries :=
                      [{| SingleNode.Offset := 1000; SingleNode.Message := 10 |}] |}
               {| SingleNode.Offset := 1000; SingleNode.Message := 10 |}).
    + vm_compute. reflexivity.
    + reflexivity.
    + vm_compute. discriminate.
    + vm_compute. discriminate.
  - apply (Hmh _ {| SingleNode.CommittedOffset := 1000;
                    SingleNode.LogEntries :=
                      [{| SingleNode.Offset := 1000; SingleNode.Message := 10 |}] |}
               {| SingleNode.Offset := 1000; SingleNode.Message := 10 |}).
    + vm_compute. reflexivity.
    + reflexivity.
    + intros r Hr. apply elem_of_cons in Hr as [->|Hr]; [cbn; discriminate|].
      apply list_elem_of_singleton in Hr as ->. by intros [].
    + vm_compute. split; [discriminate | reflexivity].
  - destruct (Hfail ∅
                [(Send "x" 10, [LinKV.Served; LinKV.Served; LinKV.Served]);
                 (Send "x" 20, [LinKV.Served; LinKV.Served; LinKV.Fails OtherError]);
                 (Send "y" 7, [LinKV.Served; LinKV.Served; LinKV.Served]);
                 (Send "x" 30, [LinKV.Served; LinKV.Fails OtherError; LinKV.Served;
                                LinKV.Served; LinKV.Served])])
      as (_ & _ & Hsorted & _).
    + vm_compute. discriminate.
    + vm_compute. discriminate.
    + exact Hsorted.
Defined.

(** C2, as stated, fails on the distributed variant: of three sends to a
    fresh key made one after the other, the second takes offset 1 and
    then fails to write its entry, so it returns the error; the offsets
    returned are 0 and 2, and 2 is not one more than 0. *)
Lemma sequential_write_failure_skips_offset :
  send_exits "x"
    [(Send "x" 10, [LinKV.Served; LinKV.Served; LinKV.Served]);
     (Send "x" 20, [LinKV.Served; LinKV.Served; LinKV.Fails OtherError]);
     (Send "x" 30, [LinKV.Served; LinKV.Served; LinKV.Served])] ∅ =
    [Distributed.SendOk 0; Distributed.SendWriteErr 1 OtherError; Distributed.SendOk 2]
  ∧ omap exit_replied
      (send_exits "x"
         [(Send "x" 10, [LinKV.Served; LinKV.Served; LinKV.Served]);
          (Send "x" 20, [LinKV.Served; LinKV.Served; LinKV.Fails OtherError]);
          (Send "x" 30, [LinKV.Served; LinKV.Served; LinKV.Served])] ∅) = [0; 2]
  ∧ 2 ≠ 0 + 1
  ∧ ¬ gap_free [0; 2].
Proof.
  split_and!; [vm_compute; reflexivity | vm_compute; reflexivity | discriminate |].
  intros Hgap.
  assert (H1 : 1 ∈ [0; 2]).
  { apply (Hgap 0 2 1); [apply list_elem_of_here | | lia].
    apply list_elem_of_further, list_elem_of_here. }
  repeat (apply elem_of_cons in H1 as [H1 | H1]; [discriminate|]).
  by apply not_elem_of_nil in H1.
Qed.

(** ** What a poll returns after a send *)

Lemma single_send_other key msg (st st' : gmap string SingleNode.Log) offset k :
  SingleNode.send key msg st = Some (offset, st') →
  k ≠ key →
  st' !! k = st !! k.
Proof.
  unfold SingleNode.send. intros Hsend Hne.
  destruct (st !! key) as [log|];
    [destruct (last (SingleNode.LogEntries log)); [|done]|];
    injection Hsend as _ <-; by rewrite lookup_insert_ne.
Qed.

Lemma single_send_size key msg (st st' : gmap string SingleNode.Log) offset :
  SingleNode.send key msg st = Some (offset, st') →
  (size st' <= S (size st))%nat.
Proof.
  unfold SingleNode.send. intros Hsend.
  destruct (st !! key) as [log|] eqn:Ekey;
    [destruct (last (SingleNode.LogEntries log)); [|done]|];
    injection Hsend as _ <-; rewrite map_size_insert, Ekey; cbn; lia.
Qed.

Lemma logs_bounded_mono n m (st : gmap string SingleNode.Log) :
  0 <= n <= m → logs_bounded n st → logs_bounded m st.
Proof.
  intros Hnm [Hsize Hlogs]. split; [lia|].
  intros key log Hlog. destruct (Hlogs key log Hlog) as [Hsorted Hoffsets].
  split; [done|]. intros e He. specialize (Hoffsets e He). lia.
Qed.

(** A request keeps the logs in ascending order as long as the offsets
    stay below the largest [int]. *)
Lemma logs_after_bounded r n (st : gmap string SingleNode.Log) :
  0 <= n →
  1001 * (n + 1) <= GoInt.int_max →
  logs_bounded n st →
  logs_bounded (n + 1) (logs_after r st).
Proof.
  intros Hn Hmax Hst.
  assert (Hmono : logs_bounded (n + 1) st) by (apply (logs_bounded_mono n); [lia | done]).
  destruct r as [key msg|offsets|offsets|keys]; cbn [logs_after]; try done.
  - destruct (SingleNode.send key msg st) as [[offset st']|] eqn:Hsend; [|done]. cbn.
    destruct Hst as [Hsize Hlogs].
    assert (Hlast : ∀ log, st !! key = Some log →
              sorted_log log
              ∧ ∀ prev, last (SingleNode.LogEntries log) = Some prev →
                        GoInt.int_min - 1 <= SingleNode.Offset prev < GoInt.int_max).
    { intros log Hlog. destruct (Hlogs key log Hlog) as [Hsorted Hoffsets].
      split; [done|]. intros prev Hprev.
      apply last_Some in Hprev as [l' Hl'].
      assert (Hin : prev ∈ SingleNode.LogEntries log).
      { rewrite Hl'. apply elem_of_app. right. apply list_elem_of_here. }
      specialize (Hoffsets prev Hin). unfold GoInt.int_min. lia. }
    destruct (send_keeps_sorted key msg st st' offset Hlast Hsend)
      as (log' & Hlog' & Hsorted' & _ & Hentries').
    assert (Hoffset : 0 <= offset <= 1001 * (n + 1)).
    { destruct (st !! key) as [log|] eqn:Ekey.
      - destruct (last (SingleNode.LogEntries log)) as [prev|] eqn:Eprev.
        + rewrite (send_existing key msg st log prev Ekey Eprev) in Hsend.
          injection Hsend as <- _.
          destruct (Hlast log eq_refl) as [_ Hprev].
          rewrite add_1_no_overflow by (by apply Hprev).
          destruct (Hlogs key log Ekey) as [_ Hoffsets].
          apply last_Some in Eprev as [l' Hl'].
          assert (Hin : prev ∈ SingleNode.LogEntries log).
          { rewrite Hl'. apply elem_of_app. right. apply list_elem_of_here. }
          specialize (Hoffsets prev Hin). lia.
        + unfold SingleNode.send in Hsend. by rewrite Ekey, Eprev in Hsend.
      - rewrite (send_fresh key msg st Ekey) in Hsend. cbn in Hsend.
        injection Hsend as <- _.
        rewrite first_offset_no_overflow by lia. lia. }
    split.
    + pose proof (single_send_size key msg st st' offset Hsend). lia.
    + intros k log Hk. destruct (decide (k = key)) as [->|Hne].
      * rewrite Hlog' in Hk. injection Hk as <-. split; [done|].
        intros e He. rewrite Hentries' in He. apply elem_of_app in He as [He|He].
        -- destruct (st !! key) as [log|] eqn:Ekey; [|by apply not_elem_of_nil in He].
           cbn in He. destruct (Hlogs key log Ekey) as [_ Hoffsets].
           specialize (Hoffsets e He). lia.
        -- apply list_elem_of_singleton in He as ->. done.
      * rewrite (single_send_other key msg st st' offset k Hsend Hne) in Hk.
        destruct Hmono as [_ Hmono]. by apply (Hmono k).
  - destruct Hmono as [Hsize Hlogs]. split.
    + assert (Hdom : dom (SingleNode.commit_offsets offsets st) = dom st).
      { apply set_eq. intros key. rewrite !elem_of_dom, single_commit_offsets_lookup.
        by rewrite fmap_is_Some. }
      by rewrite <- size_dom, Hdom, size_dom.
    + intros key log. rewrite single_commit_offsets_lookup.
      destruct (st !! key) as [log0|] eqn:Ekey; [|done]. cbn. intros [= <-].
      by apply (Hlogs key log0).
Qed.

Lemma logs_after_all_bounded history : ∀ n (st : gmap string SingleNode.Log),
  0 <= n →
  1001 * (n + Z.of_nat (length history)) <= GoInt.int_max →
  logs_bounded n st →
  logs_bounded (n + Z.of_nat (length history)) (logs_after_all history st).
Proof.
  unfold logs_after_all.
  induction history as [|r history IH]; intros n st Hn Hmax Hst.
  - cbn. by rewrite Z.add_0_r.
  - cbn [fold_left length] in *.
    replace (n + Z.of_nat (S (length history)))
      with (n + 1 + Z.of_nat (length history)) by lia.
    apply IH; [lia | lia |]. apply logs_after_bounded; [done | lia | done].
Qed.

(** C5, as the code has it: a poll of [{k: s}] after [send(k, m)] returned
    offset [o], with [s <= o], whatever requests were served in between,
    returns the first three entries of the log at or above [s] that it
    could read; it contains [(o, m)] when fewer than three such entries
    lie at or above [s] before [o], has no entry below [s], and is in
    ascending offset order.  In the distributed variant the send may
    have had failing calls before it replied, and the poll returns no
    entry for the key when its read of the marker fails and leaves out
    every entry whose read fails; [(o, m)] is in the reply only if these
    two reads are answered.  In the in-memory variant the order is that
    of the log, which is ascending in every map reached from the empty
    one.  The bounds keep the offsets below the largest [int]. *)
Theorem poll_after_send (key : string) (msg startOffset : Z) :
  (∀ (kv kv' : gmap string Z) (os : list LinKV.outcome) offset
     (history : list (request * list LinKV.outcome)) (env : string → LinKV.outcome),
     GoInt.int_min - 1 <= highest key kv →
     highest key kv + 1 + Z.of_nat (length history) < GoInt.int_max →
     exec (Distributed.send_step key msg) os Distributed.SendRead kv =
       (Distributed.SendOk offset, kv') →
     GoInt.int_min <= startOffset <= offset →
     ∃ fuel l highestOffset,
       offset = highest key kv + 1
       ∧ store_after_all history kv' !! Distributed.offsetKey key = Some highestOffset
       ∧ poll_calls fuel env (store_after_all history kv') [(key, startOffset)] =
           Some {[ key := l ]}
       ∧ l = match env (Distributed.offsetKey key) with
             | LinKV.Served =>
                 take 3 (entries_from
                           (λ k, LinKV.callReadInt (env k) (store_after_all history kv') k)
                           key startOffset (highestOffset - startOffset + 1))
             | LinKV.Fails _ => []
             end
       ∧ (env (Distributed.offsetKey key) = LinKV.Served →
          env (Distributed.logEntryKey key offset) = LinKV.Served →
          (length (entries_from
                     (λ k, LinKV.callReadInt (env k) (store_after_all history kv') k)
                     key startOffset (offset - startOffset)) < 3)%nat →
          [offset; msg] ∈ l)
       ∧ (∀ entry, entry ∈ l → startOffset <= entry_offset entry)
       ∧ ascending l)
  ∧ (∀ (st st' : gmap string SingleNode.Log) offset (history : list request),
       SingleNode.send key msg st = Some (offset, st') →
       startOffset <= offset →
       ∃ l log,
         logs_after_all history st' !! key = Some log
         ∧ SingleNode.poll (logs_after_all history st') [(key, startOffset)] =
             {[ key := l ]}
         ∧ l = take 3 (entries_above (SingleNode.LogEntries log) startOffset)
         ∧ ((length (entries_above
                       (default [] (SingleNode.LogEntries <$> st !! key))
                       startOffset) < 3)%nat →
            [offset; msg] ∈ l)
         ∧ (∀ entry, entry ∈ l → startOffset <= entry_offset entry)
         ∧ (sorted_log log → ascending l))
  ∧ (∀ (before after : list request) (st' : gmap string SingleNode.Log) offset,
       1001 * (Z.of_nat (length before) + 1 + Z.of_nat (length after))
         <= GoInt.int_max →
       SingleNode.send key msg (logs_after_all before ∅) = Some (offset, st') →
       startOffset <= offset →
       ∃ l log,
         logs_after_all after st' !! key = Some log
         ∧ SingleNode.poll (logs_after_all after st') [(key, startOffset)] =
             {[ key := l ]}
         ∧ l = take 3 (entries_above (SingleNode.LogEntries log) startOffset)
         ∧ ((length (entries_above
                       (default [] (SingleNode.LogEntries
                                      <$> logs_after_all before ∅ !! key))
                       startOffset) < 3)%nat →
            [offset; msg] ∈ l)
         ∧ (∀ entry, entry ∈ l → startOffset <= entry_offset entry)
         ∧ ascending l).
Proof.
  assert (Hmem : ∀ (st st' : gmap string SingleNode.Log) offset (history : list request),
            SingleNode.send key msg st = Some (offset, st') →
            startOffset <= offset →
            ∃ l log,
              logs_after_all history st' !! key = Some log
              ∧ SingleNode.poll (logs_after_all history st') [(key, startOffset)] =
                  {[ key := l ]}
              ∧ l = take 3 (entries_above (SingleNode.LogEntries log) startOffset)
              ∧ ((length (entries_above
                            (default [] (SingleNode.LogEntries <$> st !! key))
                            startOffset) < 3)%nat →
                 [offset; msg] ∈ l)
              ∧ (∀ entry, entry ∈ l → startOffset <= entry_offset entry)
              ∧ (sorted_log log → ascending l)).
  { intros st st' offset history Hsend Hs.
    destruct (send_appends key msg st st' offset Hsend) as (log' & Hk & Hentries).
    destruct (logs_after_all_extends key history st' log' Hk)
      as (log & extra & Hlog & Hext).
    exists (take 3 (entries_above (SingleNode.LogEntries log) startOffset)), log.
    assert (Hpoll : SingleNode.poll_key (logs_after_all history st') key startOffset =
              take 3 (entries_above (SingleNode.LogEntries log) startOffset)).
    { unfold SingleNode.poll_key. rewrite Hlog.
      by rewrite single_poll_entries_take by lia. }
    split_and!; [done | | done | | |].
    + unfold SingleNode.poll. cbn [SingleNode.poll_loop].
      by rewrite Hpoll, insert_empty.
    + intros Hlen. rewrite Hext, Hentries. unfold entries_above in *.
      rewrite <- app_assoc, !filter_app, !fmap_app. cbn [app].
      rewrite (filter_cons _ {| SingleNode.Offset := offset; SingleNode.Message := msg |}).
      rewrite decide_True by done. csimpl.
      by apply elem_of_take_middle.
    + intros entry Hin. apply elem_of_take in Hin as (i & Hin & _).
      apply list_elem_of_lookup_2 in Hin.
      apply (list_elem_of_fmap_2 entry_offset) in Hin.
      rewrite entries_above_offsets in Hin.
      by apply list_elem_of_filter in Hin as [Hin _].
    + intros Hsorted. unfold ascending. rewrite fmap_take, entries_above_offsets.
      by apply StronglySorted_take, StronglySorted_filter. }
  split_and!.
  - intros kv kv' os o history env Hlo Hhi Hexec Hs.
    assert (Hb : GoInt.int_min - 1 <= highest key kv < GoInt.int_max) by lia.
    pose proof (exec_send_effect key msg os kv Distributed.SendRead kv eq_refl) as Heff.
    rewrite Hexec in Heff. cbn [fst snd send_effect] in Heff.
    rewrite (add_1_no_overflow _ Hb) in Heff. destruct Heff as [Ho Hkv'].
    assert (Hkept : entry_kept key o msg o kv').
    { subst kv'. split; [apply lookup_insert_eq|]. exists o.
      rewrite lookup_insert_ne by (apply not_eq_sym, offsetKey_ne_logEntryKey).
      rewrite lookup_insert_eq. split; [done | lia]. }
    apply (store_after_all_kept key o msg ltac:(lia) history) in Hkept; [|lia].
    remember (store_after_all history kv') as kv'' eqn:Hkv''.
    destruct Hkept as (Hentry & h & Hmarker & Hh).
    remember (λ k, LinKV.callReadInt (env k) kv'' k) as read eqn:Hread.
    exists (S (Z.to_nat (h - startOffset + 1))),
      (match env (Distributed.offsetKey key) with
       | LinKV.Served =>
           take 3 (entries_from read key startOffset (h - startOffset + 1))
       | LinKV.Fails _ => []
       end), h.
    split_and!; [done | done | | done | | |].
    + unfold poll_calls. rewrite <- Hread. cbn [Distributed.poll_loop].
      destruct (env (Distributed.offsetKey key)) as [|e] eqn:Eenv.
      * assert (Hr : read (Distributed.offsetKey key) = inr h).
        { rewrite Hread, Eenv. cbn. unfold LinKV.ReadInt. by rewrite Hmarker. }
        rewrite (poll_key_entries read key startOffset h Hr) by lia.
        by rewrite insert_empty.
      * unfold Distributed.poll_key. rewrite Hread, Eenv. cbn.
        by rewrite insert_empty.
    + intros Emarker Eentry Hlen. rewrite Emarker.
      assert (Hat : entry_at read key o = Some [o; msg]).
      { unfold entry_at. rewrite Hread, Eentry. cbn. unfold LinKV.ReadInt.
        by rewrite Hentry. }
      unfold entries_from in *.
      replace (h - startOffset + 1) with ((o - startOffset) + (h - o + 1)) by lia.
      rewrite (seqZ_app startOffset (o - startOffset) (h - o + 1)), omap_app by lia.
      replace (startOffset + (o - startOffset)) with o by lia.
      rewrite (seqZ_cons o) by lia. csimpl. rewrite Hat. csimpl.
      by apply elem_of_take_middle.
    + intros entry Hin.
      destruct (env (Distributed.offsetKey key)); [|by apply not_elem_of_nil in Hin].
      apply elem_of_take in Hin as (i & Hin & _).
      apply list_elem_of_lookup_2, entries_from_bounds in Hin. lia.
    + unfold ascending.
      destruct (env (Distributed.offsetKey key)); [|constructor].
      rewrite fmap_take, entries_from_offsets.
      apply StronglySorted_take, StronglySorted_filter, seqZ_sorted.
  - exact Hmem.
  - intros before after st' offset Hmax Hsend Hs.
    destruct (Hmem _ st' offset after Hsend Hs)
      as (l & log & Hlog & Hpoll & Hl & Hin & Hge & Hasc).
    exists l, log. split_and!; try done. apply Hasc.
    assert (Hst' : logs_bounded (Z.of_nat (length before) + 1) st').
    { replace st' with (logs_after (Send key msg) (logs_after_all before ∅))
        by (cbn [logs_after]; by rewrite Hsend).
      apply logs_after_bounded; [lia | lia |].
      replace (Z.of_nat (length before)) with (0 + Z.of_nat (length before)) by lia.
      apply logs_after_all_bounded; [lia | lia |].
      split; [done|]. intros k log0. by rewrite lookup_empty. }
    apply (logs_after_all_bounded after) in Hst'; [|lia|lia].
    destruct Hst' as [_ Hlogs]. by apply (Hlogs key log).
Qed.

Lemma poll_after_send_witness :
  (∃ fuel l,
     poll_calls fuel
       (λ k, if decide (k = Distributed.logEntryKey "x" 0)
             then LinKV.Fails OtherError else LinKV.Served)
       (store_after_all
          [(Send "y" 7, [LinKV.Served; LinKV.Served; LinKV.Served]);
           (Send "x" 30, [LinKV.Served; LinKV.Served; LinKV.Served])]
          (exec (Distributed.send_step "x" 20)
             [LinKV.Served; LinKV.Fails OtherError; LinKV.Served; LinKV.Served;
              LinKV.Served]
             Distributed.SendRead (Distributed.send "x" 10 ∅).2).2) [("x", 0)] =
       Some {[ "x" := l ]}
     ∧ [1; 20] ∈ l
     ∧ (∀ entry, entry ∈ l → 0 <= entry_offset entry)
     ∧ ascending l)
  ∧ (∃ l,
       SingleNode.poll
         (logs_after_all [Send "y" 7; Send "x" 30]
            (default ∅ (snd <$> SingleNode.sends "x" [10; 20] ∅)))
         [("x", 0)] = {[ "x" := l ]}
       ∧ [1001; 20] ∈ l
       ∧ (∀ entry, entry ∈ l → 0 <= entry_offset entry)
       ∧ ascending l).
Proof.
  destruct (poll_after_send "x" 20 0) as (H & _ & Hmem).
  split.
  - destruct (H (Distributed.send "x" 10 ∅).2
                (exec (Distributed.send_step "x" 20)
                   [LinKV.Served; LinKV.Fails OtherError; LinKV.Served; LinKV.Served;
                    LinKV.Served]
                   Distributed.SendRead (Distributed.send "x" 10 ∅).2).2
                [LinKV.Served; LinKV.Fails OtherError; LinKV.Served; LinKV.Served;
                 LinKV.Served] 1
                [(Send "y" 7, [LinKV.Served; LinKV.Served; LinKV.Served]);
                 (Send "x" 30, [LinKV.Served; LinKV.Served; LinKV.Served])]
                (λ k, if decide (k = Distributed.logEntryKey "x" 0)
                      then LinKV.Fails OtherError else LinKV.Served))
      as (fuel & l & h & _ & _ & Hpoll & _ & Hin & Hge & Hasc).
    + vm_compute. discriminate.
    + vm_compute. reflexivity.
    + vm_compute. reflexivity.
    + vm_compute. split; discriminate.
    + exists fuel, l. split_and!; [exact Hpoll | | exact Hge | exact Hasc].
      apply Hin; [vm_compute; reflexivity | vm_compute; reflexivity |].
      vm_compute. lia.
  - destruct (Hmem [Send "x" 10]
                [Send "y" 7; Send "x" 30]
                (default ∅ (snd <$> SingleNode.sends "x" [10; 20] ∅)) 1001)
      as (l & log & _ & Hpoll & _ & Hin & Hge & Hasc).
    + vm_compute. discriminate.
    + vm_compute. reflexivity.
    + vm_compute. discriminate.
    + exists l. split_and!; [exact Hpoll | | exact Hge | exact Hasc].
      apply Hin. vm_compute. lia.
Defined.

(** C5, as stated, fails in both variants: after four sends to a key, the
    fourth returned offset is 3 (1003 in the in-memory variant) and a poll
    from 0 returns the first three entries, without the fourth. *)
Lemma poll_after_fourth_send_misses_it :
  (∃ kv3 kv4,
     (Distributed.sends "x" [10; 20; 30] ∅).2 = kv3
     ∧ Distributed.send "x" 40 kv3 = (Distributed.SendOk 3, kv4)
     ∧ 0 <= 3
     ∧ Distributed.poll 5 kv4 [("x", 0)] =
         Some {[ "x" := [[0; 10]; [1; 20]; [2; 30]] ]}
     ∧ [3; 40] ∉ [[0; 10]; [1; 20]; [2; 30]])
  ∧ (∃ st3 st4,
       SingleNode.sends "x" [10; 20; 30] ∅ = Some ([1000; 1001; 1002], st3)
       ∧ SingleNode.send "x" 40 st3 = Some (1003, st4)
       ∧ 0 <= 1003
       ∧ SingleNode.poll st4 [("x", 0)] =
           {[ "x" := [[1000; 10]; [1001; 20]; [1002; 30]] ]}
       ∧ [1003; 40] ∉ [[1000; 10]; [1001; 20]; [1002; 30]]).
Proof.
  split.
  - exists (Distributed.sends "x" [10; 20; 30] ∅).2,
      (Distributed.sends "x" [10; 20; 30; 40] ∅).2.
    split_and!.
    + reflexivity.
    + vm_compute. reflexivity.
    + lia.
    + vm_compute. reflexivity.
    + intros Hin. repeat (apply elem_of_cons in Hin as [Hin | Hin]; [discriminate|]).
      by apply not_elem_of_nil in Hin.
  - exists (default ∅ (snd <$> SingleNode.sends "x" [10; 20; 30] ∅)),
      (default ∅ (snd <$> SingleNode.sends "x" [10; 20; 30; 40] ∅)).
    split_and!.
    + vm_compute. reflexivity.
    + vm_compute. reflexivity.
    + lia.
    + vm_compute. reflexivity.
    + intros Hin. repeat (apply elem_of_cons in Hin as [Hin | Hin]; [discriminate|]).
      by apply not_elem_of_nil in Hin.
Qed.


